(** * A shallow embedding of [vector.h]: [RawMemory<T>] and [Vector<T>]

    The two class templates are modelled over an explicit heap of raw
    buffers.  A buffer is a list of slots; a slot is either uninitialised
    storage ([None]) or a live object of the element type ([Some x]).
    Member functions become state transformers over the heap in a small
    monad with three outcomes: normal return, a propagating C++ exception,
    and undefined behaviour.

    Modelling conventions
    - [size_t] is [nat].  Sizes and capacities count objects that are
      present in memory, so the additions and the doubling of the source
      never reach 2^64; every subtraction of the source is either guarded
      by a comparison there or is written out here with its zero case.
    - a size that the caller supplies ([RawMemory(size_t)],
      [Vector(size_t)], [Reserve], [Resize]) is not bounded by what is in
      memory: for these functions module [Machine] computes the product
      [size * sizeof(T)] of [Allocate] as [size_t] arithmetic does, modulo
      2^64, and the results about them are stated there.
    - a [T*] is a pair (allocation, offset); [nullptr] is allocation [0].
    - the only operation of [T] that throws is its copy constructor
      (decided by [copy_throws] from the invocation count and the value);
      [operator new] does not fail.
    - every constructor, assignment and destructor call of [T] is
      recorded in a trace of events. *)

From stdpp Require Import base option list gmap.

(** ** Element types *)

(** What the container needs to know about [T]: the three type traits the
    source branches on, the state a moved-from object is left in, the
    value-initialised object, and when the copy constructor throws. *)
Class Element (T : Type) := {
  is_nothrow_move_constructible : bool;
  is_copy_constructible : bool;
  is_move_assignable : bool;
  moved_from : T → T;
  value_init : T;
  copy_throws : nat → T → bool;
}.

(** [int]: trivially copyable, a move is a copy, nothing throws. *)
Definition int_Element : Element Z := {|
  is_nothrow_move_constructible := true;
  is_copy_constructible := true;
  is_move_assignable := true;
  moved_from := λ x, x;
  value_init := 0%Z;
  copy_throws := λ _ _, false;
|}.

(** Calls into [T] that the container makes. *)
Inductive event :=
  | EvCopyCtor | EvMoveCtor | EvValueCtor
  | EvCopyAssign | EvMoveAssign
  | EvDtor.

Abbreviation addr := nat (only parsing).
Abbreviation oid := nat (only parsing).
Abbreviation ptr := (nat * nat)%type (only parsing).

Definition null : addr := 0.

(** Pointer arithmetic inside one allocation. *)
Definition ptr_add (p : ptr) (k : nat) : ptr := (p.1, p.2 + k).
Infix "+ₚ" := ptr_add (at level 50, left associativity).

(** ** The two classes' data members *)

Record RawMemory := mkRawMemory {
  buffer_ : addr;
  capacity_ : nat;
}.

Record Vector := mkVector {
  data_ : RawMemory;
  size_ : nat;
}.

Section Model.
Context {T : Type} `{!Element T}.

(** ** Program state *)

Record world := World {
  heap : gmap nat (list (option T));   (* live allocations *)
  next_addr : nat;                     (* next address [operator new] hands out *)
  copies : nat;                        (* copy-constructor invocations so far *)
  trace : list event;                  (* calls into [T], oldest first *)
  raws : gmap nat RawMemory;           (* free-standing [RawMemory] objects *)
  vecs : gmap nat Vector;              (* [Vector] objects *)
}.

Inductive outcome (A : Type) :=
  | Ok (a : A) (w : world)     (* normal return *)
  | Throw (w : world)          (* an exception leaves the call *)
  | UB.                        (* undefined behaviour / failed assertion *)
Arguments Ok {A} a w.
Arguments Throw {A} w.
Arguments UB {A}.

Definition M (A : Type) : Type := world → outcome A.

Definition ret {A} (a : A) : M A := λ w, Ok a w.
Definition bind {A B} (m : M A) (f : A → M B) : M B := λ w,
  match m w with
  | Ok a w' => f a w'
  | Throw w' => Throw w'
  | UB => UB
  end.
Definition undefined {A} : M A := λ _, UB.

Notation "'do' x ← m ; k" := (bind m (λ x, k))
  (at level 10, x name, m at level 100, k at level 200, only parsing).
Notation "'do' ' pat ← m ; k" := (bind m (λ x, match x with pat => k end))
  (at level 10, pat pattern, m at level 100, k at level 200, only parsing).
Notation "m ;;; k" := (bind m (λ _, k))
  (at level 100, k at level 200, right associativity, only parsing).

(** [unwinding cleanup m]: the destructor [cleanup] of a local object runs
    when an exception leaves [m]; the exception then continues. *)
Definition unwinding {A} (cleanup : M unit) (m : M A) : M A := λ w,
  match m w with
  | Throw w' =>
      match cleanup w' with
      | Ok _ w'' => Throw w''
      | _ => UB
      end
  | o => o
  end.

(** [assert(c)] *)
Definition assert (c : bool) : M unit := if c then ret tt else undefined.

(** ** Raw storage *)

Definition emit (e : event) : M unit := λ w,
  Ok tt (World (heap w) (next_addr w) (copies w) (trace w ++ [e]) (raws w) (vecs w)).

Definition slot_in (h : gmap nat (list (option T))) (p : ptr) : option (option T) :=
  h !! p.1 ≫= λ b, b !! p.2.
Definition slot_at (w : world) (p : ptr) : option (option T) := slot_in (heap w) p.

(** Overwrite the slot [p]; the slot has to exist. *)
Definition put (p : ptr) (s : option T) : M unit := λ w,
  match heap w !! p.1 with
  | Some b =>
      if decide (p.2 < length b)
      then Ok tt (World (<[p.1 := <[p.2 := s]> b]> (heap w)) (next_addr w)
                        (copies w) (trace w) (raws w) (vecs w))
      else UB
  | None => UB
  end.

(** Read the live object at [p]. *)
Definition load (p : ptr) : M T := λ w,
  match slot_at w p with
  | Some (Some x) => Ok x w
  | _ => UB
  end.

(** Placement new of an object with value [x] into raw storage at [p]. *)
Definition construct_at (p : ptr) (x : T) : M unit := λ w,
  match slot_at w p with
  | Some None => put p (Some x) w
  | _ => UB
  end.

(** Overwrite the live object at [p] (the effect of an assignment). *)
Definition assign_at (p : ptr) (x : T) : M unit :=
  do _ ← load p; put p (Some x).

(** [std::destroy_at(p)] *)
Definition destroy_at (p : ptr) : M unit :=
  do _ ← load p; put p None;;; emit EvDtor.

(** [operator new (size * sizeof(T))] for [size ≠ 0], [nullptr] otherwise.
    The block has room for [size] objects: the product is taken exactly,
    as it is for a size derived from the elements in memory
    ([Machine.Allocate] takes it modulo 2^64). *)
Definition Allocate (size : nat) : M addr := λ w,
  if decide (size = 0) then Ok null w
  else Ok (next_addr w)
          (World (<[next_addr w := replicate size None]> (heap w)) (S (next_addr w))
                 (copies w) (trace w) (raws w) (vecs w)).

(** [operator delete (buf)]: nothing for [nullptr]; releasing an address
    that is not a live allocation is undefined. *)
Definition Deallocate (buf : addr) : M unit := λ w,
  if decide (buf = null) then Ok tt w
  else match heap w !! buf with
       | Some _ => Ok tt (World (delete buf (heap w)) (next_addr w)
                                (copies w) (trace w) (raws w) (vecs w))
       | None => UB
       end.

(** ** Operations of [T] *)

(** What a [const T&] or [T&&] parameter is bound to: an object outside
    the modelled buffers, or an object living in a buffer. *)
Inductive ref :=
  | External (x : T)
  | InBuffer (p : ptr).

Definition read (r : ref) : M T :=
  match r with
  | External x => ret x
  | InBuffer p => load p
  end.

(** The referent of an rvalue reference after it has been moved from. *)
Definition leave_moved (r : ref) (x : T) : M unit :=
  match r with
  | External _ => ret tt
  | InBuffer p => put p (Some (moved_from x))
  end.

(** One more invocation of the copy constructor, on an object of value
    [x]; it throws when [copy_throws] says so. *)
Definition enter_copy (x : T) : M unit := λ w,
  let w' := World (heap w) (next_addr w) (S (copies w)) (trace w) (raws w) (vecs w) in
  if copy_throws (copies w) x then Throw w' else Ok tt w'.

(** [T(src)] with [src] a [const T&]: the value of the new object. *)
Definition copy_construct (src : ref) : M T :=
  do x ← read src;
  enter_copy x;;;
  emit EvCopyCtor;;;
  ret x.

(** [T(std::move(src))] *)
Definition move_construct (src : ref) : M T :=
  do x ← read src;
  leave_moved src x;;;
  emit EvMoveCtor;;;
  ret x.

(** [dst = src], copy assignment between two [T] objects *)
Definition copy_assign (dst : ptr) (src : ref) : M unit :=
  do x ← read src;
  assign_at dst x;;;
  emit EvCopyAssign.

(** [dst = std::move(src)], move assignment between two [T] objects *)
Definition move_assign (dst : ptr) (src : ref) : M unit :=
  do x ← read src;
  leave_moved src x;;;
  assign_at dst x;;;
  emit EvMoveAssign.

(** The arguments [Args&&... args] forwarded to [T]'s constructor by the
    emplace functions: an lvalue (copy) or an rvalue (move) of [T]. *)
Inductive ctor_args :=
  | CopyOf (r : ref)
  | MoveOf (r : ref).

(** [T(std::forward<Args>(args)...)] *)
Definition make (args : ctor_args) : M T :=
  match args with
  | CopyOf r => copy_construct r
  | MoveOf r => move_construct r
  end.

(** ** Standard algorithms on raw storage *)

Fixpoint destroy_n (first : ptr) (n : nat) : M unit :=
  match n with
  | 0 => ret tt
  | S n' => destroy_at first;;; destroy_n (first +ₚ 1) n'
  end.

Fixpoint uninitialized_value_construct_n (first : ptr) (n : nat) : M unit :=
  match n with
  | 0 => ret tt
  | S n' =>
      construct_at first value_init;;; emit EvValueCtor;;;
      uninitialized_value_construct_n (first +ₚ 1) n'
  end.

Fixpoint uninitialized_move_n (first : ptr) (n : nat) (d_first : ptr) : M unit :=
  match n with
  | 0 => ret tt
  | S n' =>
      do x ← move_construct (InBuffer first);
      construct_at d_first x;;;
      uninitialized_move_n (first +ₚ 1) n' (d_first +ₚ 1)
  end.

(** [std::uninitialized_copy_n]: when a copy throws, the objects already
    constructed in [d_first, current) are destroyed and the exception is
    rethrown. *)
Fixpoint uninitialized_copy_loop (first : ptr) (n : nat) (d_first : ptr) (done : nat) : M unit :=
  match n with
  | 0 => ret tt
  | S n' => λ w,
      match copy_construct (InBuffer first) w with
      | Ok x w1 =>
          (construct_at (d_first +ₚ done) x;;;
           uninitialized_copy_loop (first +ₚ 1) n' d_first (S done)) w1
      | Throw w1 =>
          match destroy_n d_first done w1 with
          | Ok _ w2 => Throw w2
          | _ => UB
          end
      | UB => UB
      end
  end.

Definition uninitialized_copy_n (first : ptr) (n : nat) (d_first : ptr) : M unit :=
  uninitialized_copy_loop first n d_first 0.

(** [std::copy_n]: element-wise copy assignment. *)
Fixpoint copy_n (first : ptr) (n : nat) (d_first : ptr) : M unit :=
  match n with
  | 0 => ret tt
  | S n' => copy_assign d_first (InBuffer first);;; copy_n (first +ₚ 1) n' (d_first +ₚ 1)
  end.

(** [std::move_backward(first, first + n, d_last)]:
    while [first != last], decrement [d_last] and [last] and move-assign
    the object at [last] to the object at [d_last].
    [d_last] is given by its allocation and offset, so that the decrement
    is only taken when an element is left to move. *)
Fixpoint move_backward (first : ptr) (n : nat) (d_last : ptr) : M unit :=
  match n, d_last.2 with
  | 0, _ => ret tt
  | S n', S d' =>
      move_assign (d_last.1, d') (InBuffer (first +ₚ n'));;;
      move_backward first n' (d_last.1, d')
  | S _, 0 => undefined
  end.

(** [static_cast<size_t>(std::distance(a, b))] for pointers into the same
    array with [a] not after [b]; anything else is undefined. *)
Definition distance (a b : ptr) : M nat :=
  if decide (a.1 = b.1 ∧ a.2 ≤ b.2) then ret (b.2 - a.2) else undefined.

(** ** [RawMemory<T>] *)

Definition RawMemory_default : RawMemory := mkRawMemory null 0.

(** [explicit RawMemory(size_t capacity)] *)
Definition RawMemory_ctor (capacity : nat) : M RawMemory :=
  do b ← Allocate capacity; ret (mkRawMemory b capacity).

(** [RawMemory(RawMemory&& other)]: the new object and what is left of
    [other]. *)
Definition RawMemory_ctor_move (other : RawMemory) : RawMemory * RawMemory :=
  (mkRawMemory (buffer_ other) (capacity_ other), mkRawMemory null 0).

Definition RawMemory_GetAddress (r : RawMemory) : ptr := (buffer_ r, 0).
Definition RawMemory_Capacity (r : RawMemory) : nat := capacity_ r.

(** [void Swap(RawMemory& other)]: the new [*this] and the new [other]. *)
Definition RawMemory_Swap (this other : RawMemory) : RawMemory * RawMemory :=
  (mkRawMemory (buffer_ other) (capacity_ other),
   mkRawMemory (buffer_ this) (capacity_ this)).

(** [T* operator+(size_t offset)] *)
Definition RawMemory_plus (r : RawMemory) (offset : nat) : M ptr :=
  assert (bool_decide (offset ≤ capacity_ r));;;
  ret (buffer_ r, offset).

(** [T& operator[](size_t index)] *)
Definition RawMemory_index (r : RawMemory) (index : nat) : M ptr :=
  assert (bool_decide (index < capacity_ r));;;
  ret (buffer_ r, index).

(** [~RawMemory()] *)
Definition RawMemory_dtor (r : RawMemory) : M unit := Deallocate (buffer_ r).

Definition get_raw (o : oid) : M RawMemory := λ w,
  match raws w !! o with Some r => Ok r w | None => UB end.
Definition set_raw (o : oid) (r : RawMemory) : M unit := λ w,
  Ok tt (World (heap w) (next_addr w) (copies w) (trace w) (<[o := r]> (raws w)) (vecs w)).

(** [RawMemory& operator=(RawMemory&& rhs)] on the objects named [this]
    and [rhs]. *)
Definition RawMemory_assign_move (this rhs : oid) : M unit :=
  if decide (this ≠ rhs) then
    do t ← get_raw this;
    Deallocate (buffer_ t);;;
    set_raw this (mkRawMemory (buffer_ t) 0);;;
    do t ← get_raw this;
    do r ← get_raw rhs;
    let '(t', r') := RawMemory_Swap t r in
    set_raw this t';;;
    set_raw rhs r'
  else ret tt.

(** Destruction of the free-standing object named [o]. *)
Definition RawMemory_destroy (o : oid) : M unit :=
  do r ← get_raw o;
  RawMemory_dtor r;;;
  λ w, Ok tt (World (heap w) (next_addr w) (copies w) (trace w) (delete o (raws w)) (vecs w)).

(** ** [Vector<T>] *)

Definition Size (v : Vector) : nat := size_ v.
Definition Capacity (v : Vector) : nat := RawMemory_Capacity (data_ v).

Definition begin_ (v : Vector) : ptr := RawMemory_GetAddress (data_ v).
Definition end_ (v : Vector) : ptr := RawMemory_GetAddress (data_ v) +ₚ size_ v.
Definition cbegin (v : Vector) : ptr := RawMemory_GetAddress (data_ v).
Definition cend (v : Vector) : ptr := RawMemory_GetAddress (data_ v) +ₚ size_ v.

(** [p - 1] for a pointer [p]; stepping before the start of the array is
    undefined. *)
Definition ptr_pred (p : ptr) : M ptr :=
  match p.2 with
  | 0 => undefined
  | S i => ret (p.1, i)
  end.

(** [for (size_t i = first; i < first + n; ++i) body(i)] *)
Fixpoint for_range (first n : nat) (body : nat → M unit) : M unit :=
  match n with
  | 0 => ret tt
  | S n' => body first;;; for_range (S first) n' body
  end.

(** [Vector() = default] *)
Definition Vector_default : Vector := mkVector RawMemory_default 0.

(** [Vector(size_t size)] *)
Definition Vector_ctor_size (size : nat) : M Vector :=
  do data ← RawMemory_ctor size;
  uninitialized_value_construct_n (RawMemory_GetAddress data) size;;;
  ret (mkVector data size).

(** [Vector(const Vector& other)]; when a copy throws, the member [data_]
    that is already constructed is destroyed. *)
Definition Vector_ctor_copy (other : Vector) : M Vector :=
  do data ← RawMemory_ctor (Size other);
  unwinding (RawMemory_dtor data)
    (uninitialized_copy_n (RawMemory_GetAddress (data_ other)) (Size other)
                          (RawMemory_GetAddress data));;;
  ret (mkVector data (Size other)).

(** [void Swap(Vector& other)]: the new [*this] and the new [other]. *)
Definition Swap (this other : Vector) : Vector * Vector :=
  let '(d, od) := RawMemory_Swap (data_ this) (data_ other) in
  (mkVector d (size_ other), mkVector od (size_ this)).

(** [Vector(Vector&& other)]: the new object and what is left of [other]. *)
Definition Vector_ctor_move (other : Vector) : Vector * Vector :=
  Swap Vector_default other.

(** [~Vector()], followed by the destructor of the member [data_]. *)
Definition Vector_dtor (v : Vector) : M unit :=
  destroy_n (RawMemory_GetAddress (data_ v)) (size_ v);;;
  RawMemory_dtor (data_ v).

Definition getv (o : oid) : M Vector := λ w,
  match vecs w !! o with Some v => Ok v w | None => UB end.
Definition setv (o : oid) (v : Vector) : M unit := λ w,
  Ok tt (World (heap w) (next_addr w) (copies w) (trace w) (raws w) (<[o := v]> (vecs w))).

(** [Vector& operator=(const Vector& rhs)] on the objects named [this]
    and [rhs]. *)
Definition Vector_assign_copy (this rhs : oid) : M unit :=
  if decide (this ≠ rhs) then
    do t ← getv this;
    do r ← getv rhs;
    if decide (RawMemory_Capacity (data_ t) < Size r) then
      do rhs_copy ← Vector_ctor_copy r;
      let '(t', rhs_copy') := Swap t rhs_copy in
      setv this t';;;
      Vector_dtor rhs_copy'
    else
      (if decide (Size r < size_ t) then
         do p ← RawMemory_plus (data_ t) (Size r);
         destroy_n p (size_ t - Size r)
       else
         do p ← RawMemory_plus (data_ r) (size_ t);
         uninitialized_copy_n p (Size r - size_ t)
                              (RawMemory_GetAddress (data_ t) +ₚ size_ t));;;
      copy_n (RawMemory_GetAddress (data_ r)) (Size r `min` size_ t)
             (RawMemory_GetAddress (data_ t));;;
      setv this (mkVector (data_ t) (Size r))
  else ret tt.

(** [Vector& operator=(Vector&& rhs)] on the objects named [this] and
    [rhs]. *)
Definition Vector_assign_move (this rhs : oid) : M unit :=
  if decide (this ≠ rhs) then
    do t ← getv this;
    do r ← getv rhs;
    if decide (RawMemory_Capacity (data_ t) < Size r) then
      let '(rhs_copy, r') := Vector_ctor_move r in
      setv rhs r';;;
      let '(t', rhs_copy') := Swap t rhs_copy in
      setv this t';;;
      Vector_dtor rhs_copy'
    else
      let '(t', r') := Swap t r in
      setv this t';;;
      setv rhs r'
  else ret tt.

Definition EmplaceWithoutReallocate (v : Vector) (pos : ptr) (args : ctor_args) : M unit :=
  do distance_to_emplace ← distance (cbegin v) pos;
  if decide (pos = end_ v) then
    do x ← make args;
    construct_at (end_ v) x
  else
    do temp_args ← make args;
    match size_ v with
    | 0 => undefined    (* [data_[size_ - 1]]: the index wraps and fails the assertion *)
    | S last =>
        do back ← RawMemory_index (data_ v) last;
        do y ← move_construct (InBuffer back);
        construct_at (end_ v) y;;;
        do n ← distance (begin_ v +ₚ distance_to_emplace) (buffer_ (data_ v), last);
        move_backward (begin_ v +ₚ distance_to_emplace) n (end_ v);;;
        do slot ← RawMemory_index (data_ v) distance_to_emplace;
        move_assign slot (External temp_args);;;
        emit EvDtor     (* [temp_args] goes out of scope *)
    end.

(** The relocation policy of the source's [if constexpr]. *)
Definition relocate_by_move : bool :=
  is_nothrow_move_constructible || negb is_copy_constructible.

(** Returns the vector with its new [data_]; [size_] is set by the caller. *)
Definition EmplaceWithReallocate (v : Vector) (pos : ptr) (args : ctor_args) : M Vector :=
  do distance_to_emplace ← distance (cbegin v) pos;
  do distance_to_end ← distance pos (cend v);
  do new_vec ← RawMemory_ctor (if decide (size_ v = 0) then 1 else size_ v * 2);
  unwinding (RawMemory_dtor new_vec)
    (do x ← make args;
     construct_at (RawMemory_GetAddress new_vec +ₚ distance_to_emplace) x;;;
     if relocate_by_move then
       uninitialized_move_n (begin_ v) distance_to_emplace (RawMemory_GetAddress new_vec);;;
       uninitialized_move_n (begin_ v +ₚ distance_to_emplace) distance_to_end
                            (RawMemory_GetAddress new_vec +ₚ distance_to_emplace +ₚ 1);;;
       destroy_n (begin_ v) (size_ v)
     else
       uninitialized_copy_n (begin_ v) distance_to_emplace (RawMemory_GetAddress new_vec);;;
       uninitialized_copy_n (begin_ v +ₚ distance_to_emplace) distance_to_end
                            (RawMemory_GetAddress new_vec +ₚ distance_to_emplace +ₚ 1);;;
       destroy_n (begin_ v) (size_ v));;;
  let '(data, new_vec') := RawMemory_Swap (data_ v) new_vec in
  RawMemory_dtor new_vec';;;
  ret (mkVector data (size_ v)).

Definition Emplace (v : Vector) (pos : ptr) (args : ctor_args) : M (Vector * ptr) :=
  do distance_to_emplace ← distance (cbegin v) pos;
  let new_size := size_ v + 1 in
  do v1 ← (if decide (new_size ≤ Capacity v)
           then EmplaceWithoutReallocate v pos args;;; ret v
           else EmplaceWithReallocate v pos args);
  let v2 := mkVector (data_ v1) new_size in
  ret (v2, begin_ v2 +ₚ distance_to_emplace).

(** [EmplaceBack] returns a reference to the new element. *)
Definition EmplaceBack (v : Vector) (args : ctor_args) : M (Vector * ptr) :=
  Emplace v (end_ v) args.

Definition Erase (v : Vector) (pos : ptr) : M (Vector * ptr) :=
  do pos_to_erase ← distance (cbegin v) pos;
  assert (bool_decide (size_ v ≠ 0));;;
  let new_size := size_ v - 1 in
  (if is_move_assignable then
     for_range pos_to_erase (new_size - pos_to_erase) (λ i,
       do dst ← RawMemory_index (data_ v) i;
       do src ← RawMemory_index (data_ v) (i + 1);
       move_assign dst (InBuffer src))
   else
     for_range pos_to_erase (new_size - pos_to_erase) (λ i,
       do dst ← RawMemory_index (data_ v) i;
       do src ← RawMemory_index (data_ v) (i + 1);
       copy_assign dst (InBuffer src)));;;
  do last ← ptr_pred (end_ v);
  destroy_at last;;;
  let v' := mkVector (data_ v) new_size in
  ret (v', begin_ v' +ₚ pos_to_erase).

(** [Insert(const_iterator, const T&)] *)
Definition Insert (v : Vector) (pos : ptr) (value : ref) : M (Vector * ptr) :=
  Emplace v pos (CopyOf value).

(** [Insert(const_iterator, T&&)] *)
Definition Insert_move (v : Vector) (pos : ptr) (value : ref) : M (Vector * ptr) :=
  Emplace v pos (MoveOf value).

Definition PopBack (v : Vector) : M Vector :=
  if decide (size_ v = 0) then ret v
  else
    destroy_at (buffer_ (data_ v), size_ v - 1);;;
    ret (mkVector (data_ v) (size_ v - 1)).

(** [PushBack(const T&)] *)
Definition PushBack (v : Vector) (value : ref) : M Vector :=
  let new_size := size_ v + 1 in
  do v1 ← (if decide (new_size ≤ Capacity v)
           then EmplaceWithoutReallocate v (end_ v) (CopyOf value);;; ret v
           else EmplaceWithReallocate v (end_ v) (CopyOf value));
  ret (mkVector (data_ v1) new_size).

(** [PushBack(T&&)] *)
Definition PushBack_move (v : Vector) (value : ref) : M Vector :=
  let new_size := size_ v + 1 in
  do v1 ← (if decide (new_size ≤ Capacity v)
           then EmplaceWithoutReallocate v (end_ v) (MoveOf value);;; ret v
           else EmplaceWithReallocate v (end_ v) (MoveOf value));
  ret (mkVector (data_ v1) new_size).

Definition Reserve (v : Vector) (new_capacity : nat) : M Vector :=
  if decide (new_capacity ≤ RawMemory_Capacity (data_ v)) then ret v
  else
    do new_raw_memory ← RawMemory_ctor new_capacity;
    unwinding (RawMemory_dtor new_raw_memory)
      (if relocate_by_move then
         uninitialized_move_n (RawMemory_GetAddress (data_ v)) (size_ v)
                              (RawMemory_GetAddress new_raw_memory);;;
         destroy_n (RawMemory_GetAddress (data_ v)) (size_ v)
       else
         uninitialized_copy_n (RawMemory_GetAddress (data_ v)) (size_ v)
                              (RawMemory_GetAddress new_raw_memory);;;
         destroy_n (RawMemory_GetAddress (data_ v)) (size_ v));;;
    let '(data, new_raw_memory') := RawMemory_Swap (data_ v) new_raw_memory in
    RawMemory_dtor new_raw_memory';;;
    ret (mkVector data (size_ v)).

Definition Resize (v : Vector) (new_size : nat) : M Vector :=
  do v1 ← (if decide (new_size < Capacity v) then
             (if decide (new_size < size_ v) then
                destroy_n (RawMemory_GetAddress (data_ v) +ₚ new_size) (size_ v - new_size)
              else
                uninitialized_value_construct_n (RawMemory_GetAddress (data_ v) +ₚ size_ v)
                                                (new_size - size_ v));;;
             ret v
           else
             do v' ← Reserve v new_size;
             uninitialized_value_construct_n (RawMemory_GetAddress (data_ v') +ₚ size_ v')
                                             (new_size - size_ v');;;
             ret v');
  ret (mkVector (data_ v1) new_size).

(** [T& operator[](size_t index)] *)
Definition Vector_index (v : Vector) (index : nat) : M ptr :=
  assert (bool_decide (index < size_ v));;;
  RawMemory_index (data_ v) index.

(** ** Vector objects in the store *)

(** A member function that updates [*this]. *)
Definition call (this : oid) (f : Vector → M Vector) : M unit :=
  do v ← getv this;
  do v' ← f v;
  setv this v'.

(** Definition of a new object named [o], initialised by [ctor]. *)
Definition declare (o : oid) (ctor : M Vector) : M unit := λ w,
  match vecs w !! o with
  | None => (do v ← ctor; setv o v) w
  | Some _ => UB
  end.

(** [Vector<T> o(std::move(other));] *)
Definition declare_moved (o other : oid) : M unit := λ w,
  match vecs w !! o with
  | None =>
      (do r ← getv other;
       let '(v, r') := Vector_ctor_move r in
       setv other r';;;
       setv o v) w
  | Some _ => UB
  end.

(** [a.Swap(b)] on the objects named [a] and [b]. *)
Definition Vector_Swap (a b : oid) : M unit :=
  do va ← getv a;
  do vb ← getv b;
  let '(va', vb') := Swap va vb in
  setv a va';;;
  setv b vb'.

(** The object named [o] goes out of scope. *)
Definition Vector_destroy (o : oid) : M unit :=
  do v ← getv o;
  Vector_dtor v;;;
  λ w, Ok tt (World (heap w) (next_addr w) (copies w) (trace w) (raws w) (delete o (vecs w))).

(** ** Calls of the public interface *)

(** The calls that insert one element; an iterator argument is given by
    its offset from [begin()]. *)
Inductive insertion :=
  | DoEmplace (pos : nat) (args : ctor_args)
  | DoEmplaceBack (args : ctor_args)
  | DoInsert (pos : nat) (value : ref)
  | DoInsertMove (pos : nat) (value : ref)
  | DoPushBack (value : ref)
  | DoPushBackMove (value : ref).

Definition insert (v : Vector) (i : insertion) : M Vector :=
  match i with
  | DoEmplace pos args => do r ← Emplace v (cbegin v +ₚ pos) args; ret r.1
  | DoEmplaceBack args => do r ← EmplaceBack v args; ret r.1
  | DoInsert pos value => do r ← Insert v (cbegin v +ₚ pos) value; ret r.1
  | DoInsertMove pos value => do r ← Insert_move v (cbegin v +ₚ pos) value; ret r.1
  | DoPushBack value => PushBack v value
  | DoPushBackMove value => PushBack_move v value
  end.

(** The constructor arguments of the new element, and its index. *)
Definition insertion_args (i : insertion) : ctor_args :=
  match i with
  | DoEmplace _ args | DoEmplaceBack args => args
  | DoInsert _ value | DoPushBack value => CopyOf value
  | DoInsertMove _ value | DoPushBackMove value => MoveOf value
  end.
Definition insertion_index (v : Vector) (i : insertion) : nat :=
  match i with
  | DoEmplace pos _ | DoInsert pos _ | DoInsertMove pos _ => pos
  | DoEmplaceBack _ | DoPushBack _ | DoPushBackMove _ => size_ v
  end.

(** The calls of the public interface on the vector objects of the store. *)
Inductive operation :=
  | OpInsertion (o : oid) (i : insertion)
  | OpErase (o : oid) (pos : nat)
  | OpPopBack (o : oid)
  | OpResize (o : oid) (new_size : nat)
  | OpReserve (o : oid) (new_capacity : nat)
  | OpAssignCopy (this rhs : oid)
  | OpAssignMove (this rhs : oid)
  | OpSwap (a b : oid).

Definition perform (op : operation) : M unit :=
  match op with
  | OpInsertion o i => call o (λ v, insert v i)
  | OpErase o pos => call o (λ v, do r ← Erase v (cbegin v +ₚ pos); ret r.1)
  | OpPopBack o => call o PopBack
  | OpResize o new_size => call o (λ v, Resize v new_size)
  | OpReserve o new_capacity => call o (λ v, Reserve v new_capacity)
  | OpAssignCopy this rhs => Vector_assign_copy this rhs
  | OpAssignMove this rhs => Vector_assign_move this rhs
  | OpSwap a b => Vector_Swap a b
  end.

Fixpoint perform_all (ops : list operation) : M unit :=
  match ops with
  | [] => ret tt
  | op :: ops' => perform op;;; perform_all ops'
  end.

(** The state before anything is allocated; address [0] is [nullptr]. *)
Definition initial : world := World ∅ 1 0 [] ∅ ∅.

(** ** Observations *)

(** The elements [v[0]], ..., [v[size-1]], when they are all live. *)
Definition contents (w : world) (v : Vector) : option (list T) :=
  mapM (λ i, slot_at w (buffer_ (data_ v), i) ≫= id) (seq 0 (size_ v)).

Definition contents_of (w : world) (o : oid) : option (list T) :=
  vecs w !! o ≫= contents w.
Definition size_of (w : world) (o : oid) : option nat := Size <$> vecs w !! o.
Definition capacity_of (w : world) (o : oid) : option nat := Capacity <$> vecs w !! o.

End Model.

Arguments world T : clear implicits.
Arguments outcome T A : clear implicits.
Arguments M T A : clear implicits.
Arguments Ok {T A} a w.
Arguments Throw {T A} w.
Arguments UB {T A}.
Arguments ref T : clear implicits.
Arguments ctor_args T : clear implicits.
Arguments External {T} x.
Arguments InBuffer {T} p.
Arguments CopyOf {T} r.
Arguments MoveOf {T} r.
Arguments insertion T : clear implicits.
Arguments operation T : clear implicits.
Arguments DoEmplace {T} pos args.
Arguments DoEmplaceBack {T} args.
Arguments DoInsert {T} pos value.
Arguments DoInsertMove {T} pos value.
Arguments DoPushBack {T} value.
Arguments DoPushBackMove {T} value.
Arguments OpInsertion {T} o i.
Arguments OpErase {T} o pos.
Arguments OpPopBack {T} o.
Arguments OpResize {T} o new_size.
Arguments OpReserve {T} o new_capacity.
Arguments OpAssignCopy {T} this rhs.
Arguments OpAssignMove {T} this rhs.
Arguments OpSwap {T} a b.

(** ** Specification vocabulary *)

Section Vocabulary.
Context {T : Type} `{!Element T}.

(** [wp m w Q E]: running [m] from [w] is defined; it returns into [Q]
    or throws into [E]. *)
Definition wp {A} (m : M T A) (w : world T)
    (Q : A → world T → Prop) (E : world T → Prop) : Prop :=
  match m w with
  | Ok a w' => Q a w'
  | Throw w' => E w'
  | UB => False
  end.

(** The vector [v] owns a buffer of [Capacity v] slots in the heap [h]
    whose first [Size v] slots hold the elements [xs] and whose other slots
    are raw storage; a vector of capacity 0 owns nothing. *)
Definition holds (h : gmap nat (list (option T))) (v : Vector) (xs : list T) : Prop :=
  size_ v = length xs ∧
  length xs ≤ capacity_ (data_ v) ∧
  if decide (capacity_ (data_ v) = 0) then buffer_ (data_ v) = null
  else buffer_ (data_ v) ≠ null ∧
       h !! buffer_ (data_ v) =
         Some ((Some <$> xs) ++ replicate (capacity_ (data_ v) - length xs) None).

(** Every allocation lies below [nx], [nx] is not [nullptr], and nothing
    is allocated at [nullptr]. *)
Definition fresh (h : gmap nat (list (option T))) (nx : nat) : Prop :=
  nx ≠ null ∧ h !! null = None ∧ map_Forall (λ a _, a < nx) h.

(** The copy constructor is invoked on objects of values [ys], in this
    order, starting at invocation number [c]: one of the calls throws,
    or none does. *)
Definition copies_throw (c : nat) (ys : list T) : Prop :=
  ∃ i y, ys !! i = Some y ∧ copy_throws (c + i) y = true.
Definition copies_quiet (c : nat) (ys : list T) : Prop :=
  ∀ i y, ys !! i = Some y → copy_throws (c + i) y = false.

(** No copy constructor call throws from invocation number [c] on. *)
Definition quiet_from (c : nat) : Prop :=
  ∀ k x, c ≤ k → copy_throws k x = false.

(** [arg_value h v args x]: in the heap [h], the arguments [args]
    construct an object of value [x] without touching the elements of [v]:
    a copy of any live object, or a move of an object that is not an
    element of [v]. *)
Inductive arg_value (h : gmap nat (list (option T))) (v : Vector) : ctor_args T → T → Prop :=
  | arg_copy_external x : arg_value h v (CopyOf (External x)) x
  | arg_move_external x : arg_value h v (MoveOf (External x)) x
  | arg_copy_live p x :
      slot_in h p = Some (Some x) →
      arg_value h v (CopyOf (InBuffer p)) x
  | arg_move_other p x :
      p.1 ≠ buffer_ (data_ v) →
      slot_in h p = Some (Some x) →
      arg_value h v (MoveOf (InBuffer p)) x.

(** The heap once the new element has been constructed from [args]: an
    object in a buffer that was moved from is left in its moved-from
    state. *)
Definition heap_after_make (args : ctor_args T) (h : gmap nat (list (option T))) :
    gmap nat (list (option T)) :=
  match args with
  | MoveOf (InBuffer p) =>
      match h !! p.1 with
      | Some b =>
          match b !! p.2 with
          | Some (Some x) => <[p.1 := <[p.2 := Some (moved_from x)]> b]> h
          | _ => h
          end
      | None => h
      end
  | _ => h
  end.

(** The objects that are copied to construct the new element, and to
    relocate the elements [xs]. *)
Definition copied_by_make (args : ctor_args T) (x : T) : list T :=
  match args with
  | CopyOf _ => [x]
  | MoveOf _ => []
  end.
Definition copied_by_relocation (xs : list T) : list T :=
  if relocate_by_move then [] else xs.

(** The constructor of [T] that [args] selects. *)
Definition ctor_event (args : ctor_args T) : event :=
  match args with
  | CopyOf _ => EvCopyCtor
  | MoveOf _ => EvMoveCtor
  end.

(** Any postcondition that does not look at the result. *)
Definition any {A} : A → Prop := λ _, True.

(** [steady m P]: [m] leaves the vector objects of the store alone,
    whether it returns or throws, and what it returns satisfies [P]. *)
Definition steady {A} (m : M T A) (P : A → Prop) : Prop :=
  ∀ w, match m w with
       | Ok a w' => vecs w' = vecs w ∧ P a
       | Throw w' => vecs w' = vecs w
       | UB => True
       end.

(** Every vector object of [w] is still there in [w'], with at least the
    capacity it had. *)
Definition capacities_kept (w w' : world T) : Prop :=
  ∀ o v, vecs w !! o = Some v → ∃ v', vecs w' !! o = Some v' ∧ Capacity v ≤ Capacity v'.

(** [keeps_capacities w0 m]: when [m] starts in a state that has kept
    the capacities of [w0], so has the state in which it returns or
    throws. *)
Definition keeps_capacities {A} (w0 : world T) (m : M T A) : Prop :=
  ∀ w, capacities_kept w0 w →
       match m w with
       | Ok _ w' | Throw w' => capacities_kept w0 w'
       | UB => True
       end.

(** The operations that hand a vector the buffer of another one. *)
Definition exchanges (op : operation T) : bool :=
  match op with
  | OpAssignMove _ _ | OpSwap _ _ => true
  | _ => false
  end.

(** The assignment of [T] with which [Erase] closes the gap. *)
Definition erase_event : event :=
  if is_move_assignable then EvMoveAssign else EvCopyAssign.

(** [never_throws m]: no exception leaves [m], which also invokes no copy
    constructor and allocates nothing. *)
Definition never_throws {A} (m : M T A) : Prop :=
  ∀ w, match m w with
       | Ok _ w' => copies w' = copies w ∧ next_addr w' = next_addr w
       | Throw _ => False
       | UB => True
       end.

(** The operations that work inside the buffers that exist. *)
Definition in_place (op : operation T) : bool :=
  match op with
  | OpErase _ _ | OpPopBack _ | OpAssignMove _ _ | OpSwap _ _ => true
  | _ => false
  end.

(** The capacity is the least power of two that is not below the size,
    or both are 0. *)
Definition geometric (size capacity : nat) : Prop :=
  (size = 0 ∧ capacity = 0) ∨
  (size ≤ capacity ∧ capacity < 2 * size ∧ ∃ j, capacity = 2 ^ j).

(** A store of vectors is consistent: the allocator is ahead of every
    allocation, every vector object owns its buffer with its elements in
    it, no buffer has two owners, and every allocation of the heap is the
    buffer of some vector. *)
Definition consistent (h : gmap nat (list (option T))) (nx : nat)
    (vs : gmap nat Vector) : Prop :=
  fresh h nx ∧
  (∀ o v, vs !! o = Some v → ∃ xs, holds h v xs) ∧
  (∀ o1 o2 v1 v2, vs !! o1 = Some v1 → vs !! o2 = Some v2 → o1 ≠ o2 →
     Capacity v1 ≠ 0 → buffer_ (data_ v1) ≠ buffer_ (data_ v2)) ∧
  (∀ a b, h !! a = Some b → ∃ o v, vs !! o = Some v ∧ buffer_ (data_ v) = a).

Definition well_formed (w : world T) : Prop :=
  consistent (heap w) (next_addr w) (vecs w).

End Vocabulary.

(** ** Sizes that the caller supplies *)

(** [sizeof(T)], by which [Allocate] multiplies the number of objects. *)
Class Sized (T : Type) := {
  sizeof : nat;
  sizeof_pos : 0 < sizeof;
}.

(** [sizeof(int)] *)
Definition int_Sized : Sized Z := {|
  sizeof := 4;
  sizeof_pos := Nat.lt_0_succ 3;
|}.

(** The functions that pass a size of the caller's to [Allocate], with the
    product [size * sizeof(T)] computed in [size_t]; the other functions
    are those of section [Model]. *)
Module Machine.
Section Sizes.
Context {T : Type} `{!Element T, !Sized T}.

Notation "'do' x ← m ; k" := (bind m (λ x, k))
  (at level 10, x name, m at level 100, k at level 200, only parsing).
Notation "'do' ' pat ← m ; k" := (bind m (λ x, match x with pat => k end))
  (at level 10, pat pattern, m at level 100, k at level 200, only parsing).
Notation "m ;;; k" := (bind m (λ _, k))
  (at level 100, k at level 200, right associativity, only parsing).

(** [size_t] has 64 bits. *)
Definition SIZE_MAX : Z := 2 ^ 64 - 1.

(** [size * sizeof(T)], the argument of [operator new]. *)
Definition bytes (size : nat) : Z :=
  ((Z.of_nat size * Z.of_nat sizeof) `mod` (SIZE_MAX + 1))%Z.

(** The number of objects of type [T] that a block of [bytes size] bytes
    has room for. *)
Definition slots (size : nat) : nat :=
  Z.to_nat (bytes size `div` Z.of_nat sizeof)%Z.

(** The product [size * sizeof(T)] does not wrap. *)
Definition fits (size : nat) : Prop :=
  (Z.of_nat size * Z.of_nat sizeof ≤ SIZE_MAX)%Z.

(** [operator new (size * sizeof(T))] for [size ≠ 0], [nullptr] otherwise;
    [operator new (0)] returns a block without room for any object. *)
Definition Allocate (size : nat) : M T addr := λ w,
  if decide (size = 0) then Ok null w
  else Ok (next_addr w)
          (World (<[next_addr w := replicate (slots size) None]> (heap w)) (S (next_addr w))
                 (copies w) (trace w) (raws w) (vecs w)).

(** [explicit RawMemory(size_t capacity)] *)
Definition RawMemory_ctor (capacity : nat) : M T RawMemory :=
  do b ← Allocate capacity; ret (mkRawMemory b capacity).

(** [Vector(size_t size)] *)
Definition Vector_ctor_size (size : nat) : M T Vector :=
  do data ← RawMemory_ctor size;
  uninitialized_value_construct_n (RawMemory_GetAddress data) size;;;
  ret (mkVector data size).

Definition Reserve (v : Vector) (new_capacity : nat) : M T Vector :=
  if decide (new_capacity ≤ RawMemory_Capacity (data_ v)) then ret v
  else
    do new_raw_memory ← RawMemory_ctor new_capacity;
    unwinding (RawMemory_dtor new_raw_memory)
      (if relocate_by_move then
         uninitialized_move_n (RawMemory_GetAddress (data_ v)) (size_ v)
                              (RawMemory_GetAddress new_raw_memory);;;
         destroy_n (RawMemory_GetAddress (data_ v)) (size_ v)
       else
         uninitialized_copy_n (RawMemory_GetAddress (data_ v)) (size_ v)
                              (RawMemory_GetAddress new_raw_memory);;;
         destroy_n (RawMemory_GetAddress (data_ v)) (size_ v));;;
    let '(data, new_raw_memory') := RawMemory_Swap (data_ v) new_raw_memory in
    RawMemory_dtor new_raw_memory';;;
    ret (mkVector data (size_ v)).

Definition Resize (v : Vector) (new_size : nat) : M T Vector :=
  do v1 ← (if decide (new_size < Capacity v) then
             (if decide (new_size < size_ v) then
                destroy_n (RawMemory_GetAddress (data_ v) +ₚ new_size) (size_ v - new_size)
              else
                uninitialized_value_construct_n (RawMemory_GetAddress (data_ v) +ₚ size_ v)
                                                (new_size - size_ v));;;
             ret v
           else
             do v' ← Reserve v new_size;
             uninitialized_value_construct_n (RawMemory_GetAddress (data_ v') +ₚ size_ v')
                                             (new_size - size_ v');;;
             ret v');
  ret (mkVector (data_ v1) new_size).

(** The calls of the public interface on the vector objects of the
    store. *)
Definition perform (op : operation T) : M T unit :=
  match op with
  | OpInsertion o i => call o (λ v, insert v i)
  | OpErase o pos => call o (λ v, do r ← Erase v (cbegin v +ₚ pos); ret r.1)
  | OpPopBack o => call o PopBack
  | OpResize o new_size => call o (λ v, Resize v new_size)
  | OpReserve o new_capacity => call o (λ v, Reserve v new_capacity)
  | OpAssignCopy this rhs => Vector_assign_copy this rhs
  | OpAssignMove this rhs => Vector_assign_move this rhs
  | OpSwap a b => Vector_Swap a b
  end.

Fixpoint perform_all (ops : list (operation T)) : M T unit :=
  match ops with
  | [] => ret tt
  | op :: ops' => perform op;;; perform_all ops'
  end.

(** The preconditions of a call: the objects exist, an iterator argument
    lies inside the vector, the argument of an insertion is a live object
    that is not moved out of the vector itself, and the byte size of a
    requested capacity does not wrap. *)
Definition valid (w : world T) (op : operation T) : Prop :=
  match op with
  | OpInsertion o i =>
      ∃ v, vecs w !! o = Some v ∧ insertion_index v i ≤ Size v ∧
           ∃ x, arg_value (heap w) v (insertion_args i) x
  | OpErase o pos => ∃ v, vecs w !! o = Some v ∧ pos < Size v
  | OpPopBack o => is_Some (vecs w !! o)
  | OpResize o n | OpReserve o n => is_Some (vecs w !! o) ∧ fits n
  | OpAssignCopy a b | OpAssignMove a b | OpSwap a b =>
      is_Some (vecs w !! a) ∧ is_Some (vecs w !! b)
  end.

(** Every call of the sequence is valid in the state in which it is
    made. *)
Fixpoint valid_all (ops : list (operation T)) (w : world T) : Prop :=
  match ops with
  | [] => True
  | op :: ops' =>
      valid w op ∧
      match perform op w with
      | Ok _ w' => valid_all ops' w'
      | _ => True
      end
  end.

End Sizes.
End Machine.

(** ** Concrete element types and states *)

(** An element type whose copy constructor throws on invocation number
    [k], whose move constructor is not [noexcept] (so that relocation
    copies), and whose moved-from objects read [0]. *)
Definition fragile_Element (k : nat) : Element Z := {|
  is_nothrow_move_constructible := false;
  is_copy_constructible := true;
  is_move_assignable := true;
  moved_from := λ _, 0%Z;
  value_init := 0%Z;
  copy_throws := λ n _, bool_decide (n = k);
|}.

(** One default-constructed vector, named [0]. *)
Definition one_empty_vector : world Z :=
  World ∅ 1 0 [] ∅ {[0 := Vector_default]}.

(** The vector [0] holds [1, 2, 3] in a buffer of capacity 4. *)
Definition three_of_four : world Z :=
  World {[3 := [Some 1%Z; Some 2%Z; Some 3%Z; None]]} 4 0 [] ∅
        {[0 := mkVector (mkRawMemory 3 4) 3]}.

(** The vector [0] holds [5, 6] and is full. *)
Definition two_of_two : world Z :=
  World {[1 := [Some 5%Z; Some 6%Z]]} 2 0 [] ∅
        {[0 := mkVector (mkRawMemory 1 2) 2]}.

(** The vector [0] holds [7], the vector [1] holds [1]; both are full. *)
Definition two_vectors : world Z :=
  World (<[1 := [Some 7%Z]]> {[2 := [Some 1%Z]]}) 3 0 [] ∅
        (<[0 := mkVector (mkRawMemory 1 1) 1]> {[1 := mkVector (mkRawMemory 2 1) 1]}).

(** The vector [0] is empty with capacity 4, the vector [1] holds [1] and
    is full. *)
Definition roomy_and_small : world Z :=
  World (<[1 := [None; None; None; None]]> {[2 := [Some 1%Z]]}) 3 0 [] ∅
        (<[0 := mkVector (mkRawMemory 1 4) 0]> {[1 := mkVector (mkRawMemory 2 1) 1]}).

(** Two [RawMemory] objects: [0] owns 2 slots, [1] owns 3 slots. *)
Definition two_raws : world Z :=
  World (<[1 := [None; None]]> {[2 := [None; None; None]]}) 3 0 []
        (<[0 := mkRawMemory 1 2]> {[1 := mkRawMemory 2 3]}) ∅.

(** A default-constructed [RawMemory], named [0], and one that owns 3
    slots, named [1]. *)
Definition empty_and_full_raw : world Z :=
  World {[2 := [None; None; None]]} 3 0 []
        (<[0 := RawMemory_default]> {[1 := mkRawMemory 2 3]}) ∅.

(** * Proofs *)

Section Proofs.
Context {T : Type} `{!Element T, !Sized T}.
Implicit Types (w : world T) (v : Vector) (xs ys : list T) (p : nat * nat).
Implicit Types (h : gmap nat (list (option T))) (b : list (option T)).

(** ** Rules of the monad *)

Lemma wp_ret {A} (a : A) w Q E : Q a w → wp (ret a) w Q E.
Proof. done. Qed.

Lemma wp_bind {A B} (m : M T A) (f : A → M T B) w Q E :
  wp m w (λ a w', wp (f a) w' Q E) E → wp (bind m f) w Q E.
Proof. unfold wp, bind. by destruct (m w). Qed.

Lemma wp_unwinding {A} (cleanup : M T unit) (m : M T A) w Q E :
  wp m w Q (λ w', wp cleanup w' (λ _ w'', E w'') (λ _, False)) →
  wp (unwinding cleanup m) w Q E.
Proof.
  unfold wp, unwinding. destruct (m w) as [a w'|w'|]; [done| |done].
  by destruct (cleanup w').
Qed.

Lemma wp_assert (c : bool) w Q E : c = true → Q () w → wp (assert c) w Q E.
Proof. by intros ->. Qed.

(** ** Raw storage *)

Lemma wp_emit e h nx c tr rs vs Q E :
  Q () (World h nx c (tr ++ [e]) rs vs) → wp (emit e) (World h nx c tr rs vs) Q E.
Proof. done. Qed.

Lemma wp_put a i s b h nx c tr rs vs Q E :
  h !! a = Some b → i < length b →
  Q () (World (<[a := <[i := s]> b]> h) nx c tr rs vs) →
  wp (put (a, i) s) (World h nx c tr rs vs) Q E.
Proof.
  intros Hb Hi HQ. unfold wp, put; simpl. rewrite Hb.
  by rewrite decide_True.
Qed.

Lemma wp_load a i x b h nx c tr rs vs Q E :
  h !! a = Some b → b !! i = Some (Some x) →
  Q x (World h nx c tr rs vs) →
  wp (load (a, i)) (World h nx c tr rs vs) Q E.
Proof.
  intros Hb Hi HQ. unfold wp, load, slot_at, slot_in; simpl. by rewrite Hb; simpl; rewrite Hi.
Qed.

Lemma wp_construct_at a i x b h nx c tr rs vs Q E :
  h !! a = Some b → b !! i = Some None →
  Q () (World (<[a := <[i := Some x]> b]> h) nx c tr rs vs) →
  wp (construct_at (a, i) x) (World h nx c tr rs vs) Q E.
Proof.
  intros Hb Hi HQ. unfold wp, construct_at, slot_at, slot_in; simpl.
  rewrite Hb; simpl; rewrite Hi.
  eapply (wp_put a i); eauto using lookup_lt_Some.
Qed.

Lemma wp_assign_at a i x y b h nx c tr rs vs Q E :
  h !! a = Some b → b !! i = Some (Some y) →
  Q () (World (<[a := <[i := Some x]> b]> h) nx c tr rs vs) →
  wp (assign_at (a, i) x) (World h nx c tr rs vs) Q E.
Proof.
  intros Hb Hi HQ. apply wp_bind. eapply wp_load; eauto.
  eapply wp_put; eauto using lookup_lt_Some.
Qed.

Lemma wp_destroy_at a i y b h nx c tr rs vs Q E :
  h !! a = Some b → b !! i = Some (Some y) →
  Q () (World (<[a := <[i := None]> b]> h) nx c (tr ++ [EvDtor]) rs vs) →
  wp (destroy_at (a, i)) (World h nx c tr rs vs) Q E.
Proof.
  intros Hb Hi HQ. apply wp_bind. eapply wp_load; eauto.
  apply wp_bind. eapply wp_put; eauto using lookup_lt_Some.
Qed.

Lemma wp_Allocate n h nx c tr rs vs Q E :
  n ≠ 0 →
  Q nx (World (<[nx := replicate n None]> h) (S nx) c tr rs vs) →
  wp (Allocate n) (World h nx c tr rs vs) Q E.
Proof. intros Hn HQ. unfold wp, Allocate; simpl. by rewrite decide_False. Qed.

Lemma wp_Deallocate a b h nx c tr rs vs Q E :
  a ≠ null → h !! a = Some b →
  Q () (World (delete a h) nx c tr rs vs) →
  wp (Deallocate a) (World h nx c tr rs vs) Q E.
Proof.
  intros Ha Hb HQ. unfold wp, Deallocate; simpl.
  rewrite decide_False by done. by rewrite Hb.
Qed.

Lemma wp_Deallocate_null w Q E : Q () w → wp (Deallocate null) w Q E.
Proof. done. Qed.


(** ** Lists of slots and heaps *)

Lemma lookup_mid {A} (l1 l2 : list A) x i :
  length l1 = i → (l1 ++ x :: l2) !! i = Some x.
Proof. intros <-. by apply list_lookup_middle. Qed.

Lemma insert_mid {A} (l1 l2 : list A) x y i :
  length l1 = i → <[i := y]> (l1 ++ x :: l2) = l1 ++ y :: l2.
Proof.
  intros <-. rewrite insert_app_r_alt by lia.
  by rewrite Nat.sub_diag.
Qed.

Lemma insert_pair_again {V} (m : gmap nat V) a d A1 D1 A2 D2 :
  a ≠ d →
  <[d := D2]> (<[a := A2]> (<[d := D1]> (<[a := A1]> m))) = <[d := D2]> (<[a := A2]> m).
Proof.
  intros Hne. apply map_eq. intros k.
  rewrite !lookup_insert. repeat case_decide; congruence.
Qed.

Lemma post_eq (P : world T → Prop) w w' : P w → w = w' → P w'.
Proof. by intros ? <-. Qed.

(** ** Operations of [T] *)

Lemma wp_move_construct_buf a i x b h nx c tr rs vs Q E :
  h !! a = Some b → b !! i = Some (Some x) →
  Q x (World (<[a := <[i := Some (moved_from x)]> b]> h) nx c (tr ++ [EvMoveCtor]) rs vs) →
  wp (move_construct (InBuffer (a, i))) (World h nx c tr rs vs) Q E.
Proof.
  intros Hb Hi HQ. apply wp_bind; simpl. eapply wp_load; eauto.
  apply wp_bind; simpl. eapply wp_put; [done|eauto using lookup_lt_Some|].
  by apply wp_bind, wp_emit, wp_ret.
Qed.

Lemma wp_move_construct_ext x w Q E :
  Q x (World (heap w) (next_addr w) (copies w) (trace w ++ [EvMoveCtor]) (raws w) (vecs w)) →
  wp (move_construct (External x)) w Q E.
Proof. done. Qed.

Lemma copy_construct_buf a i x b h nx c tr rs vs :
  h !! a = Some b → b !! i = Some (Some x) →
  copy_construct (InBuffer (a, i)) (World h nx c tr rs vs) =
    if copy_throws c x then Throw (World h nx (S c) tr rs vs)
    else Ok x (World h nx (S c) (tr ++ [EvCopyCtor]) rs vs).
Proof.
  intros Hb Hi. unfold copy_construct, bind, read, load, slot_at, slot_in, enter_copy; simpl.
  rewrite Hb; simpl; rewrite Hi; simpl.
  by destruct (copy_throws c x).
Qed.

Lemma copy_construct_ext x h nx c tr rs vs :
  copy_construct (External x) (World h nx c tr rs vs) =
    if copy_throws c x then Throw (World h nx (S c) tr rs vs)
    else Ok x (World h nx (S c) (tr ++ [EvCopyCtor]) rs vs).
Proof.
  unfold copy_construct, bind, read, enter_copy; simpl.
  by destruct (copy_throws c x).
Qed.

Lemma wp_move_assign_ext a i x y b h nx c tr rs vs Q E :
  h !! a = Some b → b !! i = Some (Some y) →
  Q () (World (<[a := <[i := Some x]> b]> h) nx c (tr ++ [EvMoveAssign]) rs vs) →
  wp (move_assign (a, i) (External x)) (World h nx c tr rs vs) Q E.
Proof.
  intros Hb Hi HQ. apply wp_bind, wp_ret, wp_bind, wp_ret, wp_bind.
  eapply wp_assign_at; eauto.
Qed.

Lemma wp_move_assign_buf a i j x y b h nx c tr rs vs Q E :
  h !! a = Some b → b !! j = Some (Some x) → b !! i = Some (Some y) → i ≠ j →
  Q () (World (<[a := <[i := Some x]> (<[j := Some (moved_from x)]> b)]> h)
              nx c (tr ++ [EvMoveAssign]) rs vs) →
  wp (move_assign (a, i) (InBuffer (a, j))) (World h nx c tr rs vs) Q E.
Proof.
  intros Hb Hj Hi Hne HQ. apply wp_bind; simpl. eapply wp_load; eauto.
  apply wp_bind; simpl. eapply wp_put; [done|eauto using lookup_lt_Some|].
  apply wp_bind. eapply wp_assign_at.
  - apply lookup_insert_eq.
  - rewrite list_lookup_insert_ne by done. exact Hi.
  - rewrite insert_insert_eq. by apply wp_emit.
Qed.

(** ** Standard algorithms *)

Lemma wp_destroy_n xs : ∀ a i pre post h nx c tr rs vs Q E,
  h !! a = Some (pre ++ (Some <$> xs) ++ post) → length pre = i →
  Q () (World (<[a := pre ++ replicate (length xs) None ++ post]> h) nx c
              (tr ++ replicate (length xs) EvDtor) rs vs) →
  wp (destroy_n (a, i) (length xs)) (World h nx c tr rs vs) Q E.
Proof.
  induction xs as [|x xs IH]; intros a i pre post h nx c tr rs vs Q E Hb Hi HQ; simpl in *.
  - apply wp_ret. rewrite app_nil_r in HQ. by rewrite insert_id in HQ.
  - apply wp_bind. eapply wp_destroy_at; [done|by apply lookup_mid|].
    rewrite insert_mid by done. unfold ptr_add; simpl.
    eapply (IH a (i + 1) (pre ++ [None]) post).
    + rewrite lookup_insert_eq. by rewrite <- app_assoc.
    + rewrite length_app; simpl; lia.
    + eapply post_eq; [exact HQ|].
      rewrite insert_insert_eq. by rewrite <- !app_assoc.
Qed.

Lemma wp_uninitialized_move_n xs : ∀ a i d j pre post dpre dpost h nx c tr rs vs Q E,
  a ≠ d →
  h !! a = Some (pre ++ (Some <$> xs) ++ post) → length pre = i →
  h !! d = Some (dpre ++ replicate (length xs) None ++ dpost) → length dpre = j →
  Q () (World (<[d := dpre ++ (Some <$> xs) ++ dpost]>
                 (<[a := pre ++ (Some <$> (moved_from <$> xs)) ++ post]> h))
              nx c (tr ++ replicate (length xs) EvMoveCtor) rs vs) →
  wp (uninitialized_move_n (a, i) (length xs) (d, j)) (World h nx c tr rs vs) Q E.
Proof.
  induction xs as [|x xs IH];
    intros a i d j pre post dpre dpost h nx c tr rs vs Q E Hne Ha Hi Hd Hj HQ; simpl in *.
  - apply wp_ret. rewrite app_nil_r in HQ.
    rewrite (insert_id h a) in HQ by done. by rewrite insert_id in HQ.
  - apply wp_bind. eapply wp_move_construct_buf; [done|by apply lookup_mid|].
    rewrite insert_mid by done.
    apply wp_bind. eapply wp_construct_at.
    { rewrite lookup_insert_ne by done. exact Hd. }
    { by apply lookup_mid. }
    rewrite insert_mid by done. unfold ptr_add; simpl.
    eapply (IH a (i + 1) d (j + 1) (pre ++ [Some (moved_from x)]) post (dpre ++ [Some x]) dpost).
    + done.
    + rewrite lookup_insert_ne by done. rewrite lookup_insert_eq. by rewrite <- app_assoc.
    + rewrite length_app; simpl; lia.
    + rewrite lookup_insert_eq. by rewrite <- app_assoc.
    + rewrite length_app; simpl; lia.
    + eapply post_eq; [exact HQ|].
      rewrite insert_pair_again by done. by rewrite <- !app_assoc.
Qed.

Lemma copies_throw_here c x xs : copy_throws c x = true → copies_throw c (x :: xs).
Proof. intros Hx. exists 0, x. by rewrite Nat.add_0_r. Qed.

Lemma copies_throw_later c x xs : copies_throw (S c) xs → copies_throw c (x :: xs).
Proof.
  intros (i & y & Hi & Hy). exists (S i), y. split; [done|].
  by replace (c + S i) with (S c + i) by lia.
Qed.

Lemma copies_quiet_cons c x xs :
  copy_throws c x = false → copies_quiet (S c) xs → copies_quiet c (x :: xs).
Proof.
  intros Hx Hq [|i] y Hi; simpl in Hi.
  - injection Hi as <-. by rewrite Nat.add_0_r.
  - replace (c + S i) with (S c + i) by lia. by apply Hq.
Qed.

Lemma copies_quiet_nil c : copies_quiet c [].
Proof. by intros ? ? ?. Qed.

Lemma copies_quiet_app c xs ys :
  copies_quiet c xs → copies_quiet (c + length xs) ys → copies_quiet c (xs ++ ys).
Proof.
  intros Hx Hy i y Hi. apply lookup_app_Some in Hi as [Hi|[Hle Hi]].
  - by apply Hx.
  - replace (c + i) with (c + length xs + (i - length xs)) by lia. by apply Hy.
Qed.

Lemma copies_throw_app_l c xs ys : copies_throw c xs → copies_throw c (xs ++ ys).
Proof.
  intros (i & y & Hi & Hy). exists i, y. split; [|done].
  by apply lookup_app_l_Some.
Qed.

Lemma copies_throw_app_r c xs ys :
  copies_throw (c + length xs) ys → copies_throw c (xs ++ ys).
Proof.
  intros (i & y & Hi & Hy). exists (length xs + i), y. split.
  - rewrite lookup_app_r by lia. by replace (length xs + i - length xs) with i by lia.
  - by rewrite Nat.add_assoc.
Qed.

Lemma copies_quiet_take_drop c d xs :
  d ≤ length xs →
  copies_quiet c (take d xs) → copies_quiet (c + d) (drop d xs) → copies_quiet c xs.
Proof.
  intros Hd H1 H2. rewrite <- (take_drop d xs). apply copies_quiet_app; [done|].
  by rewrite length_take_le.
Qed.

Lemma copies_throw_take c d xs : copies_throw c (take d xs) → copies_throw c xs.
Proof. intros H. rewrite <- (take_drop d xs). by apply copies_throw_app_l. Qed.

Lemma copies_throw_drop c d xs :
  d ≤ length xs → copies_throw (c + d) (drop d xs) → copies_throw c xs.
Proof.
  intros Hd H. rewrite <- (take_drop d xs). apply copies_throw_app_r.
  by rewrite length_take_le.
Qed.

Lemma copies_quiet_from c xs : quiet_from c → copies_quiet c xs.
Proof. intros Hq i y _. apply Hq. lia. Qed.

Lemma copies_throw_quiet c xs : copies_quiet c xs → ¬ copies_throw c xs.
Proof. intros Hq (i & y & Hi & Hy). by rewrite (Hq i y Hi) in Hy. Qed.

(** [uninitialized_copy_n] either fills the destination, or throws and
    leaves the destination raw again; the source is never modified. *)
Lemma wp_uninitialized_copy_loop xs : ∀ ys a i d j pre post dpre dpost h nx c tr rs vs Q E,
  a ≠ d →
  h !! a = Some (pre ++ (Some <$> xs) ++ post) → length pre = i + length ys →
  h !! d = Some (dpre ++ (Some <$> ys) ++ replicate (length xs) None ++ dpost) →
  length dpre = j →
  (copies_quiet c xs →
   Q () (World (<[d := dpre ++ (Some <$> ys ++ xs) ++ dpost]> h)
               nx (c + length xs) (tr ++ replicate (length xs) EvCopyCtor) rs vs)) →
  (copies_throw c xs → ∀ c' tr',
     E (World (<[d := dpre ++ replicate (length ys + length xs) None ++ dpost]> h)
              nx c' tr' rs vs)) →
  wp (uninitialized_copy_loop (a, i + length ys) (length xs) (d, j) (length ys))
     (World h nx c tr rs vs) Q E.
Proof.
  induction xs as [|x xs IH];
    intros ys a i d j pre post dpre dpost h nx c tr rs vs Q E Hne Ha Hi Hd Hj HQ HE;
    simpl in *.
  - apply wp_ret. eapply post_eq; [apply HQ, copies_quiet_nil|].
    rewrite !app_nil_r, Nat.add_0_r. by rewrite insert_id.
  - unfold wp.
    rewrite (copy_construct_buf a (i + length ys) x _ _ _ _ _ _ _ Ha (lookup_mid _ _ _ _ Hi)).
    destruct (copy_throws c x) eqn:Hthrow.
    + (* the copy throws: the objects built so far are destroyed *)
      assert (wp (destroy_n (d, j) (length ys)) (World h nx (S c) tr rs vs)
                 (λ _ w2, E w2) (λ _, False)) as Hdes.
      { eapply (wp_destroy_n ys d j dpre (None :: replicate (length xs) None ++ dpost));
          [exact Hd|done|].
        eapply post_eq; [apply (HE (copies_throw_here _ _ _ Hthrow))|].
        f_equal. f_equal. f_equal. by rewrite replicate_add, <- app_assoc. }
      unfold wp in Hdes. by destruct (destroy_n _ _ _).
    + fold (wp (bind (construct_at ((d, j) +ₚ length ys) x)
                 (λ _, uninitialized_copy_loop ((a, i + length ys) +ₚ 1) (length xs) (d, j)
                         (S (length ys))))
               (World h nx (S c) (tr ++ [EvCopyCtor]) rs vs) Q E).
      apply wp_bind. unfold ptr_add; simpl. eapply wp_construct_at.
      { exact Hd. }
      { rewrite app_assoc. apply lookup_mid. rewrite length_app, length_fmap. lia. }
      rewrite app_assoc, insert_mid by (rewrite length_app, length_fmap; lia).
      replace (i + length ys + 1) with (i + length (ys ++ [x]))
        by (rewrite length_app; simpl; lia).
      replace (S (length ys)) with (length (ys ++ [x]))
        by (rewrite length_app; simpl; lia).
      eapply (IH (ys ++ [x]) a i d j (pre ++ [Some x]) post dpre dpost).
      * done.
      * rewrite lookup_insert_ne by done. by rewrite <- app_assoc.
      * rewrite !length_app; simpl. lia.
      * rewrite lookup_insert_eq. by rewrite fmap_app, <- !app_assoc.
      * done.
      * intros Hq. eapply post_eq; [apply (HQ (copies_quiet_cons _ _ _ Hthrow Hq))|].
        rewrite insert_insert_eq. rewrite <- !app_assoc. simpl.
        f_equal. lia.
      * intros Hth c' tr'. eapply post_eq; [apply (HE (copies_throw_later _ _ _ Hth) c' tr')|].
        rewrite insert_insert_eq. rewrite length_app; simpl.
        by replace (length ys + 1 + length xs) with (length ys + S (length xs)) by lia.
Qed.

Lemma wp_uninitialized_copy_n xs a i d j pre post dpre dpost h nx c tr rs vs Q E :
  a ≠ d →
  h !! a = Some (pre ++ (Some <$> xs) ++ post) → length pre = i →
  h !! d = Some (dpre ++ replicate (length xs) None ++ dpost) → length dpre = j →
  (copies_quiet c xs →
   Q () (World (<[d := dpre ++ (Some <$> xs) ++ dpost]> h)
               nx (c + length xs) (tr ++ replicate (length xs) EvCopyCtor) rs vs)) →
  (copies_throw c xs → ∀ c' tr', E (World h nx c' tr' rs vs)) →
  wp (uninitialized_copy_n (a, i) (length xs) (d, j)) (World h nx c tr rs vs) Q E.
Proof.
  intros Hne Ha Hi Hd Hj HQ HE. unfold uninitialized_copy_n.
  replace i with (i + length (@nil T)) by (simpl; lia).
  eapply (wp_uninitialized_copy_loop xs [] a i d j pre post dpre dpost); try done.
  - simpl; lia.
  - intros Hth c' tr'. eapply post_eq; [apply (HE Hth c' tr')|].
    simpl. by rewrite insert_id.
Qed.

Lemma snoc_assoc {A} (l1 l2 : list A) x : l1 ++ x :: l2 = (l1 ++ [x]) ++ l2.
Proof. by rewrite <- app_assoc. Qed.

(** [move_backward] shifts a run of live objects one slot to the right,
    over the live object that follows the run; the first slot of the run
    is left holding some moved-from object. *)
Lemma wp_move_backward mid : ∀ a i z pre post h nx c tr rs vs Q E,
  h !! a = Some (pre ++ (Some <$> mid) ++ Some z :: post) → length pre = i →
  (∀ z', Q () (World (<[a := pre ++ Some z' :: (Some <$> mid) ++ post]> h) nx c
                     (tr ++ replicate (length mid) EvMoveAssign) rs vs)) →
  wp (move_backward (a, i) (length mid) (a, i + length mid + 1))
     (World h nx c tr rs vs) Q E.
Proof.
  induction mid as [|y mid IH] using rev_ind; intros a i z pre post h nx c tr rs vs Q E Hb Hi HQ.
  - apply wp_ret. eapply post_eq; [apply (HQ z)|].
    simpl. rewrite app_nil_r. by rewrite insert_id.
  - assert (h !! a = Some ((pre ++ (Some <$> mid)) ++ Some y :: Some z :: post)) as Hb'.
    { rewrite Hb. f_equal. rewrite fmap_app. by rewrite <- !app_assoc. }
    assert (length (pre ++ (Some <$> mid)) = i + length mid) as Hlen.
    { rewrite length_app, length_fmap. lia. }
    replace (i + length (mid ++ [y]) + 1) with (S (i + length mid + 1))
      by (rewrite length_app; simpl; lia).
    replace (length (mid ++ [y])) with (S (length mid)) at 1
      by (rewrite length_app; simpl; lia).
    simpl. apply wp_bind. unfold ptr_add; simpl.
    eapply (wp_move_assign_buf a (i + length mid + 1) (i + length mid) y z).
    + exact Hb'.
    + by apply lookup_mid.
    + rewrite (snoc_assoc _ _ (Some y)). apply lookup_mid.
      rewrite length_app; simpl. lia.
    + lia.
    + rewrite insert_mid by done.
      rewrite (snoc_assoc _ _ (Some (moved_from y))).
      rewrite insert_mid by (rewrite length_app; simpl; lia).
      eapply (IH a i (moved_from y) pre (Some y :: post)).
      * rewrite lookup_insert_eq. by rewrite <- !app_assoc.
      * done.
      * intros z'. eapply post_eq; [apply (HQ z')|].
        rewrite insert_insert_eq, fmap_app, length_app. simpl.
        rewrite Nat.add_1_r. simpl. by rewrite <- !app_assoc.
Qed.

Lemma wp_distance a i j w Q E :
  i ≤ j → Q (j - i) w → wp (distance (a, i) (a, j)) w Q E.
Proof. intros Hle HQ. unfold distance; simpl. by rewrite decide_True. Qed.

Lemma wp_RawMemory_index r k w Q E :
  k < capacity_ r → Q (buffer_ r, k) w → wp (RawMemory_index r k) w Q E.
Proof.
  intros Hk HQ. apply wp_bind, wp_assert; [by apply bool_decide_eq_true_2|done].
Qed.

Lemma wp_RawMemory_ctor n h nx c tr rs vs Q E :
  n ≠ 0 →
  Q (mkRawMemory nx n) (World (<[nx := replicate n None]> h) (S nx) c tr rs vs) →
  wp (RawMemory_ctor n) (World h nx c tr rs vs) Q E.
Proof. intros Hn HQ. apply wp_bind. by apply wp_Allocate. Qed.

(** ** The constructor arguments of an emplace *)

Lemma slot_in_Some h p s :
  slot_in h p = Some s ↔ ∃ b, h !! p.1 = Some b ∧ b !! p.2 = Some s.
Proof.
  unfold slot_in. destruct (h !! p.1) as [b|]; simpl.
  - split; [eauto|]. by intros (? & [= <-] & ?).
  - split; [done|]. by intros (? & [=] & ?).
Qed.

Lemma heap_after_make_copied args x h :
  copied_by_make args x ≠ [] → heap_after_make args h = h.
Proof. by destruct args. Qed.

Lemma heap_after_make_lookup_ne h v args x k :
  arg_value h v args x → (k = buffer_ (data_ v) ∨ h !! k = None) →
  heap_after_make args h !! k = h !! k.
Proof.
  intros Harg Hk. destruct Harg as [x|x|p x Hp|p x Hne Hp]; try done.
  apply slot_in_Some in Hp as (b & Hb & Hs). simpl. rewrite Hb, Hs.
  apply lookup_insert_ne. destruct Hk; congruence.
Qed.

Lemma heap_after_make_insert h v args x k R :
  arg_value h v args x → h !! k = None →
  heap_after_make args (<[k := R]> h) = <[k := R]> (heap_after_make args h).
Proof.
  intros Harg Hk. destruct Harg as [x|x|p x Hp|p x Hne Hp]; try done.
  apply slot_in_Some in Hp as (b & Hb & Hs). simpl.
  assert (p.1 ≠ k) by congruence.
  rewrite lookup_insert_ne, Hb, Hs by done. by apply insert_insert_ne.
Qed.

Lemma arg_value_insert h v args x k R :
  arg_value h v args x → h !! k = None → arg_value (<[k := R]> h) v args x.
Proof.
  intros Harg Hk. destruct Harg as [x|x|p x Hp|p x Hne Hp]; constructor; try done.
  all: apply slot_in_Some in Hp as (b & Hb & Hs); apply slot_in_Some; exists b;
    (split; [|done]); rewrite lookup_insert_ne; [done|congruence].
Qed.

Lemma wp_make h v args x nx c tr rs vs Q E :
  arg_value h v args x →
  (copies_quiet c (copied_by_make args x) →
   Q x (World (heap_after_make args h) nx (c + length (copied_by_make args x))
              (tr ++ [ctor_event args]) rs vs)) →
  (copies_throw c (copied_by_make args x) → ∀ c' tr', E (World h nx c' tr' rs vs)) →
  wp (make args) (World h nx c tr rs vs) Q E.
Proof.
  intros Harg HQ HE. destruct Harg as [x|x|p x Hp|p x Hne Hp]; simpl in *.
  - unfold wp. rewrite copy_construct_ext. destruct (copy_throws c x) eqn:Hthrow.
    + by apply HE, copies_throw_here.
    + eapply post_eq; [apply HQ|by rewrite Nat.add_1_r].
      by apply copies_quiet_cons, copies_quiet_nil.
  - apply wp_move_construct_ext. simpl.
    eapply post_eq; [apply HQ, copies_quiet_nil|by rewrite Nat.add_0_r].
  - unfold wp. apply slot_in_Some in Hp as (b & Hb & Hs). destruct p as [pa pi].
    rewrite (copy_construct_buf _ _ x _ _ _ _ _ _ _ Hb Hs).
    destruct (copy_throws c x) eqn:Hthrow.
    + by apply HE, copies_throw_here.
    + eapply post_eq; [apply HQ|by rewrite Nat.add_1_r].
      by apply copies_quiet_cons, copies_quiet_nil.
  - apply slot_in_Some in Hp as (b & Hb & Hs). destruct p as [pa pi]. simpl in *.
    rewrite Hb, Hs in HQ.
    eapply wp_move_construct_buf; [done|done|].
    eapply post_eq; [apply HQ, copies_quiet_nil|by rewrite Nat.add_0_r].
Qed.

(** An element of [v] is a live object of the heap. *)
Lemma holds_slot h v xs k x :
  holds h v xs → xs !! k = Some x → slot_in h (buffer_ (data_ v), k) = Some (Some x).
Proof.
  intros (Hsz & Hle & Hblk) Hk. apply lookup_lt_Some in Hk as Hlt.
  rewrite decide_False in Hblk by lia. destruct Hblk as [_ Hb].
  apply slot_in_Some. eexists; split; [exact Hb|]. simpl.
  rewrite lookup_app_l by (by rewrite length_fmap).
  by rewrite list_lookup_fmap, Hk.
Qed.

(** The same rules with the count given separately from the list. *)

Lemma wp_destroy_n_len n xs a i pre post h nx c tr rs vs Q E :
  length xs = n →
  h !! a = Some (pre ++ (Some <$> xs) ++ post) → length pre = i →
  Q () (World (<[a := pre ++ replicate n None ++ post]> h) nx c
              (tr ++ replicate n EvDtor) rs vs) →
  wp (destroy_n (a, i) n) (World h nx c tr rs vs) Q E.
Proof. intros <-. apply wp_destroy_n. Qed.

Lemma wp_uninitialized_move_n_len n xs a i d j pre post dpre dpost h nx c tr rs vs Q E :
  length xs = n → a ≠ d →
  h !! a = Some (pre ++ (Some <$> xs) ++ post) → length pre = i →
  h !! d = Some (dpre ++ replicate n None ++ dpost) → length dpre = j →
  Q () (World (<[d := dpre ++ (Some <$> xs) ++ dpost]>
                 (<[a := pre ++ (Some <$> (moved_from <$> xs)) ++ post]> h))
              nx c (tr ++ replicate n EvMoveCtor) rs vs) →
  wp (uninitialized_move_n (a, i) n (d, j)) (World h nx c tr rs vs) Q E.
Proof. intros <-. apply wp_uninitialized_move_n. Qed.

Lemma wp_uninitialized_copy_n_len n xs a i d j pre post dpre dpost h nx c tr rs vs Q E :
  length xs = n → a ≠ d →
  h !! a = Some (pre ++ (Some <$> xs) ++ post) → length pre = i →
  h !! d = Some (dpre ++ replicate n None ++ dpost) → length dpre = j →
  (copies_quiet c xs →
   Q () (World (<[d := dpre ++ (Some <$> xs) ++ dpost]> h)
               nx (c + n) (tr ++ replicate n EvCopyCtor) rs vs)) →
  (copies_throw c xs → ∀ c' tr', E (World h nx c' tr' rs vs)) →
  wp (uninitialized_copy_n (a, i) n (d, j)) (World h nx c tr rs vs) Q E.
Proof. intros <-. apply wp_uninitialized_copy_n. Qed.

Lemma wp_move_backward_len n e mid a i z pre post h nx c tr rs vs Q E :
  length mid = n → e = i + n + 1 →
  h !! a = Some (pre ++ (Some <$> mid) ++ Some z :: post) → length pre = i →
  (∀ z', Q () (World (<[a := pre ++ Some z' :: (Some <$> mid) ++ post]> h) nx c
                     (tr ++ replicate n EvMoveAssign) rs vs)) →
  wp (move_backward (a, i) n (a, e)) (World h nx c tr rs vs) Q E.
Proof. intros <- ->. apply wp_move_backward. Qed.

Lemma fresh_unused h nx : fresh h nx → h !! nx = None.
Proof.
  intros (_ & _ & Hbelow). destruct (h !! nx) as [b|] eqn:Hb; [|done].
  apply Hbelow in Hb. simpl in Hb. lia.
Qed.

(** ** Splitting buffers *)

Lemma replicate_split {A} (x : A) n k :
  k ≤ n → replicate n x = replicate k x ++ replicate (n - k) x.
Proof. intros Hk. rewrite <- replicate_add. f_equal. lia. Qed.

Lemma replicate_split_at {A} (x : A) n k :
  k < n → replicate n x = replicate k x ++ x :: replicate (n - S k) x.
Proof.
  intros Hk. rewrite (replicate_split x n k) by lia. f_equal.
  replace (n - k) with (S (n - S k)) by lia. done.
Qed.

Lemma fmap_take_drop {A B} (f : A → B) (l : list A) k :
  (f <$> take k l) ++ (f <$> drop k l) = f <$> l.
Proof. by rewrite <- fmap_app, take_drop. Qed.

Lemma slots_insert xs x d rest :
  ((Some <$> take d xs) ++ [Some x]) ++ (Some <$> drop d xs) ++ rest =
  (Some <$> take d xs ++ x :: drop d xs) ++ rest.
Proof. by rewrite fmap_app, fmap_cons, <- !app_assoc. Qed.

(** Heap equalities are settled pointwise. *)
Ltac heap_eq :=
  apply map_eq; intros ?;
  repeat (rewrite lookup_insert || rewrite lookup_delete);
  repeat case_decide; subst; try congruence; try done.

(** ** [Vector]: insertion with reallocation *)

Lemma wp_EmplaceWithReallocate a cap xs args x d h nx c tr rs vs Q E :
  let v := mkVector (mkRawMemory a cap) (length xs) in
  let newcap := if decide (length xs = 0) then 1 else length xs * 2 in
  let copied := copied_by_make args x ++ copied_by_relocation xs in
  holds h v xs → cap ≤ length xs → fresh h nx → d ≤ length xs →
  arg_value h v args x →
  (copies_quiet c copied →
     Q (mkVector (mkRawMemory nx newcap) (length xs))
       (World (<[nx := (Some <$> take d xs ++ x :: drop d xs) ++
                        replicate (newcap - S (length xs)) None]>
                 (delete a (heap_after_make args h)))
              (S nx) (c + length copied)
              (tr ++ ctor_event args ::
                 replicate (length xs) (if relocate_by_move then EvMoveCtor else EvCopyCtor) ++
                 replicate (length xs) EvDtor)
              rs vs)) →
  (copies_throw c copied → ∀ c' tr', E (World (heap_after_make args h) (S nx) c' tr' rs vs)) →
  wp (EmplaceWithReallocate v (a, d) args) (World h nx c tr rs vs) Q E.
Proof.
  intros v newcap copied (_ & Hle & Hblk) Hfull (Hnx & Hnull0 & Hfresh) Hd Harg HQ HE.
  simpl in Hle, Hblk.
  assert (h !! nx = None) as Hnone0 by (by apply (fresh_unused h nx)).
  (* the heap once the new element is constructed *)
  assert (heap_after_make args h !! a = h !! a) as Hsame
    by (apply (heap_after_make_lookup_ne h v args x); [done|by left]).
  assert (heap_after_make args h !! nx = None) as Hnone
    by (by rewrite (heap_after_make_lookup_ne h v args x) by auto).
  assert (heap_after_make args h !! null = None) as Hnull
    by (by rewrite (heap_after_make_lookup_ne h v args x) by auto).
  assert (∀ R, heap_after_make args (<[nx := R]> h) = <[nx := R]> (heap_after_make args h))
    as Hcommute by (intros R; by apply (heap_after_make_insert h v args x)).
  assert (copies_throw c (copied_by_make args x) → heap_after_make args h = h) as Hcopy.
  { intros (i & y & Hi & _). apply (heap_after_make_copied args x). by intros Heq; rewrite Heq in Hi. }
  rewrite <- Hsame in Hblk.
  set (h1 := heap_after_make args h) in *.
  assert (newcap ≠ 0) as Hnew0 by (unfold newcap; destruct (decide (length xs = 0)); lia).
  assert (length xs < newcap) as Hnew by (unfold newcap; destruct (decide (length xs = 0)); lia).
  unfold EmplaceWithReallocate, cbegin, cend, begin_, RawMemory_GetAddress, ptr_add; simpl.
  apply wp_bind, wp_distance; [lia|]. rewrite Nat.sub_0_r.
  apply wp_bind, wp_distance; [lia|].
  fold newcap.
  apply wp_bind, wp_RawMemory_ctor; [done|].
  apply wp_bind, wp_unwinding.
  assert (∀ h' B c' tr', copies_throw c copied → h' !! nx = Some B → delete nx h' = h1 →
            wp (RawMemory_dtor (mkRawMemory nx newcap)) (World h' (S nx) c' tr' rs vs)
               (λ _ w'', E w'') (λ _, False)) as Hunwind.
  { intros h' B c' tr' Hth HB Hdel. unfold RawMemory_dtor; simpl.
    eapply wp_Deallocate; [done|exact HB|]. rewrite Hdel. by apply HE. }
  set (c1 := c + length (copied_by_make args x)).
  assert (∀ R, arg_value (<[nx := R]> h) v args x) as Harg'
    by (intros R; by apply arg_value_insert).
  destruct (decide (length xs = 0)) as [Hempty|Hnonempty].
  - (* the vector is empty: nothing to relocate *)
    destruct xs; [|done]. simpl in *.
    assert (copied = copied_by_make args x) as Hcopied.
    { unfold copied, copied_by_relocation. destruct relocate_by_move; apply app_nil_r. }
    rewrite Hcopied in *.
    assert (d = 0) as -> by lia. assert (cap = 0) as -> by lia.
    rewrite decide_True in Hblk by done. subst a.
    apply wp_bind. eapply (wp_make _ v args x); [done| |].
    + intros Hq1. rewrite Hcommute. fold h1. apply wp_bind. eapply wp_construct_at.
      { apply lookup_insert_eq. }
      { done. }
      assert (wp (bind (RawMemory_dtor (mkRawMemory null 0))
                    (λ _, ret (mkVector (mkRawMemory nx newcap) 0)))
                 (World (<[nx := [Some x]]> (<[nx := [None]]> h1)) (S nx) c1
                        (tr ++ [ctor_event args]) rs vs) Q E) as Hdone.
      { apply wp_bind, wp_Deallocate_null, wp_ret.
        eapply post_eq; [apply (HQ Hq1)|].
        f_equal. rewrite insert_insert_eq. by rewrite delete_id. }
      destruct relocate_by_move; unfold uninitialized_copy_n; simpl;
        apply wp_bind, wp_ret, wp_bind, wp_ret, wp_ret; exact Hdone.
    + intros Hth c' tr'. eapply Hunwind; [done|apply lookup_insert_eq|].
      rewrite delete_insert_id by done. symmetry. by apply Hcopy.
  - (* relocation of the elements around the new one *)
    assert (cap = length xs) as -> by lia.
    rewrite decide_False, Nat.sub_diag, app_nil_r in Hblk by done.
    destruct Hblk as [Hanull Ha].
    assert (a ≠ nx) as Hanx by congruence.
    assert (length (take d xs) = d) as Htake by (by rewrite length_take_le).
    assert (length (drop d xs) = length xs - d) as Hdrop by (by rewrite length_drop).
    apply wp_bind. eapply (wp_make _ v args x); [done| |].
    2:{ intros Hth c' tr'. eapply Hunwind; [|apply lookup_insert_eq|].
        - by apply copies_throw_app_l.
        - rewrite delete_insert_id by done. symmetry. by apply Hcopy. }
    intros Hq1. rewrite Hcommute. fold h1 c1. apply wp_bind. eapply wp_construct_at.
    { apply lookup_insert_eq. }
    { apply lookup_replicate_2. lia. }
    rewrite insert_insert_eq.
    rewrite (replicate_split_at None newcap d), insert_mid by (rewrite ?length_replicate; lia).
    unfold copied, copied_by_relocation in HQ, Hunwind.
    destruct relocate_by_move.
    + (* by move construction *)
      rewrite app_nil_r in HQ.
      apply wp_bind.
      eapply (wp_uninitialized_move_n_len d (take d xs) a 0 nx 0 [] ((Some <$> drop d xs)) []
                (Some x :: replicate (newcap - S d) None)); [done|done| |done| |done|].
      { rewrite lookup_insert_ne by done. simpl. by rewrite fmap_take_drop. }
      { by rewrite lookup_insert_eq. }
      simpl. apply wp_bind.
      eapply (wp_uninitialized_move_n_len (length xs - d) (drop d xs) a d nx (d + 1)
                (Some <$> (moved_from <$> take d xs)) []
                ((Some <$> take d xs) ++ [Some x]) (replicate (newcap - S (length xs)) None));
        [done|done| | | | |].
      { rewrite lookup_insert_ne by done. rewrite lookup_insert_eq. by rewrite app_nil_r. }
      { by rewrite !length_fmap. }
      { rewrite lookup_insert_eq. f_equal. rewrite <- app_assoc. simpl. do 2 f_equal.
        rewrite <- replicate_add. f_equal. lia. }
      { rewrite length_app, length_fmap. simpl. lia. }
      rewrite app_nil_r.
      eapply (wp_destroy_n_len (length xs) (moved_from <$> xs) a 0 [] []); [by rewrite length_fmap| |done|].
      { rewrite lookup_insert_ne by done. rewrite lookup_insert_eq. simpl.
        by rewrite app_nil_r, <- !fmap_app, take_drop. }
      unfold RawMemory_dtor; simpl. apply wp_bind. eapply wp_Deallocate; [done|apply lookup_insert_eq|].
      apply wp_ret. eapply post_eq; [apply (HQ Hq1)|].
      f_equal.
      * rewrite slots_insert. heap_eq.
      * rewrite <- !app_assoc. simpl. do 2 f_equal.
        rewrite app_assoc, <- replicate_add. do 2 f_equal. lia.
    + (* by copy construction *)
      simpl. apply wp_bind.
      eapply (wp_uninitialized_copy_n_len d (take d xs) a 0 nx 0 [] ((Some <$> drop d xs)) []
                (Some x :: replicate (newcap - S d) None)); [done|done| |done| |done| |].
      { rewrite lookup_insert_ne by done. simpl. by rewrite fmap_take_drop. }
      { by rewrite lookup_insert_eq. }
      2:{ intros Hth c' tr'. eapply Hunwind; [|apply lookup_insert_eq|].
          - by eapply copies_throw_app_r, copies_throw_take.
          - by rewrite delete_insert_id. }
      intros Hq2. simpl. rewrite insert_insert_eq. apply wp_bind.
      eapply (wp_uninitialized_copy_n_len (length xs - d) (drop d xs) a d nx (d + 1)
                (Some <$> take d xs) []
                ((Some <$> take d xs) ++ [Some x]) (replicate (newcap - S (length xs)) None));
        [done|done| | | | | |].
      { rewrite lookup_insert_ne by done. by rewrite app_nil_r, fmap_take_drop. }
      { by rewrite !length_fmap. }
      { rewrite lookup_insert_eq. f_equal. rewrite <- app_assoc. simpl. do 2 f_equal.
        rewrite <- replicate_add. f_equal. lia. }
      { rewrite length_app, length_fmap. simpl. lia. }
      2:{ intros Hth c' tr'. eapply Hunwind; [|apply lookup_insert_eq|].
          - by eapply copies_throw_app_r, copies_throw_drop.
          - by rewrite delete_insert_id. }
      intros Hq3. rewrite insert_insert_eq.
      eapply (wp_destroy_n_len (length xs) xs a 0 [] []); [done| |done|].
      { rewrite lookup_insert_ne by done. by rewrite app_nil_r. }
      unfold RawMemory_dtor; simpl. apply wp_bind. eapply wp_Deallocate; [done|apply lookup_insert_eq|].
      apply wp_ret. eapply post_eq; [apply HQ|].
      { apply copies_quiet_app; [done|]. by eapply copies_quiet_take_drop. }
      f_equal.
      * rewrite slots_insert. heap_eq.
      * rewrite length_app. unfold c1. lia.
      * rewrite <- !app_assoc. simpl. do 2 f_equal.
        rewrite app_assoc, <- replicate_add. do 2 f_equal. lia.
Qed.

(** ** [Vector]: insertion into spare capacity *)

Lemma wp_EmplaceWithoutReallocate a cap xs args x d h nx c tr rs vs Q E :
  let v := mkVector (mkRawMemory a cap) (length xs) in
  holds h v xs → length xs < cap → d ≤ length xs →
  arg_value h v args x →
  (copies_quiet c (copied_by_make args x) → ∀ tr',
     Q () (World (<[a := (Some <$> take d xs ++ x :: drop d xs) ++
                         replicate (cap - S (length xs)) None]> (heap_after_make args h))
                 nx (c + length (copied_by_make args x)) tr' rs vs)) →
  (copies_throw c (copied_by_make args x) → ∀ c' tr', E (World h nx c' tr' rs vs)) →
  wp (EmplaceWithoutReallocate v (a, d) args) (World h nx c tr rs vs) Q E.
Proof.
  intros v (_ & _ & Hblk) Hroom Hd Harg HQ HE. simpl in Hblk.
  rewrite decide_False in Hblk by lia. destruct Hblk as [Hanull Ha].
  rewrite <- (heap_after_make_lookup_ne h v args x a) in Ha by (done || by left).
  set (h1 := heap_after_make args h) in *.
  unfold EmplaceWithoutReallocate, cbegin, end_, begin_, RawMemory_GetAddress, ptr_add; simpl.
  apply wp_bind, wp_distance; [lia|]. rewrite Nat.sub_0_r.
  destruct (decide ((a, d) = (a, length xs))) as [Heq|Hneq].
  - (* at the end: construct in the first free slot *)
    assert (d = length xs) as -> by congruence.
    apply wp_bind. eapply (wp_make h v args x); [done|..]; [|done].
    intros Hq1. fold h1.
    rewrite (replicate_split_at None (cap - length xs) 0) in Ha by lia. simpl in Ha.
    eapply wp_construct_at; [exact Ha|by apply lookup_mid, length_fmap|].
    rewrite insert_mid by apply length_fmap.
    eapply post_eq; [by eapply HQ|]. f_equal. f_equal.
    rewrite take_ge, drop_ge by lia. rewrite fmap_app, <- app_assoc. simpl.
    do 3 f_equal. lia.
  - (* in the middle: shift the tail to the right through a temporary *)
    assert (d < length xs) as Hlt by (assert (d ≠ length xs) by congruence; lia).
    apply wp_bind. eapply (wp_make h v args x); [done|..]; [|done].
    intros Hq1. fold h1.
    destruct xs as [|y xs0 _] using rev_ind; [simpl in Hlt; lia|].
    rewrite length_app in Hlt, Hroom, Ha |- *. simpl in Hlt, Hroom, Ha |- *.
    rewrite Nat.add_1_r in Hlt, Hroom, Ha |- *. simpl.
    assert (d ≤ length xs0) as Hd0 by lia.
    assert (h1 !! a = Some ((Some <$> xs0) ++ Some y :: None :: replicate (cap - S (S (length xs0))) None))
      as Ha'.
    { rewrite Ha. f_equal. rewrite fmap_app, <- app_assoc. simpl. do 2 f_equal.
      rewrite (replicate_split_at None (cap - S (length xs0)) 0) by lia. simpl.
      do 2 f_equal. lia. }
    apply wp_bind, wp_RawMemory_index; [simpl; lia|]. simpl.
    apply wp_bind. eapply wp_move_construct_buf; [exact Ha'|by apply lookup_mid, length_fmap|].
    rewrite insert_mid by apply length_fmap.
    apply wp_bind. eapply wp_construct_at.
    { apply lookup_insert_eq. }
    { rewrite (snoc_assoc _ _ (Some (moved_from y))). apply lookup_mid.
      rewrite length_app, length_fmap. simpl. lia. }
    rewrite insert_insert_eq.
    rewrite (snoc_assoc _ _ (Some (moved_from y))),
      insert_mid by (rewrite length_app, length_fmap; simpl; lia).
    apply wp_bind, wp_distance; [lia|].
    apply wp_bind.
    eapply (wp_move_backward_len (length xs0 - d) (S (length xs0)) (drop d xs0) a d
              (moved_from y) (Some <$> take d xs0)
              (Some y :: replicate (cap - S (S (length xs0))) None)).
    { by rewrite length_drop. }
    { lia. }
    { rewrite lookup_insert_eq. f_equal. rewrite <- !app_assoc. simpl.
      by rewrite app_assoc, fmap_take_drop. }
    { by rewrite length_fmap, length_take_le. }
    intros z'. rewrite insert_insert_eq.
    apply wp_bind, wp_RawMemory_index; [simpl; lia|]. simpl.
    apply wp_bind. eapply wp_move_assign_ext.
    { apply lookup_insert_eq. }
    { apply lookup_mid. by rewrite length_fmap, length_take_le. }
    rewrite insert_insert_eq, insert_mid by (by rewrite length_fmap, length_take_le).
    apply wp_emit. eapply post_eq; [by eapply HQ|]. f_equal. f_equal.
    rewrite take_app_le, drop_app_le by lia.
    rewrite !fmap_app, fmap_cons, fmap_app, <- !app_assoc. simpl.
    rewrite length_app, <- !app_assoc. simpl. do 6 f_equal. lia.
Qed.

(** ** [Vector]: [Reserve] *)

Lemma wp_Reserve a cap xs n h nx c tr rs vs Q E :
  let v := mkVector (mkRawMemory a cap) (length xs) in
  holds h v xs → fresh h nx → cap < n →
  (copies_quiet c (copied_by_relocation xs) →
   Q (mkVector (mkRawMemory nx n) (length xs))
     (World (<[nx := (Some <$> xs) ++ replicate (n - length xs) None]> (delete a h))
            (S nx) (c + length (copied_by_relocation xs))
            (tr ++ replicate (length xs) (if relocate_by_move then EvMoveCtor else EvCopyCtor) ++
               replicate (length xs) EvDtor)
            rs vs)) →
  (copies_throw c (copied_by_relocation xs) → ∀ c' tr', E (World h (S nx) c' tr' rs vs)) →
  wp (Reserve v n) (World h nx c tr rs vs) Q E.
Proof.
  intros v (_ & Hle & Hblk) (Hnx & Hnull & Hfresh) Hgrow HQ HE. simpl in Hle, Hblk.
  assert (h !! nx = None) as Hnone by (by apply (fresh_unused h nx)).
  unfold Reserve, RawMemory_Capacity, RawMemory_GetAddress; simpl.
  rewrite decide_False by lia.
  apply wp_bind, wp_RawMemory_ctor; [lia|].
  apply wp_bind, wp_unwinding.
  assert (∀ h' B c' tr', copies_throw c (copied_by_relocation xs) →
            h' !! nx = Some B → delete nx h' = h →
            wp (RawMemory_dtor (mkRawMemory nx n)) (World h' (S nx) c' tr' rs vs)
               (λ _ w'', E w'') (λ _, False)) as Hunwind.
  { intros h' B c' tr' Hth HB Hdel. unfold RawMemory_dtor; simpl.
    eapply wp_Deallocate; [done|exact HB|]. rewrite Hdel. by apply HE. }
  unfold copied_by_relocation in HQ, Hunwind.
  destruct (decide (cap = 0)) as [->|Hcap].
  - (* nothing is owned yet *)
    subst a. destruct xs; [|simpl in Hle; lia]. simpl in *.
    assert (wp (bind (RawMemory_dtor (mkRawMemory null 0))
                  (λ _, ret (mkVector (mkRawMemory nx n) 0)))
               (World (<[nx := replicate n None]> h) (S nx) c tr rs vs) Q E) as Hdone.
    { apply wp_bind, wp_Deallocate_null, wp_ret.
      eapply post_eq; [apply HQ; destruct relocate_by_move; apply copies_quiet_nil|].
      f_equal.
      - rewrite Nat.sub_0_r. by rewrite delete_id.
      - destruct relocate_by_move; simpl; lia.
      - by rewrite app_nil_r. }
    destruct relocate_by_move; unfold uninitialized_copy_n; simpl;
      apply wp_bind, wp_ret, wp_ret; exact Hdone.
  - destruct Hblk as [Hanull Ha].
    assert (a ≠ nx) as Hanx by congruence.
    destruct relocate_by_move.
    + apply wp_bind.
      eapply (wp_uninitialized_move_n_len (length xs) xs a 0 nx 0 []
                (replicate (cap - length xs) None) [] (replicate (n - length xs) None));
        [done|done| |done| |done|].
      { by rewrite lookup_insert_ne by done. }
      { rewrite lookup_insert_eq. simpl. f_equal. rewrite <- replicate_add. f_equal. lia. }
      simpl.
      eapply (wp_destroy_n_len (length xs) (moved_from <$> xs) a 0 []
                (replicate (cap - length xs) None)); [by rewrite length_fmap| |done|].
      { rewrite lookup_insert_ne by done. by rewrite lookup_insert_eq. }
      unfold RawMemory_dtor; simpl. apply wp_bind.
      eapply wp_Deallocate; [done|apply lookup_insert_eq|].
      apply wp_ret. eapply post_eq; [apply HQ, copies_quiet_nil|].
      f_equal.
      * heap_eq.
      * simpl. lia.
      * by rewrite <- !app_assoc.
    + apply wp_bind.
      eapply (wp_uninitialized_copy_n_len (length xs) xs a 0 nx 0 []
                (replicate (cap - length xs) None) [] (replicate (n - length xs) None));
        [done|done| |done| |done| |].
      { by rewrite lookup_insert_ne by done. }
      { rewrite lookup_insert_eq. simpl. f_equal. rewrite <- replicate_add. f_equal. lia. }
      2:{ intros Hth c' tr'. eapply Hunwind; [done|apply lookup_insert_eq|].
          by rewrite delete_insert_id. }
      intros Hq. simpl. rewrite insert_insert_eq.
      eapply (wp_destroy_n_len (length xs) xs a 0 []
                (replicate (cap - length xs) None)); [done| |done|].
      { by rewrite lookup_insert_ne by done. }
      unfold RawMemory_dtor; simpl. apply wp_bind.
      eapply wp_Deallocate; [done|apply lookup_insert_eq|].
      apply wp_ret. eapply post_eq; [apply (HQ Hq)|].
      f_equal.
      * heap_eq.
      * by rewrite <- !app_assoc.
Qed.

(** ** [Vector]: the insertions of the public interface *)

Lemma wp_Emplace_grow a cap xs args x d h nx c tr rs vs Q E :
  let v := mkVector (mkRawMemory a cap) (length xs) in
  let newcap := if decide (length xs = 0) then 1 else length xs * 2 in
  let copied := copied_by_make args x ++ copied_by_relocation xs in
  holds h v xs → cap ≤ length xs → fresh h nx → d ≤ length xs →
  arg_value h v args x →
  (copies_quiet c copied →
     Q (mkVector (mkRawMemory nx newcap) (length xs + 1), (nx, d))
       (World (<[nx := (Some <$> take d xs ++ x :: drop d xs) ++
                        replicate (newcap - S (length xs)) None]>
                 (delete a (heap_after_make args h)))
              (S nx) (c + length copied)
              (tr ++ ctor_event args ::
                 replicate (length xs) (if relocate_by_move then EvMoveCtor else EvCopyCtor) ++
                 replicate (length xs) EvDtor)
              rs vs)) →
  (copies_throw c copied → ∀ c' tr', E (World (heap_after_make args h) (S nx) c' tr' rs vs)) →
  wp (Emplace v (a, d) args) (World h nx c tr rs vs) Q E.
Proof.
  intros v newcap copied Hv Hfull Hfr Hd Harg HQ HE.
  unfold Emplace, cbegin, begin_, Capacity, RawMemory_Capacity, RawMemory_GetAddress, ptr_add.
  simpl. apply wp_bind, wp_distance; [lia|]. rewrite Nat.sub_0_r.
  rewrite decide_False by lia.
  apply wp_bind. eapply wp_EmplaceWithReallocate; try done;
    intros Hq; apply wp_ret; simpl; by apply HQ.
Qed.

Lemma wp_Emplace_room a cap xs args x d h nx c tr rs vs Q E :
  let v := mkVector (mkRawMemory a cap) (length xs) in
  holds h v xs → length xs < cap → d ≤ length xs →
  arg_value h v args x →
  (copies_quiet c (copied_by_make args x) → ∀ tr',
     Q (mkVector (mkRawMemory a cap) (length xs + 1), (a, d))
       (World (<[a := (Some <$> take d xs ++ x :: drop d xs) ++
                       replicate (cap - S (length xs)) None]> (heap_after_make args h))
              nx (c + length (copied_by_make args x)) tr' rs vs)) →
  (copies_throw c (copied_by_make args x) → ∀ c' tr', E (World h nx c' tr' rs vs)) →
  wp (Emplace v (a, d) args) (World h nx c tr rs vs) Q E.
Proof.
  intros v Hv Hroom Hd Harg HQ HE.
  unfold Emplace, cbegin, begin_, Capacity, RawMemory_Capacity, RawMemory_GetAddress, ptr_add.
  simpl. apply wp_bind, wp_distance; [lia|]. rewrite Nat.sub_0_r.
  rewrite decide_True by lia.
  apply wp_bind, wp_bind. eapply wp_EmplaceWithoutReallocate; try done;
    intros Hq tr'; apply wp_ret, wp_ret; simpl; by apply HQ.
Qed.

Lemma wp_insert_grow a cap xs i x h nx c tr rs vs Q E :
  let v := mkVector (mkRawMemory a cap) (length xs) in
  let args := insertion_args i in
  let d := insertion_index v i in
  let newcap := if decide (length xs = 0) then 1 else length xs * 2 in
  let copied := copied_by_make args x ++ copied_by_relocation xs in
  holds h v xs → cap ≤ length xs → fresh h nx → d ≤ length xs →
  arg_value h v args x →
  (copies_quiet c copied →
     Q (mkVector (mkRawMemory nx newcap) (length xs + 1))
       (World (<[nx := (Some <$> take d xs ++ x :: drop d xs) ++
                        replicate (newcap - S (length xs)) None]>
                 (delete a (heap_after_make args h)))
              (S nx) (c + length copied)
              (tr ++ ctor_event args ::
                 replicate (length xs) (if relocate_by_move then EvMoveCtor else EvCopyCtor) ++
                 replicate (length xs) EvDtor)
              rs vs)) →
  (copies_throw c copied → ∀ c' tr', E (World (heap_after_make args h) (S nx) c' tr' rs vs)) →
  wp (insert v i) (World h nx c tr rs vs) Q E.
Proof.
  intros v args d newcap copied Hv Hfull Hfr Hd Harg HQ HE.
  destruct i as [pos ea|ea|pos value|pos value|value|value];
    subst args d; simpl in *;
    unfold EmplaceBack, Insert, Insert_move, PushBack, PushBack_move,
      cbegin, end_, Capacity, RawMemory_Capacity, RawMemory_GetAddress, ptr_add; simpl.
  1-4: apply wp_bind; eapply wp_Emplace_grow; try done;
       intros Hq; apply wp_ret; by apply HQ.
  all: rewrite decide_False by lia;
       apply wp_bind; eapply wp_EmplaceWithReallocate; try done;
       intros Hq; apply wp_ret; by apply HQ.
Qed.

(** ** Insertion of an rvalue that is an element of the vector *)

Lemma bind_distance_eq {B} p q (f g : nat → M T B) w w' :
  (∀ d, f d w = g d w') → bind (distance p q) f w = bind (distance p q) g w'.
Proof. intros Hfg. unfold bind, distance. case_decide; simpl; auto. Qed.

Lemma bind_eq_l {A B} (m m' : M T A) (f : A → M T B) w w' :
  m w = m' w' → bind m f w = bind m' f w'.
Proof. intros Heq. unfold bind. by rewrite Heq. Qed.

Lemma bind_eq_r {A B} (m : M T A) (f g : A → M T B) w w' a u u' :
  m w = Ok a u → m w' = Ok a u' → f a u = g a u' → bind m f w = bind m g w'.
Proof. intros Hm Hm' Hfg. unfold bind. by rewrite Hm, Hm'. Qed.

Lemma unwinding_eq {A} (cleanup : M T unit) (m m' : M T A) w w' :
  m w = m' w' → unwinding cleanup m w = unwinding cleanup m' w'.
Proof. intros Heq. unfold unwinding. by rewrite Heq. Qed.

Lemma RawMemory_ctor_runs n h nx c tr rs vs :
  n ≠ 0 →
  RawMemory_ctor n (World h nx c tr rs vs) =
    Ok (mkRawMemory nx n) (World (<[nx := replicate n None]> h) (S nx) c tr rs vs).
Proof. intros Hn. unfold RawMemory_ctor, bind, Allocate. simpl. by rewrite decide_False. Qed.

(** Constructing the new element from an rvalue reference to an element
    of the vector leaves that element moved-from; from there on the
    insertion runs as it does for an rvalue outside the vector. *)
Lemma make_own_element a k x b d B h nx c tr rs vs :
  a ≠ d → h !! a = Some b → b !! k = Some (Some x) →
  make (MoveOf (InBuffer (a, k))) (World (<[d := B]> h) nx c tr rs vs) =
  make (MoveOf (External x))
    (World (<[d := B]> (<[a := <[k := Some (moved_from x)]> b]> h)) nx c tr rs vs).
Proof.
  intros Hne Ha Hk.
  unfold make, move_construct, bind, read, load, slot_at, slot_in, leave_moved, put, emit, ret.
  simpl. rewrite lookup_insert_ne by done. rewrite Ha. simpl. rewrite Hk. simpl.
  rewrite lookup_insert_ne by done. rewrite Ha.
  rewrite decide_True by eauto using lookup_lt_Some. simpl.
  do 2 f_equal. by apply insert_insert_ne.
Qed.

Lemma EmplaceWithReallocate_own_element v pos k x b h nx c tr rs vs :
  buffer_ (data_ v) ≠ nx → h !! buffer_ (data_ v) = Some b → b !! k = Some (Some x) →
  EmplaceWithReallocate v pos (MoveOf (InBuffer (buffer_ (data_ v), k)))
    (World h nx c tr rs vs) =
  EmplaceWithReallocate v pos (MoveOf (External x))
    (World (<[buffer_ (data_ v) := <[k := Some (moved_from x)]> b]> h) nx c tr rs vs).
Proof.
  intros Hne Ha Hk. unfold EmplaceWithReallocate.
  apply bind_distance_eq; intros d. apply bind_distance_eq; intros e.
  eapply bind_eq_r; [apply RawMemory_ctor_runs; case_decide; lia..|].
  apply bind_eq_l, unwinding_eq, bind_eq_l. by apply make_own_element.
Qed.

Lemma insert_own_element v i k x b h nx c tr rs vs :
  insertion_args i = MoveOf (InBuffer (buffer_ (data_ v), k)) →
  Capacity v < size_ v + 1 →
  buffer_ (data_ v) ≠ nx → h !! buffer_ (data_ v) = Some b → b !! k = Some (Some x) →
  ∃ i', insertion_args i' = MoveOf (External x) ∧
        insertion_index v i' = insertion_index v i ∧
        insert v i (World h nx c tr rs vs) =
        insert v i'
          (World (<[buffer_ (data_ v) := <[k := Some (moved_from x)]> b]> h) nx c tr rs vs).
Proof.
  intros Hargs Hfull Hne Ha Hk.
  destruct i as [pos args|args|pos value|pos value|value|value];
    simpl in Hargs; try discriminate; try injection Hargs as ->; try subst args.
  - exists (DoEmplace pos (MoveOf (External x))). do 2 (split; [done|]). simpl.
    apply bind_eq_l. unfold Emplace. apply bind_distance_eq; intros d. cbv zeta.
    apply bind_eq_l. rewrite !decide_False by lia.
    by apply EmplaceWithReallocate_own_element.
  - exists (DoEmplaceBack (MoveOf (External x))). do 2 (split; [done|]). simpl.
    apply bind_eq_l. unfold EmplaceBack, Emplace. apply bind_distance_eq; intros d. cbv zeta.
    apply bind_eq_l. rewrite !decide_False by lia.
    by apply EmplaceWithReallocate_own_element.
  - exists (DoInsertMove pos (External x)). do 2 (split; [done|]). simpl.
    apply bind_eq_l. unfold Insert_move, Emplace. apply bind_distance_eq; intros d. cbv zeta.
    apply bind_eq_l. rewrite !decide_False by lia.
    by apply EmplaceWithReallocate_own_element.
  - exists (DoPushBackMove (External x)). do 2 (split; [done|]). simpl.
    unfold PushBack_move. cbv zeta. apply bind_eq_l. rewrite !decide_False by lia.
    by apply EmplaceWithReallocate_own_element.
Qed.

(** ** Capacities across operations *)

Lemma steady_ret {A} (a : A) (P : A → Prop) : P a → steady (T:=T) (ret a) P.
Proof. by intros Ha w. Qed.

Lemma steady_undefined {A} (P : A → Prop) : steady (T:=T) undefined P.
Proof. by intros w. Qed.

Lemma steady_bind {A B} (m : M T A) (f : A → M T B) (P1 : A → Prop) (P : B → Prop) :
  steady m P1 → (∀ a, P1 a → steady (T:=T) (f a) P) → steady (T:=T) (bind m f) P.
Proof.
  intros Hm Hf w. unfold bind. specialize (Hm w).
  destruct (m w) as [a w1|w1|]; [|done..].
  destruct Hm as [Hv Ha]. specialize (Hf a Ha w1).
  destruct (f a w1) as [b w2|w2|]; [|congruence|done].
  destruct Hf. split; [congruence|done].
Qed.

Lemma steady_seq {A B} (m : M T A) (f : A → M T B) (P1 : A → Prop) (P : B → Prop) :
  steady m P1 → (∀ a, steady (T:=T) (f a) P) → steady (T:=T) (bind m f) P.
Proof. intros Hm Hf. eapply steady_bind; [exact Hm|auto]. Qed.

Lemma steady_mono {A} (m : M T A) (P P' : A → Prop) :
  steady m P → (∀ a, P a → P' a) → steady m P'.
Proof.
  intros Hm HP w. specialize (Hm w). destruct (m w); [|done..].
  destruct Hm. auto.
Qed.

Lemma steady_unwinding {A} (cleanup : M T unit) (m : M T A) (P : A → Prop) (P' : unit → Prop) :
  steady m P → steady cleanup P' → steady (T:=T) (unwinding cleanup m) P.
Proof.
  intros Hm Hc w. unfold unwinding. specialize (Hm w).
  destruct (m w) as [a w1|w1|]; [done| |done].
  specialize (Hc w1). destruct (cleanup w1) as [[] w2|w2|]; [|done..].
  destruct Hc. congruence.
Qed.

Ltac steady_step :=
  lazymatch goal with
  | |- steady (bind _ _) _ => eapply steady_seq; [|intros ?]
  | |- steady (ret _) _ => by apply steady_ret
  | |- steady undefined _ => apply steady_undefined
  | |- steady (if ?c then _ else _) _ => destruct c
  | |- steady (match ?x with _ => _ end) _ => destruct x
  | |- steady (let '(_, _) := ?x in _) _ => destruct x
  end.

Lemma steady_emit e : steady (T:=T) (emit e) any.
Proof. by intros w. Qed.

Lemma steady_put p s : steady (T:=T) (put p s) any.
Proof. intros w. unfold put. destruct (heap w !! p.1); [|done]. by case_decide. Qed.

Lemma steady_load p : steady (T:=T) (load p) any.
Proof. intros w. unfold load. by destruct (slot_at w p) as [[x|]|]. Qed.

Lemma steady_construct_at p x : steady (T:=T) (construct_at p x) any.
Proof.
  intros w. unfold construct_at. destruct (slot_at w p) as [[y|]|]; [done| |done].
  apply steady_put.
Qed.

Lemma steady_Allocate n : steady (T:=T) (Allocate n) any.
Proof. intros w. unfold Allocate. by case_decide. Qed.

Lemma steady_Deallocate a : steady (T:=T) (Deallocate a) any.
Proof.
  intros w. unfold Deallocate. case_decide; [done|]. by destruct (heap w !! a).
Qed.

Lemma steady_enter_copy x : steady (T:=T) (enter_copy x) any.
Proof. intros w. unfold enter_copy. by destruct (copy_throws _ _). Qed.

Lemma steady_assert c : steady (T:=T) (assert c) any.
Proof. by destruct c. Qed.

Create HintDb steady discriminated.
Hint Resolve steady_emit steady_put steady_load steady_construct_at steady_Allocate
  steady_Deallocate steady_enter_copy steady_assert : steady.

Ltac steady_auto := repeat (steady_step || solve [eauto with steady]).

Lemma steady_assign_at p x : steady (T:=T) (assign_at p x) any.
Proof. unfold assign_at. steady_auto. Qed.

Lemma steady_destroy_at p : steady (T:=T) (destroy_at p) any.
Proof. unfold destroy_at. steady_auto. Qed.

Lemma steady_read r : steady (T:=T) (read r) any.
Proof. unfold read. steady_auto. Qed.

Lemma steady_leave_moved r x : steady (T:=T) (leave_moved r x) any.
Proof. unfold leave_moved. steady_auto. Qed.
Hint Resolve steady_assign_at steady_destroy_at steady_read steady_leave_moved : steady.

Lemma steady_copy_construct r : steady (T:=T) (copy_construct r) any.
Proof. unfold copy_construct. steady_auto. Qed.

Lemma steady_move_construct r : steady (T:=T) (move_construct r) any.
Proof. unfold move_construct. steady_auto. Qed.

Lemma steady_copy_assign p r : steady (T:=T) (copy_assign p r) any.
Proof. unfold copy_assign. steady_auto. Qed.

Lemma steady_move_assign p r : steady (T:=T) (move_assign p r) any.
Proof. unfold move_assign. steady_auto. Qed.
Hint Resolve steady_copy_construct steady_move_construct steady_copy_assign
  steady_move_assign : steady.

Lemma steady_make args : steady (T:=T) (make args) any.
Proof. unfold make. steady_auto. Qed.

Lemma steady_destroy_n n : ∀ p, steady (T:=T) (destroy_n p n) any.
Proof. induction n; intros p; simpl; steady_auto. Qed.

Lemma steady_uninitialized_value_construct_n n :
  ∀ p, steady (T:=T) (uninitialized_value_construct_n p n) any.
Proof. induction n; intros p; simpl; steady_auto. Qed.

Lemma steady_uninitialized_move_n n : ∀ p q, steady (T:=T) (uninitialized_move_n p n q) any.
Proof. induction n; intros p q; simpl; steady_auto. Qed.

Lemma steady_uninitialized_copy_n n p q : steady (T:=T) (uninitialized_copy_n p n q) any.
Proof.
  unfold uninitialized_copy_n. generalize 0. revert p.
  induction n as [|n IH]; intros p done; simpl; [steady_auto|].
  intros w. pose proof (steady_copy_construct (InBuffer p) w) as Hc.
  destruct (copy_construct (InBuffer p) w) as [x w1|w1|]; [| |done].
  - destruct Hc as [Hv _].
    assert (steady (T:=T) (bind (construct_at (q +ₚ done) x)
                      (λ _, uninitialized_copy_loop (p +ₚ 1) n q (S done))) any) as Hrest
      by steady_auto.
    specialize (Hrest w1).
    destruct (bind _ _ w1) as [[] w2|w2|]; [|congruence|done].
    destruct Hrest. split; [congruence|done].
  - pose proof (steady_destroy_n done q w1) as Hd.
    destruct (destroy_n q done w1) as [[] w2|w2|]; [|done..].
    destruct Hd. congruence.
Qed.

Lemma steady_copy_n n : ∀ p q, steady (T:=T) (copy_n p n q) any.
Proof. induction n; intros p q; simpl; steady_auto. Qed.

Lemma steady_move_backward n : ∀ p q, steady (T:=T) (move_backward p n q) any.
Proof. induction n; intros p [qa [|qi]]; simpl; steady_auto. Qed.

Lemma steady_for_range n (body : nat → M T unit) :
  (∀ i, steady (T:=T) (body i) any) → ∀ first, steady (T:=T) (for_range first n body) any.
Proof. intros Hb. induction n; intros first; simpl; steady_auto. Qed.

Lemma steady_distance p q : steady (T:=T) (distance p q) any.
Proof. unfold distance. steady_auto. Qed.

Lemma steady_ptr_pred p : steady (T:=T) (ptr_pred p) any.
Proof. unfold ptr_pred. steady_auto. Qed.

Lemma steady_RawMemory_ctor n : steady (T:=T) (RawMemory_ctor n) (λ r, capacity_ r = n).
Proof. unfold RawMemory_ctor. steady_auto. Qed.

Lemma steady_RawMemory_dtor r : steady (T:=T) (RawMemory_dtor r) any.
Proof. unfold RawMemory_dtor. steady_auto. Qed.

Lemma steady_RawMemory_plus r k : steady (T:=T) (RawMemory_plus r k) any.
Proof. unfold RawMemory_plus. steady_auto. Qed.

Lemma steady_RawMemory_index r k : steady (T:=T) (RawMemory_index r k) any.
Proof. unfold RawMemory_index. steady_auto. Qed.

Hint Resolve steady_make steady_destroy_n steady_uninitialized_value_construct_n
  steady_uninitialized_move_n steady_uninitialized_copy_n steady_copy_n
  steady_move_backward steady_distance steady_ptr_pred steady_RawMemory_dtor
  steady_RawMemory_plus steady_RawMemory_index : steady.

Lemma steady_EmplaceWithoutReallocate v pos args :
  steady (T:=T) (EmplaceWithoutReallocate v pos args) any.
Proof. unfold EmplaceWithoutReallocate. steady_auto. Qed.

Lemma steady_EmplaceWithReallocate v pos args :
  steady (T:=T) (EmplaceWithReallocate v pos args)
    (λ v', Capacity v' = if decide (size_ v = 0) then 1 else size_ v * 2).
Proof.
  unfold EmplaceWithReallocate.
  eapply steady_seq; [apply steady_distance|intros d].
  eapply steady_seq; [apply steady_distance|intros e].
  eapply steady_bind; [apply steady_RawMemory_ctor|intros r Hr].
  eapply steady_seq.
  { eapply steady_unwinding; [|apply steady_RawMemory_dtor]. steady_auto. }
  intros _. simpl. eapply steady_seq; [apply steady_RawMemory_dtor|intros _].
  by apply steady_ret.
Qed.

Lemma steady_grow_or_not v (room grow : M T Vector) :
  steady room (λ v', Capacity v' = Capacity v) →
  steady grow (λ v', Capacity v' = if decide (size_ v = 0) then 1 else size_ v * 2) →
  steady (if decide (size_ v + 1 ≤ Capacity v) then room else grow)
    (λ v', Capacity v ≤ Capacity v').
Proof.
  intros Hroom Hgrow. destruct (decide (size_ v + 1 ≤ Capacity v)).
  - eapply steady_mono; [exact Hroom|]. intros v' ->. lia.
  - eapply steady_mono; [exact Hgrow|]. intros v' ->. case_decide; lia.
Qed.

Lemma steady_Emplace v pos args :
  steady (T:=T) (Emplace v pos args) (λ r, Capacity v ≤ Capacity r.1).
Proof.
  unfold Emplace. eapply steady_seq; [apply steady_distance|intros d].
  eapply steady_bind.
  { apply steady_grow_or_not; [|apply steady_EmplaceWithReallocate].
    eapply steady_seq; [apply steady_EmplaceWithoutReallocate|intros _].
    by apply steady_ret. }
  intros v1 Hv1. by apply steady_ret.
Qed.

Lemma steady_PushBack v value :
  steady (T:=T) (PushBack v value) (λ v', Capacity v ≤ Capacity v').
Proof.
  unfold PushBack. eapply steady_bind.
  { apply steady_grow_or_not; [|apply steady_EmplaceWithReallocate].
    eapply steady_seq; [apply steady_EmplaceWithoutReallocate|intros _].
    by apply steady_ret. }
  intros v1 Hv1. by apply steady_ret.
Qed.

Lemma steady_PushBack_move v value :
  steady (T:=T) (PushBack_move v value) (λ v', Capacity v ≤ Capacity v').
Proof.
  unfold PushBack_move. eapply steady_bind.
  { apply steady_grow_or_not; [|apply steady_EmplaceWithReallocate].
    eapply steady_seq; [apply steady_EmplaceWithoutReallocate|intros _].
    by apply steady_ret. }
  intros v1 Hv1. by apply steady_ret.
Qed.

Lemma steady_insert v i :
  steady (T:=T) (insert v i) (λ v', Capacity v ≤ Capacity v').
Proof.
  destruct i; simpl; unfold EmplaceBack, Insert, Insert_move;
    (apply steady_PushBack || apply steady_PushBack_move || idtac).
  all: eapply steady_bind; [apply steady_Emplace|]; intros r Hr; by apply steady_ret.
Qed.

Lemma steady_Erase v pos :
  steady (T:=T) (Erase v pos) (λ r, Capacity v ≤ Capacity r.1).
Proof.
  unfold Erase. eapply steady_seq; [apply steady_distance|intros d].
  eapply steady_seq; [apply steady_assert|intros _].
  eapply steady_seq.
  { destruct is_move_assignable; apply steady_for_range; intros i; steady_auto. }
  intros _. steady_auto.
Qed.

Lemma steady_PopBack v : steady (T:=T) (PopBack v) (λ v', Capacity v ≤ Capacity v').
Proof. unfold PopBack. steady_auto. Qed.

Lemma steady_Reserve v n :
  steady (T:=T) (Reserve v n)
    (λ v', Capacity v ≤ Capacity v' ∧ n ≤ Capacity v' ∧ size_ v' = size_ v).
Proof.
  unfold Reserve, Capacity, RawMemory_Capacity. case_decide.
  { apply steady_ret. lia. }
  eapply steady_bind; [apply steady_RawMemory_ctor|intros r Hr].
  eapply steady_seq.
  { eapply steady_unwinding; [|apply steady_RawMemory_dtor]. steady_auto. }
  intros _. simpl. eapply steady_seq; [apply steady_RawMemory_dtor|intros _].
  apply steady_ret. simpl in *. lia.
Qed.

Lemma steady_Resize v n :
  steady (T:=T) (Resize v n) (λ v', Capacity v ≤ Capacity v').
Proof.
  unfold Resize. eapply steady_bind with (P1 := λ v', Capacity v ≤ Capacity v').
  - case_decide.
    + steady_auto.
    + eapply steady_bind; [apply steady_Reserve|intros v' (Hv' & _ & _)].
      steady_auto.
  - intros v1 Hv1. by apply steady_ret.
Qed.

Lemma steady_Vector_ctor_copy other :
  steady (T:=T) (Vector_ctor_copy other) (λ v', Capacity v' = Size other).
Proof.
  unfold Vector_ctor_copy.
  eapply steady_bind; [apply steady_RawMemory_ctor|intros r Hr].
  eapply steady_seq.
  { eapply steady_unwinding; [|apply steady_RawMemory_dtor]. steady_auto. }
  intros _. by apply steady_ret.
Qed.

Lemma steady_Vector_dtor v : steady (T:=T) (Vector_dtor v) any.
Proof. unfold Vector_dtor. steady_auto. Qed.

Lemma capacities_kept_refl w : capacities_kept w w.
Proof. intros o v Hv. exists v. split; [done|lia]. Qed.

Lemma capacities_kept_vecs w0 w w' :
  capacities_kept w0 w → vecs w' = vecs w → capacities_kept w0 w'.
Proof. intros Hk Heq o v Hv. rewrite Heq. by apply Hk. Qed.

Lemma keeps_ret {A} w0 (a : A) : keeps_capacities w0 (ret a).
Proof. by intros w Hw. Qed.

Lemma keeps_bind {A B} w0 (m : M T A) (f : A → M T B) :
  keeps_capacities w0 m → (∀ a, keeps_capacities w0 (f a)) →
  keeps_capacities w0 (bind m f).
Proof.
  intros Hm Hf w Hw. unfold bind. specialize (Hm w Hw).
  destruct (m w) as [a w1|w1|]; [|done..]. by apply Hf.
Qed.

Lemma keeps_steady {A B} w0 (m : M T A) (f : A → M T B) (P : A → Prop) :
  steady m P → (∀ a, P a → keeps_capacities w0 (f a)) →
  keeps_capacities w0 (bind m f).
Proof.
  intros Hm Hf w Hw. unfold bind. specialize (Hm w).
  destruct (m w) as [a w1|w1|]; [| |done].
  - destruct Hm as [Hv Ha]. apply (Hf a Ha). by eapply capacities_kept_vecs.
  - by eapply capacities_kept_vecs.
Qed.

Lemma keeps_steady_end {A} w0 (m : M T A) (P : A → Prop) :
  steady m P → keeps_capacities w0 m.
Proof.
  intros Hm w Hw. specialize (Hm w).
  destruct (m w) as [a w1|w1|]; [| |done].
  - destruct Hm. by eapply capacities_kept_vecs.
  - by eapply capacities_kept_vecs.
Qed.

Lemma keeps_getv {B} w0 o (f : Vector → M T B) :
  (∀ t, (∀ v0, vecs w0 !! o = Some v0 → Capacity v0 ≤ Capacity t) →
        keeps_capacities w0 (f t)) →
  keeps_capacities w0 (bind (getv o) f).
Proof.
  intros Hf w Hw. unfold bind, getv.
  destruct (vecs w !! o) as [t|] eqn:Ht; [|done].
  apply Hf; [|done]. intros v0 Hv0.
  destruct (Hw o v0 Hv0) as (t' & Ht' & Hle). congruence.
Qed.

Lemma keeps_setv w0 o t :
  (∀ v0, vecs w0 !! o = Some v0 → Capacity v0 ≤ Capacity t) →
  keeps_capacities w0 (setv o t).
Proof.
  intros Ht w Hw o' v0 Hv0. simpl.
  destruct (decide (o' = o)) as [->|Hne].
  - exists t. rewrite lookup_insert_eq. auto.
  - rewrite lookup_insert_ne by done. by apply Hw.
Qed.

Lemma keeps_call w0 o (f : Vector → M T Vector) :
  (∀ v, steady (f v) (λ v', Capacity v ≤ Capacity v')) →
  keeps_capacities w0 (call o f).
Proof.
  intros Hf. unfold call. apply keeps_getv. intros t Ht.
  eapply keeps_steady; [apply Hf|]. intros t' Ht'. simpl in Ht'.
  apply keeps_setv. intros v0 Hv0. specialize (Ht v0 Hv0). lia.
Qed.

Lemma keeps_Vector_assign_copy w0 this rhs :
  keeps_capacities w0 (Vector_assign_copy this rhs).
Proof.
  unfold Vector_assign_copy. case_decide; [|apply keeps_ret].
  apply keeps_getv. intros t Ht.
  apply keeps_getv. intros r _.
  case_decide as Hsmall.
  - eapply keeps_steady; [apply steady_Vector_ctor_copy|]. intros rhs_copy Hcopy.
    simpl in *. apply keeps_bind.
    + apply keeps_setv. intros v0 Hv0. specialize (Ht v0 Hv0).
      unfold Capacity, RawMemory_Capacity in *. simpl. lia.
    + intros _. eapply keeps_steady_end, steady_Vector_dtor.
  - eapply keeps_steady with (P := any).
    { case_decide; steady_auto. }
    intros _ _. eapply keeps_steady; [apply steady_copy_n|]. intros _ _.
    apply keeps_setv. intros v0 Hv0. by apply Ht.
Qed.

Lemma keeps_perform w0 op : exchanges op = false → keeps_capacities w0 (perform op).
Proof.
  destruct op; simpl; intros Hop; try done.
  - apply keeps_call. intros v. apply steady_insert.
  - apply keeps_call. intros v.
    eapply steady_bind; [apply steady_Erase|]. intros r Hr. by apply steady_ret.
  - apply keeps_call. apply steady_PopBack.
  - apply keeps_call. intros v. apply steady_Resize.
  - apply keeps_call. intros v.
    eapply steady_mono; [apply steady_Reserve|]. by intros v' (? & _).
  - apply keeps_Vector_assign_copy.
Qed.

Lemma keeps_perform_all w0 ops :
  Forall (λ op, exchanges op = false) ops → keeps_capacities w0 (perform_all ops).
Proof.
  induction 1 as [|op ops Hop _ IH]; simpl; [apply keeps_ret|].
  apply keeps_bind; [by apply keeps_perform|auto].
Qed.

(** ** Observing a vector *)

Lemma holds_contents w v xs : holds (heap w) v xs → contents w v = Some xs.
Proof.
  intros Hv. unfold contents. apply mapM_Some_2.
  destruct Hv as (Hsz & Hrest). rewrite Hsz.
  apply Forall2_same_length_lookup_2; [by rewrite length_seq|].
  intros i j x Hj Hx. apply lookup_seq in Hj as [-> _]. simpl.
  unfold slot_at. by rewrite (holds_slot (heap w) v xs i x).
Qed.

Lemma holds_frame h h' v xs :
  holds h v xs → h' !! buffer_ (data_ v) = h !! buffer_ (data_ v) → holds h' v xs.
Proof.
  intros (Hsz & Hle & Hblk) Heq. repeat split; [done..|].
  case_decide; [done|]. by rewrite Heq.
Qed.

Lemma holds_intro h a cap xs :
  a ≠ null → length xs ≤ cap → cap ≠ 0 →
  h !! a = Some ((Some <$> xs) ++ replicate (cap - length xs) None) →
  holds h (mkVector (mkRawMemory a cap) (length xs)) xs.
Proof. intros Ha Hle Hcap Hb. repeat split; [done|]. simpl. by rewrite decide_False. Qed.

Lemma length_inserted {A} (xs : list A) x d :
  length (take d xs ++ x :: drop d xs) = S (length xs).
Proof. rewrite length_app. simpl. rewrite length_take, length_drop. lia. Qed.

(** ** Outcomes *)

Lemma wp_Throw {A} (m : M T A) w E :
  wp m w (λ _ _, False) E → ∃ w', m w = Throw w' ∧ E w'.
Proof. unfold wp. destruct (m w) as [a w'|w'|]; [done|eauto|done]. Qed.

Lemma wp_getv o v w Q E :
  vecs w !! o = Some v → Q v w → wp (getv o) w Q E.
Proof. intros Hv HQ. unfold wp, getv. by rewrite Hv. Qed.

Lemma wp_returns {A} (m : M T A) w Q :
  wp m w Q (λ _, False) → ∃ a w', m w = Ok a w' ∧ Q a w'.
Proof. unfold wp. destruct (m w) as [a w'|w'|]; [eauto|done..]. Qed.

(** ** Sizes that the caller supplies *)

(** When the byte size does not wrap, the block has room for the objects
    asked for, and the functions of [Machine] are those of [Model]. *)
Lemma slots_fits n : Machine.fits n → Machine.slots n = n.
Proof.
  unfold Machine.fits, Machine.slots, Machine.bytes, Machine.SIZE_MAX. intros Hn.
  pose proof (sizeof_pos (T:=T)) as Hpos.
  rewrite Z.mod_small by lia. rewrite Z.div_mul by lia. apply Nat2Z.id.
Qed.

(** When it wraps, the block is too small for the capacity that the
    [RawMemory] records. *)
Lemma slots_wrapped n : ¬ Machine.fits n → Machine.slots n < n.
Proof.
  unfold Machine.fits, Machine.slots, Machine.bytes, Machine.SIZE_MAX. intros Hn.
  pose proof (sizeof_pos (T:=T)) as Hpos.
  pose proof (Z.mod_pos_bound (Z.of_nat n * Z.of_nat sizeof) (2 ^ 64 - 1 + 1)%Z) as Hb.
  apply Nat2Z.inj_lt. rewrite Z2Nat.id by (apply Z.div_pos; lia).
  apply Z.div_lt_upper_bound; lia.
Qed.

Lemma Allocate_fits n : Machine.fits n → Machine.Allocate n = Allocate n.
Proof. intros Hn. unfold Machine.Allocate, Allocate. by rewrite slots_fits. Qed.

Lemma RawMemory_ctor_fits n : Machine.fits n → Machine.RawMemory_ctor n = RawMemory_ctor n.
Proof. intros Hn. unfold Machine.RawMemory_ctor, RawMemory_ctor. by rewrite Allocate_fits. Qed.

Lemma Vector_ctor_size_fits n :
  Machine.fits n → Machine.Vector_ctor_size n = Vector_ctor_size n.
Proof.
  intros Hn. unfold Machine.Vector_ctor_size, Vector_ctor_size.
  by rewrite RawMemory_ctor_fits.
Qed.

Lemma Reserve_fits v n : Machine.fits n → Machine.Reserve v n = Reserve v n.
Proof. intros Hn. unfold Machine.Reserve, Reserve. by rewrite RawMemory_ctor_fits. Qed.

Lemma Resize_fits v n : Machine.fits n → Machine.Resize v n = Resize v n.
Proof.
  intros Hn. unfold Machine.Resize, Resize.
  case_decide; [done|]. by rewrite Reserve_fits.
Qed.

(** ** The claims *)

(** C10. Self-assignment is a no-op: copy-assigning or move-assigning a
    vector object to itself returns at once and leaves the whole state,
    hence the size, capacity and contents of the vector, unchanged. *)
Theorem C10_self_assignment_is_noop (w : world T) (o : nat) :
  Vector_assign_copy o o w = Ok () w ∧ Vector_assign_move o o w = Ok () w.
Proof.
  unfold Vector_assign_copy, Vector_assign_move.
  by rewrite !decide_False by (by intros Hne).
Qed.

(** C8. [Resize(0)] on a non-empty vector destroys every element (one
    destructor call per element, every slot of the buffer is raw storage
    afterwards), sets the size to 0 and keeps the buffer, hence the
    capacity, exactly as it was. *)
Theorem C8_Resize_0_keeps_capacity (w : world T) (v : Vector) (xs : list T) :
  holds (heap w) v xs → xs ≠ [] →
  ∃ v' w', Resize v 0 w = Ok v' w' ∧
    Size v' = 0 ∧ Capacity v' = Capacity v ∧ data_ v' = data_ v ∧
    trace w' = trace w ++ replicate (length xs) EvDtor ∧
    heap w' !! buffer_ (data_ v) = Some (replicate (Capacity v) None) ∧
    contents w' v' = Some [].
Proof.
  intros Hv Hne. destruct w as [h nx c tr rs vs], v as [[a cap] n].
  destruct Hv as (Hsz & Hle & Hblk). simpl in *. subst n.
  assert (length xs ≠ 0) as Hlen by (by destruct xs).
  rewrite decide_False in Hblk by lia. destruct Hblk as [Ha Hb].
  apply wp_returns.
  unfold Resize, Capacity, RawMemory_Capacity, RawMemory_GetAddress, ptr_add. simpl.
  rewrite !decide_True by lia. apply wp_bind, wp_bind. rewrite Nat.sub_0_r.
  eapply (wp_destroy_n_len (length xs) xs a 0 []); [done|exact Hb|done|].
  apply wp_ret, wp_ret. simpl. repeat split.
  rewrite lookup_insert_eq, <- replicate_add. do 2 f_equal. lia.
Qed.

(** C6. When an insertion (Emplace, EmplaceBack, Insert, PushBack) finds
    the vector full, so that the new size would exceed the capacity, the
    buffer it allocates has capacity [max 1 (2 * oldSize)]: 1 for an empty
    vector, twice the size otherwise. *)
Theorem C6_implicit_growth_doubles
    (w : world T) (v : Vector) (xs : list T) (i : insertion T) (x : T) :
  holds (heap w) v xs →
  fresh (heap w) (next_addr w) →
  insertion_index v i ≤ length xs →
  arg_value (heap w) v (insertion_args i) x →
  Capacity v < Size v + 1 →
  copies_quiet (copies w) (copied_by_make (insertion_args i) x ++ copied_by_relocation xs) →
  ∃ v' w', insert v i w = Ok v' w' ∧
    Capacity v' = 1 `max` (2 * Size v) ∧
    (Size v = 0 → Capacity v' = 1) ∧ (Size v ≠ 0 → Capacity v' = 2 * Size v) ∧
    length <$> heap w' !! buffer_ (data_ v') = Some (Capacity v') ∧
    buffer_ (data_ v') = next_addr w.
Proof.
  intros Hv Hfr Hd Harg Hfull Hq.
  destruct w as [h nx c tr rs vs], v as [[a cap] n].
  pose proof Hv as (Hsz & Hle & Hblk). simpl in *. subst n.
  unfold Capacity, RawMemory_Capacity, Size in *. simpl in *.
  apply wp_returns. eapply wp_insert_grow; try done; [lia| |].
  - intros _. simpl. rewrite lookup_insert_eq. simpl.
    rewrite length_app, length_fmap, length_inserted, length_replicate.
    destruct (decide (length xs = 0)) as [Hz|Hnz]; repeat split; try (f_equal; lia); lia.
  - intros Hth. by apply copies_throw_quiet in Hq.
Qed.

(** C5. Relocation into a new buffer, by [Reserve] with a larger capacity
    and by an insertion into a full vector, constructs every element in
    the new buffer with the move constructor if [T]'s move constructor is
    [noexcept] or [T] is not copy-constructible, and with the copy
    constructor otherwise; the originals are then destroyed.  No
    assignment of [T] takes place.  The elements arrive in the new buffer
    in their order, around the new element in the case of an insertion,
    and the old buffer is released.  When the new element is constructed
    from an rvalue reference to an element of the vector itself, that
    element is relocated in its moved-from state.  The capacity asked of
    [Reserve] is one whose byte size does not wrap. *)
Theorem C5_relocation_policy (w : world T) (v : Vector) (xs : list T) :
  holds (heap w) v xs →
  fresh (heap w) (next_addr w) →
  let relocation :=
    if is_nothrow_move_constructible || negb is_copy_constructible
    then EvMoveCtor else EvCopyCtor in
  (∀ n, Capacity v < n → Machine.fits n →
     copies_quiet (copies w) (copied_by_relocation xs) →
     ∃ v' w', Machine.Reserve v n w = Ok v' w' ∧
       buffer_ (data_ v') = next_addr w ∧ Capacity v' = n ∧
       holds (heap w') v' xs ∧
       heap w' !! buffer_ (data_ v) = None ∧
       trace w' = trace w ++ replicate (length xs) relocation ++
                             replicate (length xs) EvDtor) ∧
  (∀ i x, insertion_index v i ≤ length xs →
     arg_value (heap w) v (insertion_args i) x →
     Capacity v < Size v + 1 →
     copies_quiet (copies w) (copied_by_make (insertion_args i) x ++ copied_by_relocation xs) →
     ∃ v' w', insert v i w = Ok v' w' ∧
       buffer_ (data_ v') = next_addr w ∧
       holds (heap w') v'
         (take (insertion_index v i) xs ++ x :: drop (insertion_index v i) xs) ∧
       heap w' !! buffer_ (data_ v) = None ∧
       trace w' = trace w ++ ctor_event (insertion_args i) ::
                    replicate (length xs) relocation ++ replicate (length xs) EvDtor) ∧
  (∀ i k x, insertion_index v i ≤ length xs →
     insertion_args i = MoveOf (InBuffer (buffer_ (data_ v), k)) →
     xs !! k = Some x →
     Capacity v < Size v + 1 →
     let xs' := <[k := moved_from x]> xs in
     copies_quiet (copies w) (copied_by_relocation xs') →
     ∃ v' w', insert v i w = Ok v' w' ∧
       buffer_ (data_ v') = next_addr w ∧
       holds (heap w') v'
         (take (insertion_index v i) xs' ++ x :: drop (insertion_index v i) xs') ∧
       heap w' !! buffer_ (data_ v) = None ∧
       trace w' = trace w ++ EvMoveCtor ::
                    replicate (length xs) relocation ++ replicate (length xs) EvDtor).
Proof.
  intros Hv Hfr relocation.
  destruct w as [h nx c tr rs vs], v as [[a cap] n].
  pose proof Hv as (Hsz & Hle & Hblk). simpl in *. subst n.
  pose proof Hfr as (Hnx & _).
  assert (a ≠ nx) as Hanx.
  { intros ->. destruct (decide (cap = 0)); [congruence|].
    destruct Hblk as [_ Hb]. by rewrite (fresh_unused _ _ Hfr) in Hb. }
  unfold Capacity, RawMemory_Capacity, Size in *. simpl in *. split; [|split].
  - intros n Hn Hfits Hq. rewrite Reserve_fits by done.
    apply wp_returns. eapply wp_Reserve; try done.
    + intros _. simpl. do 2 (split; [done|]). split; [|split; [|done]].
      * apply holds_intro; [done|lia|lia|]. by rewrite lookup_insert_eq.
      * rewrite lookup_insert_ne by done. apply lookup_delete_eq.
    + intros Hth. by apply copies_throw_quiet in Hq.
  - intros i x Hd Harg Hfull Hq. apply wp_returns.
    eapply wp_insert_grow; try done; [lia| |].
    + intros _. simpl. split; [done|]. split; [|split; [|done]].
      * set (d := insertion_index _ i) in *.
        rewrite Nat.add_1_r, <- (length_inserted xs x d).
        apply holds_intro;
          [done|rewrite length_inserted; destruct (decide (length xs = 0)); lia
          |destruct (decide (length xs = 0)); lia|].
        by rewrite lookup_insert_eq.
      * rewrite lookup_insert_ne by done. apply lookup_delete_eq.
    + intros Hth. by apply copies_throw_quiet in Hq.
  - (* the new element is moved out of an element of the vector *)
    intros i k x Hd Hargs Hk Hfull Hq.
    set (xs' := <[k := moved_from x]> xs) in *.
    assert (length xs' = length xs) as Hlen by apply length_insert.
    assert (cap = length xs) as -> by lia.
    assert (length xs ≠ 0) as Hne by (by destruct xs).
    rewrite decide_False, Nat.sub_diag, app_nil_r in Hblk by done.
    destruct Hblk as [Hanull Ha].
    assert ((Some <$> xs) !! k = Some (Some x)) as Hslot by (by rewrite list_lookup_fmap, Hk).
    destruct (insert_own_element (mkVector (mkRawMemory a (length xs)) (length xs)) i k x
                (Some <$> xs) h nx c tr rs vs Hargs
                ltac:(unfold Capacity, RawMemory_Capacity; simpl; lia) Hanx Ha Hslot)
      as (i' & Hargs' & Hidx & ->).
    simpl in Hidx |- *. rewrite <- Hidx.
    rewrite <- list_fmap_insert. fold xs'.
    set (h1 := <[a := Some <$> xs']> h).
    assert (holds h1 (mkVector (mkRawMemory a (length xs')) (length xs')) xs') as Hv1.
    { apply holds_intro; [done|lia|lia|].
      unfold h1. by rewrite lookup_insert_eq, Nat.sub_diag, app_nil_r. }
    assert (fresh h1 nx) as Hfr1.
    { destruct Hfr as (_ & Hnull & Hbelow). split; [done|]. split.
      - unfold h1. by rewrite lookup_insert_ne.
      - apply map_Forall_insert_2; [by apply Hbelow in Ha|done]. }
    assert (insertion_index (mkVector (mkRawMemory a (length xs')) (length xs')) i' =
            insertion_index (mkVector (mkRawMemory a (length xs)) (length xs)) i') as Hidx'
      by (by rewrite Hlen).
    rewrite <- Hlen. apply wp_returns.
    eapply (wp_insert_grow a (length xs') xs' i' x h1);
      [exact Hv1|lia|exact Hfr1|rewrite Hidx', Hidx; lia|rewrite Hargs'; constructor| |].
    + intros _. rewrite Hargs', Hidx'. simpl. split; [done|]. split; [|split].
      * set (d := insertion_index _ i') in *.
        rewrite Nat.add_1_r, <- (length_inserted xs' x d).
        apply holds_intro;
          [done|rewrite length_inserted; destruct (decide (length xs' = 0)); lia
          |destruct (decide (length xs' = 0)); lia|].
        by rewrite lookup_insert_eq.
      * rewrite lookup_insert_ne by done. apply lookup_delete_eq.
      * by rewrite Hlen.
    + intros Hth. rewrite Hargs' in Hth. by apply copies_throw_quiet in Hq.
Qed.

(** C9. Inserting a copy of an element of the vector itself,
    [v.Insert(pos, v[k])], inserts the value that [v[k]] had before the
    call and shifts the other elements: the argument is read before any
    element is shifted (in place) or relocated (on reallocation). *)
Theorem C9_insert_of_own_element
    (w : world T) (v : Vector) (xs : list T) (pos k : nat) (x : T) :
  holds (heap w) v xs →
  fresh (heap w) (next_addr w) →
  pos ≤ length xs →
  xs !! k = Some x →
  quiet_from (copies w) →
  ∃ v' it w',
    Insert v (cbegin v +ₚ pos) (InBuffer (buffer_ (data_ v), k)) w = Ok (v', it) w' ∧
    Emplace v (cbegin v +ₚ pos) (CopyOf (InBuffer (buffer_ (data_ v), k))) w = Ok (v', it) w' ∧
    contents w' v' = Some (take pos xs ++ x :: drop pos xs) ∧
    Size v' = Size v + 1 ∧
    it = begin_ v' +ₚ pos ∧
    (Size v < Capacity v → data_ v' = data_ v) ∧
    (Capacity v ≤ Size v → buffer_ (data_ v') = next_addr w).
Proof.
  intros Hv Hfr Hpos Hk Hquiet.
  assert (arg_value (heap w) v (CopyOf (InBuffer (buffer_ (data_ v), k))) x) as Harg
    by (constructor; by eapply holds_slot).
  destruct w as [h nx c tr rs vs], v as [[a cap] n].
  pose proof Hv as (Hsz & Hle & Hblk). simpl in *. subst n.
  unfold Insert, Capacity, RawMemory_Capacity, Size, cbegin, begin_, RawMemory_GetAddress,
    ptr_add in *. simpl in *.
  enough (∃ r w', Emplace {| data_ := {| buffer_ := a; capacity_ := cap |};
                             size_ := length xs |} (a, pos)
                    (CopyOf (InBuffer (a, k))) (World h nx c tr rs vs) = Ok r w' ∧
            contents w' r.1 = Some (take pos xs ++ x :: drop pos xs) ∧
            size_ r.1 = length xs + 1 ∧ r.2 = (buffer_ (data_ r.1), pos) ∧
            (length xs < cap → data_ r.1 = mkRawMemory a cap) ∧
            (cap ≤ length xs → buffer_ (data_ r.1) = nx))
    as ([v' it] & w' & Hrun & Hc & Hs & Hit & Hroom & Hgrow).
  { exists v', it, w'. simpl in *. repeat split; assumption. }
  apply wp_returns. destruct (decide (length xs < cap)) as [Hroom|Hfull].
  - eapply wp_Emplace_room; try done.
    + intros _ tr'. simpl. repeat split; try done; try (intros; lia).
      apply holds_contents. simpl. rewrite Nat.add_1_r, <- (length_inserted xs x pos).
      rewrite decide_False in Hblk by lia.
      apply holds_intro; [tauto|rewrite length_inserted; lia|lia|].
      by rewrite lookup_insert_eq.
    + intros Hth. exfalso. eapply copies_throw_quiet; [|exact Hth].
      by apply copies_quiet_from.
  - eapply wp_Emplace_grow; try done; [lia| |].
    + intros _. simpl. repeat split; try done; try (intros; lia).
      apply holds_contents. simpl. rewrite Nat.add_1_r, <- (length_inserted xs x pos).
      destruct Hfr as (Hnx & _).
      apply holds_intro;
        [done|rewrite length_inserted; destruct (decide (length xs = 0)); lia
        |destruct (decide (length xs = 0)); lia|].
      by rewrite lookup_insert_eq.
    + intros Hth. exfalso. eapply copies_throw_quiet; [|exact Hth].
      by apply copies_quiet_from.
Qed.

(** C4 (amended). When a copy constructor call throws during an insertion
    that reallocates, the exception leaves the call and the vector has the
    size, the capacity and the elements it had before the call, provided
    the new element is not moved out of an element of the vector itself
    ([arg_value]). *)
Theorem C4_throwing_copy_leaves_vector_unchanged
    (w : world T) (o : nat) (v : Vector) (xs : list T) (i : insertion T) (x : T) :
  vecs w !! o = Some v →
  holds (heap w) v xs →
  fresh (heap w) (next_addr w) →
  insertion_index v i ≤ length xs →
  arg_value (heap w) v (insertion_args i) x →
  Capacity v < Size v + 1 →
  copies_throw (copies w) (copied_by_make (insertion_args i) x ++ copied_by_relocation xs) →
  ∃ w', perform (OpInsertion o i) w = Throw w' ∧
    size_of w' o = Some (length xs) ∧
    capacity_of w' o = Some (Capacity v) ∧
    contents_of w' o = Some xs ∧
    size_of w o = Some (length xs) ∧
    capacity_of w o = Some (Capacity v) ∧
    contents_of w o = Some xs.
Proof.
  intros Ho Hv Hfr Hd Harg Hfull Hth.
  assert (size_of w o = Some (length xs) ∧ capacity_of w o = Some (Capacity v) ∧
          contents_of w o = Some xs) as Hbefore.
  { unfold size_of, capacity_of, contents_of. rewrite Ho. simpl.
    rewrite (holds_contents w v xs Hv). destruct Hv as (Hsz & _).
    unfold Size. by rewrite Hsz. }
  assert (holds (heap_after_make (insertion_args i) (heap w)) v xs) as Hv'.
  { eapply holds_frame; [exact Hv|].
    apply (heap_after_make_lookup_ne (heap w) v _ x); [done|by left]. }
  destruct w as [h nx c tr rs vs], v as [[a cap] n].
  pose proof Hv as (Hsz & Hle & Hblk). simpl in *. subst n.
  unfold Capacity, RawMemory_Capacity, Size in *. simpl in *.
  enough (∃ w', call o (λ v, insert v i) (World h nx c tr rs vs) = Throw w' ∧
            size_of w' o = Some (length xs) ∧ capacity_of w' o = Some cap ∧
            contents_of w' o = Some xs) as (w' & ? & ? & ? & ?).
  { exists w'. tauto. }
  apply wp_Throw. unfold call. apply wp_bind. eapply wp_getv; [exact Ho|].
  apply wp_bind. eapply wp_insert_grow; try done; [lia| |].
  - intros Hq. by apply copies_throw_quiet in Hq.
  - intros _ c' tr'. unfold size_of, capacity_of, contents_of. simpl. rewrite Ho. simpl.
    by rewrite (holds_contents (World _ (S nx) c' tr' rs vs) _ xs Hv').
Qed.

(** C1 (amended). Move-construction from a vector [s] holding [xs] leaves
    [s] empty (size 0, capacity 0) and the new vector holding [xs].
    Move-assignment of [s] into another vector [o] leaves [o] holding
    [xs]; [s] is left empty when the capacity of [o] was smaller than the
    size of [s], and otherwise holds the former elements of [o]. *)
Theorem C1_move_hands_over_the_elements
    (w : world T) (s : nat) (vs_ : Vector) (xs : list T) :
  vecs w !! s = Some vs_ →
  holds (heap w) vs_ xs →
  (∀ o, vecs w !! o = None →
     ∃ w', declare_moved o s w = Ok () w' ∧
       contents_of w' o = Some xs ∧
       size_of w' s = Some 0 ∧ capacity_of w' s = Some 0 ∧ contents_of w' s = Some []) ∧
  (∀ o vo xo, o ≠ s →
     vecs w !! o = Some vo →
     holds (heap w) vo xo →
     (Capacity vo ≠ 0 → buffer_ (data_ vo) ≠ buffer_ (data_ vs_)) →
     ∃ w', Vector_assign_move o s w = Ok () w' ∧
       contents_of w' o = Some xs ∧
       if decide (Capacity vo < length xs)
       then size_of w' s = Some 0 ∧ capacity_of w' s = Some 0 ∧ contents_of w' s = Some []
       else contents_of w' s = Some xo ∧ capacity_of w' s = Some (Capacity vo)).
Proof.
  intros Hs Hv. destruct w as [h nx c tr rs vs], vs_ as [[b bcap] n].
  pose proof Hv as (Hsz & _). simpl in *. subst n. split.
  - intros o Ho.
    assert (o ≠ s) as Hne by congruence.
    unfold declare_moved. simpl. rewrite Ho. unfold bind, getv. simpl. rewrite Hs. simpl.
    eexists. split; [done|].
    unfold contents_of, size_of, capacity_of. simpl.
    rewrite lookup_insert_eq, lookup_insert_ne, lookup_insert_eq by done. simpl.
    by rewrite (holds_contents (World h nx c tr rs _) _ xs Hv).
  - intros o [[a acap] m] xo Hne Ho Hvo Hsep.
    pose proof Hvo as (Hszo & Hleo & Hblko). simpl in *. subst m.
    unfold Capacity, RawMemory_Capacity, Size in *. simpl in *.
    unfold Vector_assign_move. rewrite decide_True by done.
    unfold bind at 1, getv at 1. simpl. rewrite Ho.
    unfold bind at 1, getv at 1. simpl. rewrite Hs.
    unfold Size, RawMemory_Capacity. simpl.
    destruct (decide (acap < length xs)) as [Hsmall|Hlarge].
    + (* through a temporary: the old buffer of [o] is destroyed *)
      simpl.
      enough (∃ w',
          Vector_dtor (mkVector (mkRawMemory a acap) (length xo))
            (World h nx c tr rs
               (<[o := mkVector (mkRawMemory b bcap) (length xs)]>
                  (<[s := mkVector (mkRawMemory null 0) 0]> vs))) = Ok () w' ∧
          vecs w' = <[o := mkVector (mkRawMemory b bcap) (length xs)]>
                      (<[s := mkVector (mkRawMemory null 0) 0]> vs) ∧
          heap w' !! b = h !! b) as (w' & Hrun & Hvecs & Hheap).
      { exists w'. unfold bind, setv. simpl. split; [exact Hrun|].
        unfold contents_of, size_of, capacity_of. rewrite Hvecs.
        rewrite lookup_insert_eq, lookup_insert_ne, lookup_insert_eq by done. simpl.
        split; [|done]. apply holds_contents. by eapply holds_frame. }
      assert (∃ u w', Vector_dtor (mkVector (mkRawMemory a acap) (length xo))
            (World h nx c tr rs
               (<[o := mkVector (mkRawMemory b bcap) (length xs)]>
                  (<[s := mkVector (mkRawMemory null 0) 0]> vs))) = Ok u w' ∧
          (vecs w' = <[o := mkVector (mkRawMemory b bcap) (length xs)]>
                      (<[s := mkVector (mkRawMemory null 0) 0]> vs) ∧
           heap w' !! b = h !! b)) as ([] & w' & Hrun).
      { apply wp_returns. unfold Vector_dtor, RawMemory_dtor, RawMemory_GetAddress. simpl.
        destruct (decide (acap = 0)) as [->|Hcap].
        - assert (length xo = 0) as -> by lia. subst a. simpl.
          by apply wp_bind, wp_ret, wp_Deallocate_null.
        - destruct Hblko as [Ha Hb]. apply wp_bind.
          eapply (wp_destroy_n_len (length xo) xo a 0 []); [done|exact Hb|done|].
          eapply wp_Deallocate; [done|apply lookup_insert_eq|].
          simpl. split; [done|].
          rewrite lookup_delete_ne, lookup_insert_ne; auto. }
      by exists w'.
    + (* the two vectors are swapped *)
      simpl. eexists. split; [done|].
      unfold contents_of, size_of, capacity_of. simpl.
      rewrite lookup_insert_ne, lookup_insert_eq, lookup_insert_eq by done. simpl.
      rewrite (holds_contents (World h nx c tr rs _) _ xs Hv).
      by rewrite (holds_contents (World h nx c tr rs _) _ xo Hvo).
Qed.

(** C3 (amended). Across any sequence of insertions, [Erase], [PopBack],
    [Resize], [Reserve] and copy assignments, no vector object ever has
    less capacity than before, also when one of the operations throws.
    ([Swap] and move assignment are excluded: they hand a vector the
    buffer, and so the capacity, of another one.) *)
Theorem C3_capacity_never_decreases (ops : list (operation T)) (w : world T) :
  Forall (λ op, exchanges op = false) ops →
  match perform_all ops w with
  | Ok _ w' | Throw w' => capacities_kept w w'
  | UB => True
  end.
Proof.
  intros Hops. apply (keeps_perform_all w ops Hops w), capacities_kept_refl.
Qed.

(** ** [RawMemory]: moves *)

(** The move constructor transfers the allocation and leaves the source
    null with capacity 0. *)
Lemma RawMemory_ctor_move_spec (r : RawMemory) :
  RawMemory_ctor_move r =
    (mkRawMemory (buffer_ r) (capacity_ r), mkRawMemory null 0).
Proof. done. Qed.

(** Move assignment between two different objects transfers the
    allocation of the source, releases the allocation of the destination,
    and leaves the source with capacity 0 and with the address that the
    destination had. *)
Lemma RawMemory_assign_move_spec (w : world T) (this rhs : nat) (t r : RawMemory) b :
  this ≠ rhs →
  raws w !! this = Some t → raws w !! rhs = Some r →
  buffer_ t ≠ null → heap w !! buffer_ t = Some b →
  ∃ w', RawMemory_assign_move this rhs w = Ok () w' ∧
    raws w' !! this = Some (mkRawMemory (buffer_ r) (capacity_ r)) ∧
    raws w' !! rhs = Some (mkRawMemory (buffer_ t) 0) ∧
    heap w' = delete (buffer_ t) (heap w).
Proof.
  intros Hne Ht Hr Hnull Hb. destruct w as [h nx c tr rs vs]. simpl in *.
  unfold RawMemory_assign_move. rewrite decide_True by done.
  unfold bind, get_raw, Deallocate, set_raw. simpl.
  rewrite Ht. rewrite decide_False by done. simpl. rewrite Hb. simpl.
  rewrite lookup_insert_eq. simpl. rewrite lookup_insert_ne, Hr by done. simpl.
  eexists. split; [done|]. simpl.
  by rewrite lookup_insert_ne, lookup_insert_eq, lookup_insert_eq by done.
Qed.

End Proofs.

(** * The claims on concrete vectors *)

Section Ints.
#[local] Existing Instance int_Element.

(** C7. The scenario on a vector of [int]: three [PushBack]s give size 3,
    capacity 4 (at least 3) and contents [1,2,3]; [Insert(begin+1, 99)]
    gives [1,99,2,3]; [Erase(begin+2)] gives [1,99,3]; [PopBack()] gives
    [1,99] and size 2.  The literal arguments are rvalues and select the
    [T&&] overloads. *)
Theorem C7_scenario :
  ∃ w1 w2 w3 w4 : world Z,
    declare 0 (ret Vector_default) initial = Ok () one_empty_vector ∧
    perform_all [OpInsertion 0 (DoPushBackMove (External 1%Z));
                 OpInsertion 0 (DoPushBackMove (External 2%Z));
                 OpInsertion 0 (DoPushBackMove (External 3%Z))] one_empty_vector = Ok () w1 ∧
    size_of w1 0 = Some 3 ∧ capacity_of w1 0 = Some 4 ∧ 3 ≤ 4 ∧
    contents_of w1 0 = Some [1; 2; 3]%Z ∧
    perform (OpInsertion 0 (DoInsertMove 1 (External 99%Z))) w1 = Ok () w2 ∧
    contents_of w2 0 = Some [1; 99; 2; 3]%Z ∧
    perform (OpErase 0 2) w2 = Ok () w3 ∧
    contents_of w3 0 = Some [1; 99; 3]%Z ∧
    perform (OpPopBack 0) w3 = Ok () w4 ∧
    contents_of w4 0 = Some [1; 99]%Z ∧ size_of w4 0 = Some 2.
Proof.
  do 4 eexists. split; [vm_compute; reflexivity|].
  split; [vm_compute; reflexivity|].
  do 4 (split; [vm_compute; (reflexivity || lia)|]).
  split; [vm_compute; reflexivity|]. split; [vm_compute; reflexivity|].
  split; [vm_compute; reflexivity|]. split; [vm_compute; reflexivity|].
  split; [vm_compute; reflexivity|]. split; vm_compute; reflexivity.
Qed.

End Ints.

(** C2. Move assignment of a [RawMemory] owning 3 slots at address 2 into
    one owning 2 slots at address 1: the destination takes over the
    allocation and the capacity of the source and the source gets capacity
    0, but the address stored in the source is not null: it is the
    address the destination has just released, and destroying the source
    releases it a second time. *)
Theorem C2_move_assignment_leaves_dangling_source :
  ∃ w' : world Z,
    RawMemory_assign_move 0 1 two_raws = Ok () w' ∧
    raws w' !! 0 = Some (mkRawMemory 2 3) ∧
    raws w' !! 1 = Some (mkRawMemory 1 0) ∧
    1 ≠ null ∧
    heap w' !! 1 = None ∧
    RawMemory_destroy 1 w' = UB.
Proof.
  eexists. split; [vm_compute; reflexivity|].
  repeat split; try (vm_compute; reflexivity). done.
Qed.

Section Ints_witnesses.
#[local] Existing Instance int_Element.

(** Move assignment between two full one-element vectors swaps them: the
    source is not left empty. *)
Lemma C1_counterexample_source_not_empty :
  ∃ w' : world Z,
    contents_of two_vectors 1 = Some [1%Z] ∧
    Vector_assign_move 0 1 two_vectors = Ok () w' ∧
    contents_of w' 0 = Some [1%Z] ∧
    size_of w' 1 = Some 1 ∧ size_of w' 1 ≠ Some 0 ∧
    contents_of w' 1 = Some [7%Z].
Proof.
  eexists. split; [vm_compute; reflexivity|]. split; [vm_compute; reflexivity|].
  repeat split; try (vm_compute; reflexivity). vm_compute. discriminate.
Qed.

Lemma C1_witness :
  vecs two_vectors !! 1 = Some (mkVector (mkRawMemory 2 1) 1) ∧
  holds (heap two_vectors) (mkVector (mkRawMemory 2 1) 1) [1%Z] ∧
  (∃ w', declare_moved 2 1 two_vectors = Ok () w' ∧
     contents_of w' 2 = Some [1%Z] ∧ size_of w' 1 = Some 0 ∧ capacity_of w' 1 = Some 0) ∧
  (∃ w', Vector_assign_move 0 1 two_vectors = Ok () w' ∧ contents_of w' 0 = Some [1%Z]).
Proof.
  assert (vecs two_vectors !! 1 = Some (mkVector (mkRawMemory 2 1) 1)) as H1
    by (vm_compute; reflexivity).
  assert (holds (heap two_vectors) (mkVector (mkRawMemory 2 1) 1) [1%Z]) as H2
    by (split; [reflexivity|split; [simpl; lia|split; [discriminate|vm_compute; reflexivity]]]).
  destruct (C1_move_hands_over_the_elements two_vectors 1 _ _ H1 H2) as [Hctor Hassign].
  split; [exact H1|]. split; [exact H2|]. split.
  - destruct (Hctor 2) as (w' & ? & ? & ? & ? & ?); [vm_compute; reflexivity|].
    by exists w'.
  - destruct (Hassign 0 (mkVector (mkRawMemory 1 1) 1) [7%Z]) as (w' & ? & ? & ?).
    + done.
    + vm_compute; reflexivity.
    + split; [reflexivity|]. split; [simpl; lia|].
      split; [discriminate|vm_compute; reflexivity].
    + simpl. done.
    + by exists w'.
Defined.

(** Move assignment into a vector with spare capacity lowers its
    capacity from 4 to 1; so does [Swap]. *)
Lemma C3_counterexample_capacity_shrinks :
  ∃ w1 w2 : world Z,
    capacity_of roomy_and_small 0 = Some 4 ∧
    perform (OpAssignMove 0 1) roomy_and_small = Ok () w1 ∧
    capacity_of w1 0 = Some 1 ∧
    perform (OpSwap 0 1) roomy_and_small = Ok () w2 ∧
    capacity_of w2 0 = Some 1 ∧
    ¬ capacities_kept roomy_and_small w1.
Proof.
  do 2 eexists. split; [vm_compute; reflexivity|].
  split; [vm_compute; reflexivity|]. split; [vm_compute; reflexivity|].
  split; [vm_compute; reflexivity|]. split; [vm_compute; reflexivity|].
  intros Hk. destruct (Hk 0 (mkVector (mkRawMemory 1 4) 0)) as (v' & Hv' & Hle).
  { vm_compute; reflexivity. }
  vm_compute in Hv'; simplify_eq; vm_compute in Hle; lia.
Qed.

Lemma C3_witness :
  let ops := [OpInsertion 0 (DoPushBack (External 9%Z)); OpResize 0 0; OpReserve 0 10;
              OpAssignCopy 1 0; OpInsertion 1 (DoInsert 0 (External 4%Z));
              OpInsertion 1 (DoPushBackMove (External 5%Z)); OpErase 1 0; OpPopBack 1] in
  Forall (λ op, exchanges op = false) ops ∧
  ∃ w' : world Z,
    perform_all ops two_vectors = Ok () w' ∧
    capacities_kept two_vectors w' ∧
    capacity_of two_vectors 0 = Some 1 ∧ capacity_of w' 0 = Some 10.
Proof.
  intros ops.
  assert (Forall (λ op : operation Z, exchanges op = false) ops) as Hops
    by (repeat constructor).
  split; [exact Hops|].
  pose proof (C3_capacity_never_decreases ops two_vectors Hops) as Hk.
  destruct (perform_all ops two_vectors) as [[] w'|w'|] eqn:Hrun.
  - exists w'. split; [reflexivity|]. split; [exact Hk|].
    vm_compute in Hrun; simplify_eq; split; vm_compute; reflexivity.
  - vm_compute in Hrun. discriminate.
  - vm_compute in Hrun. discriminate.
Defined.

End Ints_witnesses.

Section Ints_more_witnesses.
#[local] Existing Instance int_Element.
#[local] Existing Instance int_Sized.

Lemma holds_three_of_four :
  holds (heap three_of_four) (mkVector (mkRawMemory 3 4) 3) [1; 2; 3]%Z.
Proof.
  split; [reflexivity|]. split; [simpl; lia|].
  split; [discriminate|vm_compute; reflexivity].
Defined.

Lemma holds_two_of_two :
  holds (heap two_of_two) (mkVector (mkRawMemory 1 2) 2) [5; 6]%Z.
Proof.
  split; [reflexivity|]. split; [simpl; lia|].
  split; [discriminate|vm_compute; reflexivity].
Defined.

Lemma fresh_three_of_four : fresh (heap three_of_four) (next_addr three_of_four).
Proof.
  split; [discriminate|]. split; [vm_compute; reflexivity|].
  apply map_Forall_singleton. simpl. lia.
Defined.

Lemma fresh_two_of_two : fresh (heap two_of_two) (next_addr two_of_two).
Proof.
  split; [discriminate|]. split; [vm_compute; reflexivity|].
  apply map_Forall_singleton. simpl. lia.
Defined.

Lemma C8_witness :
  holds (heap three_of_four) (mkVector (mkRawMemory 3 4) 3) [1; 2; 3]%Z ∧
  ∃ v' w', Resize (mkVector (mkRawMemory 3 4) 3) 0 three_of_four = Ok v' w' ∧
    Size v' = 0 ∧ Capacity v' = 4 ∧
    heap w' !! 3 = Some [None; None; None; None].
Proof.
  split; [exact holds_three_of_four|].
  destruct (C8_Resize_0_keeps_capacity three_of_four _ [1; 2; 3]%Z holds_three_of_four)
    as (v' & w' & Hrun & Hs & Hc & _ & _ & Hh & _); [done|].
  exists v', w'. repeat split; assumption.
Defined.

Lemma C6_witness :
  let v := mkVector (mkRawMemory 1 2) 2 in
  let i := DoInsert 1 (External 9%Z) in
  holds (heap two_of_two) v [5; 6]%Z ∧
  fresh (heap two_of_two) (next_addr two_of_two) ∧
  Capacity v < Size v + 1 ∧
  ∃ v' w', insert v i two_of_two = Ok v' w' ∧ Capacity v' = 4.
Proof.
  intros v i. split; [exact holds_two_of_two|]. split; [exact fresh_two_of_two|].
  split; [vm_compute; lia|].
  destruct (C6_implicit_growth_doubles two_of_two v [5; 6]%Z i 9%Z
              holds_two_of_two fresh_two_of_two)
    as (v' & w' & Hrun & Hc & _); [simpl; lia|constructor|vm_compute; lia| |].
  - intros ? ? ?. reflexivity.
  - exists v', w'. split; [exact Hrun|]. rewrite Hc. reflexivity.
Defined.

Lemma C5_witness :
  let v := mkVector (mkRawMemory 1 2) 2 in
  holds (heap two_of_two) v [5; 6]%Z ∧
  fresh (heap two_of_two) (next_addr two_of_two) ∧
  Machine.fits 5 ∧
  (∃ v' w', Machine.Reserve v 5 two_of_two = Ok v' w' ∧
     holds (heap w') v' [5; 6]%Z ∧
     trace w' = [EvMoveCtor; EvMoveCtor; EvDtor; EvDtor]) ∧
  (∃ v' w', insert v (DoPushBack (External 9%Z)) two_of_two = Ok v' w' ∧
     holds (heap w') v' [5; 6; 9]%Z ∧
     trace w' = [EvCopyCtor; EvMoveCtor; EvMoveCtor; EvDtor; EvDtor]) ∧
  (∃ v' w', insert v (DoPushBackMove (InBuffer (1, 0))) two_of_two = Ok v' w' ∧
     holds (heap w') v' [5; 6; 5]%Z ∧
     trace w' = [EvMoveCtor; EvMoveCtor; EvMoveCtor; EvDtor; EvDtor]).
Proof.
  intros v. split; [exact holds_two_of_two|]. split; [exact fresh_two_of_two|].
  assert (Machine.fits 5) as Hfits by (by vm_compute).
  split; [exact Hfits|].
  destruct (C5_relocation_policy two_of_two v [5; 6]%Z holds_two_of_two fresh_two_of_two)
    as (Hreserve & Hinsert & Hown).
  split; [|split].
  - destruct (Hreserve 5) as (v' & w' & Hrun & _ & _ & Hv' & _ & Htr);
      [vm_compute; lia|exact Hfits|intros ? ? ?; reflexivity|].
    exists v', w'. split; [exact Hrun|]. split; [exact Hv'|]. rewrite Htr. reflexivity.
  - destruct (Hinsert (DoPushBack (External 9%Z)) 9%Z) as (v' & w' & Hrun & _ & Hv' & _ & Htr);
      [simpl; lia|constructor|vm_compute; lia|intros ? ? ?; reflexivity|].
    exists v', w'. split; [exact Hrun|]. split; [exact Hv'|]. rewrite Htr. reflexivity.
  - destruct (Hown (DoPushBackMove (InBuffer (1, 0))) 0 5%Z)
      as (v' & w' & Hrun & _ & Hv' & _ & Htr);
      [simpl; lia|reflexivity|reflexivity|vm_compute; lia|intros ? ? ?; reflexivity|].
    exists v', w'. split; [exact Hrun|]. split; [exact Hv'|]. rewrite Htr. reflexivity.
Defined.

Lemma C9_witness :
  let v := mkVector (mkRawMemory 3 4) 3 in
  holds (heap three_of_four) v [1; 2; 3]%Z ∧
  fresh (heap three_of_four) (next_addr three_of_four) ∧
  ∃ v' it w',
    Insert v (cbegin v +ₚ 1) (InBuffer (3, 2)) three_of_four = Ok (v', it) w' ∧
    contents w' v' = Some [1; 3; 2; 3]%Z.
Proof.
  intros v. split; [exact holds_three_of_four|]. split; [exact fresh_three_of_four|].
  destruct (C9_insert_of_own_element three_of_four v [1; 2; 3]%Z 1 2 3%Z
              holds_three_of_four fresh_three_of_four)
    as (v' & it & w' & Hrun & _ & Hc & _);
    [simpl; lia|reflexivity|intros ? ? ?; reflexivity|].
  exists v', it, w'. split; [exact Hrun|exact Hc].
Defined.

End Ints_more_witnesses.

Section Fragile_witnesses.

(** With a copy constructor that throws on its third call, [PushBack] on
    the full vector [5, 6] copies the new element and the first element,
    throws on the second element, and leaves the vector as it was. *)
Lemma C4_witness :
  let E := fragile_Element 2 in
  let v := mkVector (mkRawMemory 1 2) 2 in
  let i := DoPushBack (External 7%Z) in
  vecs two_of_two !! 0 = Some v ∧
  holds (heap two_of_two) v [5; 6]%Z ∧
  copies_throw (copies two_of_two)
    (copied_by_make (insertion_args i) 7%Z ++ copied_by_relocation [5; 6]%Z) ∧
  ∃ w', perform (OpInsertion 0 i) two_of_two = Throw w' ∧
    size_of w' 0 = Some 2 ∧ capacity_of w' 0 = Some 2 ∧ contents_of w' 0 = Some [5; 6]%Z.
Proof.
  intros E v i.
  assert (vecs two_of_two !! 0 = Some v) as Ho by (vm_compute; reflexivity).
  assert (holds (heap two_of_two) v [5; 6]%Z) as Hv
    by (split; [reflexivity|split; [simpl; lia|split; [discriminate|vm_compute; reflexivity]]]).
  assert (copies_throw (copies two_of_two)
            (copied_by_make (insertion_args i) 7%Z ++ copied_by_relocation [5; 6]%Z)) as Hth
    by (exists 2, 6%Z; split; reflexivity).
  split; [exact Ho|]. split; [exact Hv|]. split; [exact Hth|].
  destruct (C4_throwing_copy_leaves_vector_unchanged two_of_two 0 v [5; 6]%Z i 7%Z Ho Hv)
    as (w' & Hrun & Hs & Hc & Hx & _); [| |constructor|vm_compute; lia|exact Hth|].
  - split; [discriminate|]. split; [vm_compute; reflexivity|].
    apply map_Forall_singleton. simpl. lia.
  - simpl. lia.
  - exists w'. split; [exact Hrun|]. split; [exact Hs|]. split; [exact Hc|exact Hx].
Defined.

(** With a copy constructor that throws on its second call,
    [v.PushBack(std::move(v[0]))] on the full vector [5, 6] moves the
    first element into the new buffer, throws while relocating, and
    leaves the vector holding a moved-from first element. *)
Lemma C4_counterexample_moved_from_own_element :
  let E := fragile_Element 1 in
  ∃ w' : world Z,
    perform (OpInsertion 0 (DoPushBackMove (InBuffer (1, 0)))) two_of_two = Throw w' ∧
    contents_of two_of_two 0 = Some [5; 6]%Z ∧
    contents_of w' 0 = Some [0; 6]%Z ∧
    contents_of w' 0 ≠ contents_of two_of_two 0.
Proof.
  intros E. eexists. split; [vm_compute; reflexivity|].
  split; [vm_compute; reflexivity|]. split; [vm_compute; reflexivity|].
  vm_compute. discriminate.
Qed.

End Fragile_witnesses.

(** * Further properties of the two classes *)

Section Further.
Context {T : Type} `{!Element T, !Sized T}.
Implicit Types (w : world T) (v : Vector) (xs ys : list T) (p : nat * nat).
Implicit Types (h : gmap nat (list (option T))) (b : list (option T)).

(** Equalities of heaps and stores are settled pointwise. *)
Ltac pointwise :=
  apply map_eq; intros ?;
  repeat (rewrite lookup_insert || rewrite lookup_delete);
  repeat case_decide; subst; try congruence; try done.

(** ** More rules for the standard algorithms *)

Lemma wp_uninitialized_value_construct_n n : ∀ a i pre post h nx c tr rs vs Q E,
  h !! a = Some (pre ++ replicate n None ++ post) → length pre = i →
  Q () (World (<[a := pre ++ replicate n (Some value_init) ++ post]> h) nx c
              (tr ++ replicate n EvValueCtor) rs vs) →
  wp (uninitialized_value_construct_n (a, i) n) (World h nx c tr rs vs) Q E.
Proof.
  induction n as [|n IH]; intros a i pre post h nx c tr rs vs Q E Hb Hi HQ; simpl in *.
  - apply wp_ret. rewrite app_nil_r in HQ. by rewrite insert_id in HQ.
  - apply wp_bind. eapply wp_construct_at; [done|by apply lookup_mid|].
    rewrite insert_mid by done. apply wp_bind, wp_emit. unfold ptr_add; simpl.
    eapply (IH a (i + 1) (pre ++ [Some value_init]) post).
    + rewrite lookup_insert_eq. by rewrite <- app_assoc.
    + rewrite length_app; simpl; lia.
    + eapply post_eq; [exact HQ|].
      rewrite insert_insert_eq. by rewrite <- !app_assoc.
Qed.

Lemma wp_copy_assign_buf a i d j x y b db h nx c tr rs vs Q E :
  a ≠ d →
  h !! a = Some b → b !! i = Some (Some x) →
  h !! d = Some db → db !! j = Some (Some y) →
  Q () (World (<[d := <[j := Some x]> db]> h) nx c (tr ++ [EvCopyAssign]) rs vs) →
  wp (copy_assign (d, j) (InBuffer (a, i))) (World h nx c tr rs vs) Q E.
Proof.
  intros Hne Hb Hi Hdb Hj HQ. apply wp_bind; simpl. eapply wp_load; [exact Hb|exact Hi|].
  apply wp_bind. eapply wp_assign_at; [exact Hdb|exact Hj|]. by apply wp_emit.
Qed.

Lemma wp_copy_assign_same a i j x y b h nx c tr rs vs Q E :
  h !! a = Some b → b !! i = Some (Some x) → b !! j = Some (Some y) →
  Q () (World (<[a := <[j := Some x]> b]> h) nx c (tr ++ [EvCopyAssign]) rs vs) →
  wp (copy_assign (a, j) (InBuffer (a, i))) (World h nx c tr rs vs) Q E.
Proof.
  intros Hb Hi Hj HQ. apply wp_bind; simpl. eapply wp_load; [exact Hb|exact Hi|].
  apply wp_bind. eapply wp_assign_at; [exact Hb|exact Hj|]. by apply wp_emit.
Qed.

(** [copy_n] assigns a run of live objects of one buffer to a run of live
    objects of another buffer. *)
Lemma wp_copy_n xs : ∀ ys a i d j pre post dpre dpost h nx c tr rs vs Q E,
  length ys = length xs → a ≠ d →
  h !! a = Some (pre ++ (Some <$> xs) ++ post) → length pre = i →
  h !! d = Some (dpre ++ (Some <$> ys) ++ dpost) → length dpre = j →
  Q () (World (<[d := dpre ++ (Some <$> xs) ++ dpost]> h) nx c
              (tr ++ replicate (length xs) EvCopyAssign) rs vs) →
  wp (copy_n (a, i) (length xs) (d, j)) (World h nx c tr rs vs) Q E.
Proof.
  induction xs as [|x xs IH];
    intros [|y ys] a i d j pre post dpre dpost h nx c tr rs vs Q E Hlen Hne Ha Hi Hd Hj HQ;
    simpl in *; try done.
  - apply wp_ret. rewrite app_nil_r in HQ. by rewrite insert_id in HQ.
  - apply wp_bind. eapply wp_copy_assign_buf; [done|exact Ha|by apply lookup_mid|exact Hd|
      by apply lookup_mid|].
    rewrite insert_mid by done. unfold ptr_add; simpl.
    eapply (IH ys a (i + 1) d (j + 1) (pre ++ [Some x]) post (dpre ++ [Some x]) dpost).
    + lia.
    + done.
    + rewrite lookup_insert_ne by done. by rewrite <- app_assoc.
    + rewrite length_app; simpl; lia.
    + rewrite lookup_insert_eq. by rewrite <- app_assoc.
    + rewrite length_app; simpl; lia.
    + eapply post_eq; [exact HQ|].
      rewrite insert_insert_eq. by rewrite <- !app_assoc.
Qed.

Lemma wp_copy_n_len n xs ys a i d j pre post dpre dpost h nx c tr rs vs Q E :
  length xs = n → length ys = n → a ≠ d →
  h !! a = Some (pre ++ (Some <$> xs) ++ post) → length pre = i →
  h !! d = Some (dpre ++ (Some <$> ys) ++ dpost) → length dpre = j →
  Q () (World (<[d := dpre ++ (Some <$> xs) ++ dpost]> h) nx c
              (tr ++ replicate n EvCopyAssign) rs vs) →
  wp (copy_n (a, i) n (d, j)) (World h nx c tr rs vs) Q E.
Proof. intros <- Hys. by apply wp_copy_n. Qed.

(** The loops of [Erase] shift a run of live objects one slot to the left,
    over the live object in front of the run; the last slot of the run is
    left holding some live object. *)
Lemma wp_shift_left_move ys : ∀ a cap i z pre post h nx c tr rs vs Q E,
  h !! a = Some (pre ++ Some z :: (Some <$> ys) ++ post) → length pre = i →
  i + length ys < cap →
  (∀ z', Q () (World (<[a := pre ++ (Some <$> ys) ++ Some z' :: post]> h) nx c
                     (tr ++ replicate (length ys) EvMoveAssign) rs vs)) →
  wp (for_range i (length ys) (λ k,
        bind (RawMemory_index (mkRawMemory a cap) k) (λ dst,
        bind (RawMemory_index (mkRawMemory a cap) (k + 1)) (λ src,
        move_assign dst (InBuffer src)))))
     (World h nx c tr rs vs) Q E.
Proof.
  induction ys as [|y ys IH]; intros a cap i z pre post h nx c tr rs vs Q E Hb Hi Hcap HQ;
    simpl in *.
  - apply wp_ret. eapply post_eq; [apply (HQ z)|]. rewrite app_nil_r. by rewrite insert_id.
  - apply wp_bind, wp_bind, wp_RawMemory_index; [simpl; lia|].
    apply wp_bind, wp_RawMemory_index; [simpl; lia|]. simpl.
    eapply (wp_move_assign_buf a i (i + 1) y z).
    + exact Hb.
    + rewrite (snoc_assoc _ _ (Some z)). apply lookup_mid. rewrite length_app; simpl; lia.
    + by apply lookup_mid.
    + lia.
    + rewrite (snoc_assoc _ _ (Some z)), insert_mid by (rewrite length_app; simpl; lia).
      rewrite <- app_assoc. simpl. rewrite insert_mid by done.
      replace (S i) with (i + 1) by lia.
      eapply (IH a cap (i + 1) (moved_from y) (pre ++ [Some y]) post).
      * rewrite lookup_insert_eq. by rewrite <- app_assoc.
      * rewrite length_app; simpl; lia.
      * lia.
      * intros z'. eapply post_eq; [apply (HQ z')|].
        rewrite insert_insert_eq. by rewrite <- !app_assoc.
Qed.

Lemma wp_shift_left_copy ys : ∀ a cap i z pre post h nx c tr rs vs Q E,
  h !! a = Some (pre ++ Some z :: (Some <$> ys) ++ post) → length pre = i →
  i + length ys < cap →
  (∀ z', Q () (World (<[a := pre ++ (Some <$> ys) ++ Some z' :: post]> h) nx c
                     (tr ++ replicate (length ys) EvCopyAssign) rs vs)) →
  wp (for_range i (length ys) (λ k,
        bind (RawMemory_index (mkRawMemory a cap) k) (λ dst,
        bind (RawMemory_index (mkRawMemory a cap) (k + 1)) (λ src,
        copy_assign dst (InBuffer src)))))
     (World h nx c tr rs vs) Q E.
Proof.
  induction ys as [|y ys IH]; intros a cap i z pre post h nx c tr rs vs Q E Hb Hi Hcap HQ;
    simpl in *.
  - apply wp_ret. eapply post_eq; [apply (HQ z)|]. rewrite app_nil_r. by rewrite insert_id.
  - apply wp_bind, wp_bind, wp_RawMemory_index; [simpl; lia|].
    apply wp_bind, wp_RawMemory_index; [simpl; lia|]. simpl.
    eapply (wp_copy_assign_same a (i + 1) i y z).
    + exact Hb.
    + rewrite (snoc_assoc _ _ (Some z)). apply lookup_mid. rewrite length_app; simpl; lia.
    + by apply lookup_mid.
    + rewrite insert_mid by done.
      replace (S i) with (i + 1) by lia.
      eapply (IH a cap (i + 1) y (pre ++ [Some y]) post).
      * rewrite lookup_insert_eq. by rewrite <- app_assoc.
      * rewrite length_app; simpl; lia.
      * lia.
      * intros z'. eapply post_eq; [apply (HQ z')|].
        rewrite insert_insert_eq. by rewrite <- !app_assoc.
Qed.

(** ** [Vector]: [Erase] and [PopBack] *)

Lemma wp_ptr_pred a i w Q E : i ≠ 0 → Q (a, i - 1) w → wp (ptr_pred (a, i)) w Q E.
Proof. intros Hi HQ. destruct i; [done|]. simpl in *. by rewrite Nat.sub_0_r in HQ. Qed.

Lemma wp_Erase a cap xs d z h nx c tr rs vs Q E :
  let v := mkVector (mkRawMemory a cap) (length xs) in
  holds h v xs → xs !! d = Some z →
  Q (mkVector (mkRawMemory a cap) (length xs - 1), (a, d))
    (World (<[a := (Some <$> delete d xs) ++ replicate (cap - (length xs - 1)) None]> h) nx c
           (tr ++ replicate (length xs - 1 - d) erase_event ++ [EvDtor]) rs vs) →
  wp (Erase v (a, d)) (World h nx c tr rs vs) Q E.
Proof.
  intros v (_ & Hle & Hblk) Hz HQ. simpl in Hle, Hblk.
  apply lookup_lt_Some in Hz as Hd.
  rewrite decide_False in Hblk by lia. destruct Hblk as [Hanull Ha].
  assert (length (take d xs) = d) as Htake by (rewrite length_take_le; lia).
  assert (length (drop (S d) xs) = length xs - 1 - d) as Hdrop by (rewrite length_drop; lia).
  assert (h !! a = Some ((Some <$> take d xs) ++ Some z :: (Some <$> drop (S d) xs) ++
                           replicate (cap - length xs) None)) as Ha'.
  { rewrite Ha. f_equal. rewrite <- (take_drop_middle xs d z Hz) at 1.
    by rewrite fmap_app, fmap_cons, <- app_assoc. }
  unfold Erase, cbegin, end_, begin_, RawMemory_GetAddress, ptr_add; simpl.
  apply wp_bind, wp_distance; [lia|]. rewrite Nat.sub_0_r.
  apply wp_bind, wp_assert; [apply bool_decide_eq_true_2; lia|].
  assert (∀ z',
    wp (bind (ptr_pred (a, length xs))
          (λ last, bind (destroy_at last)
             (λ _, ret (mkVector (mkRawMemory a cap) (length xs - 1), (a, d)))))
       (World (<[a := (Some <$> take d xs) ++ (Some <$> drop (S d) xs) ++
                       Some z' :: replicate (cap - length xs) None]> h) nx c
              (tr ++ replicate (length (drop (S d) xs)) erase_event) rs vs) Q E) as Hrest.
  { intros z'. apply wp_bind, wp_ptr_pred; [lia|].
    apply wp_bind. eapply (wp_destroy_at a (length xs - 1) z').
    { apply lookup_insert_eq. }
    { rewrite app_assoc. apply lookup_mid. rewrite length_app, !length_fmap. lia. }
    rewrite insert_insert_eq, app_assoc, insert_mid by (rewrite length_app, !length_fmap; lia).
    apply wp_ret. eapply post_eq; [exact HQ|]. f_equal.
    - f_equal. rewrite delete_take_drop, fmap_app. f_equal.
      rewrite (replicate_split_at None (cap - (length xs - 1)) 0) by lia. simpl.
      do 2 f_equal. lia.
    - rewrite Hdrop. by rewrite <- app_assoc. }
  rewrite <- Hdrop. unfold erase_event in Hrest.
  destruct is_move_assignable; apply wp_bind.
  - eapply wp_shift_left_move; [exact Ha'|by rewrite length_fmap|lia|]. intros z'. apply Hrest.
  - eapply wp_shift_left_copy; [exact Ha'|by rewrite length_fmap|lia|]. intros z'. apply Hrest.
Qed.

(** [Erase(end())]: the loop does not run and the last element is
    destroyed. *)
Lemma wp_Erase_end a cap xs z h nx c tr rs vs Q E :
  let v := mkVector (mkRawMemory a cap) (length (xs ++ [z])) in
  holds h v (xs ++ [z]) →
  Q (mkVector (mkRawMemory a cap) (length xs), (a, S (length xs)))
    (World (<[a := (Some <$> xs) ++ replicate (cap - length xs) None]> h) nx c
           (tr ++ [EvDtor]) rs vs) →
  wp (Erase v (a, length (xs ++ [z]))) (World h nx c tr rs vs) Q E.
Proof.
  intros v (_ & Hle & Hblk) HQ. subst v. simpl in Hle, Hblk.
  rewrite length_app in *. simpl in *. rewrite Nat.add_1_r in *.
  rewrite decide_False in Hblk by lia. destruct Hblk as [Hanull Ha].
  rewrite fmap_app, <- app_assoc in Ha. simpl in Ha.
  unfold Erase, cbegin, end_, begin_, RawMemory_GetAddress, ptr_add; simpl.
  apply wp_bind, wp_distance; [lia|]. rewrite !Nat.sub_0_r.
  replace (length xs - S (length xs)) with 0 by lia.
  assert (wp (bind (destroy_at (a, length xs))
                (λ _, ret (mkVector (mkRawMemory a cap) (length xs), (a, S (length xs)))))
             (World h nx c tr rs vs) Q E) as Hrest.
  { apply wp_bind. eapply (wp_destroy_at a (length xs) z); [exact Ha|by apply lookup_mid, length_fmap|].
    rewrite insert_mid by apply length_fmap.
    apply wp_ret. eapply post_eq; [exact HQ|]. do 3 f_equal.
    rewrite (replicate_split_at None (cap - length xs) 0) by lia. simpl.
    do 2 f_equal. lia. }
  destruct is_move_assignable; simpl; apply wp_bind, wp_ret, wp_bind, wp_ret; exact Hrest.
Qed.

Lemma wp_PopBack a cap xs z h nx c tr rs vs Q E :
  let v := mkVector (mkRawMemory a cap) (length (xs ++ [z])) in
  holds h v (xs ++ [z]) →
  Q (mkVector (mkRawMemory a cap) (length xs))
    (World (<[a := (Some <$> xs) ++ replicate (cap - length xs) None]> h) nx c
           (tr ++ [EvDtor]) rs vs) →
  wp (PopBack v) (World h nx c tr rs vs) Q E.
Proof.
  intros v (_ & Hle & Hblk) HQ. subst v. simpl in Hle, Hblk.
  rewrite length_app in *. simpl in *. rewrite Nat.add_1_r in *.
  rewrite decide_False in Hblk by lia. destruct Hblk as [Hanull Ha].
  rewrite fmap_app, <- app_assoc in Ha. simpl in Ha.
  unfold PopBack; simpl. rewrite Nat.sub_0_r.
  apply wp_bind. eapply (wp_destroy_at a (length xs) z); [exact Ha|by apply lookup_mid, length_fmap|].
  rewrite insert_mid by apply length_fmap.
  apply wp_ret. eapply post_eq; [exact HQ|]. do 3 f_equal.
  rewrite (replicate_split_at None (cap - length xs) 0) by lia. simpl.
  do 2 f_equal. lia.
Qed.

(** ** [Vector]: construction and destruction *)

Lemma wp_Vector_dtor a cap xs h nx c tr rs vs Q E :
  holds h (mkVector (mkRawMemory a cap) (length xs)) xs → h !! null = None →
  Q () (World (delete a h) nx c (tr ++ replicate (length xs) EvDtor) rs vs) →
  wp (Vector_dtor (mkVector (mkRawMemory a cap) (length xs))) (World h nx c tr rs vs) Q E.
Proof.
  intros (_ & Hle & Hblk) Hnull HQ. simpl in Hle, Hblk.
  unfold Vector_dtor, RawMemory_dtor, RawMemory_GetAddress. simpl.
  destruct (decide (cap = 0)) as [->|Hcap].
  - destruct xs; [|simpl in Hle; lia]. subst a. simpl in *.
    apply wp_bind, wp_ret, wp_Deallocate_null.
    eapply post_eq; [exact HQ|]. f_equal; [by apply delete_id|by rewrite app_nil_r].
  - destruct Hblk as [Ha Hb]. apply wp_bind.
    eapply (wp_destroy_n_len (length xs) xs a 0 []); [done|exact Hb|done|].
    eapply wp_Deallocate; [done|apply lookup_insert_eq|].
    eapply post_eq; [exact HQ|]. f_equal. pointwise.
Qed.

Lemma wp_Vector_ctor_size n h nx c tr rs vs Q E :
  n ≠ 0 →
  Q (mkVector (mkRawMemory nx n) n)
    (World (<[nx := replicate n (Some value_init)]> h) (S nx) c
           (tr ++ replicate n EvValueCtor) rs vs) →
  wp (Vector_ctor_size n) (World h nx c tr rs vs) Q E.
Proof.
  intros Hn HQ. unfold Vector_ctor_size, RawMemory_GetAddress.
  apply wp_bind, wp_RawMemory_ctor; [done|]. simpl. apply wp_bind.
  eapply (wp_uninitialized_value_construct_n n nx 0 [] []); [|done|].
  { rewrite lookup_insert_eq. by rewrite app_nil_r. }
  apply wp_ret. eapply post_eq; [exact HQ|]. f_equal.
  rewrite insert_insert_eq. simpl. by rewrite app_nil_r.
Qed.

Lemma wp_Vector_ctor_copy a cap xs h nx c tr rs vs Q E :
  let other := mkVector (mkRawMemory a cap) (length xs) in
  holds h other xs → fresh h nx → xs ≠ [] →
  (copies_quiet c xs →
   Q (mkVector (mkRawMemory nx (length xs)) (length xs))
     (World (<[nx := Some <$> xs]> h) (S nx) (c + length xs)
            (tr ++ replicate (length xs) EvCopyCtor) rs vs)) →
  (copies_throw c xs → ∀ c' tr', E (World h (S nx) c' tr' rs vs)) →
  wp (Vector_ctor_copy other) (World h nx c tr rs vs) Q E.
Proof.
  intros other (_ & Hle & Hblk) Hfr Hne HQ HE. simpl in Hle, Hblk.
  assert (length xs ≠ 0) as Hlen by (by destruct xs).
  assert (h !! nx = None) as Hnone by (by apply fresh_unused).
  rewrite decide_False in Hblk by lia. destruct Hblk as [Hanull Ha].
  assert (a ≠ nx) as Hanx by congruence.
  unfold Vector_ctor_copy, Size, RawMemory_GetAddress. simpl.
  apply wp_bind, wp_RawMemory_ctor; [done|]. simpl.
  apply wp_bind, wp_unwinding.
  eapply (wp_uninitialized_copy_n_len (length xs) xs a 0 nx 0 []
            (replicate (cap - length xs) None) [] []); [done|done| |done| |done| |].
  - by rewrite lookup_insert_ne by done.
  - rewrite lookup_insert_eq. by rewrite app_nil_r.
  - intros Hq. apply wp_ret. eapply post_eq; [apply (HQ Hq)|]. f_equal.
    rewrite insert_insert_eq. simpl. by rewrite app_nil_r.
  - intros Hth c' tr'. unfold RawMemory_dtor; simpl.
    eapply wp_Deallocate; [by destruct Hfr|apply lookup_insert_eq|].
    rewrite delete_insert_id by done. by apply HE.
Qed.

Lemma wp_Vector_index a cap n k w Q E :
  k < n → n ≤ cap → Q (a, k) w →
  wp (Vector_index (mkVector (mkRawMemory a cap) n) k) w Q E.
Proof.
  intros Hk Hn HQ. unfold Vector_index. simpl.
  apply wp_bind, wp_assert; [by apply bool_decide_eq_true_2|].
  apply wp_RawMemory_index; [simpl; lia|done].
Qed.

(** ** [Vector]: [Resize] *)

(** Value-initialised objects are appended to the elements, inside the
    capacity. *)
Lemma wp_append_values a cap xs n h nx c tr rs vs Q E :
  h !! a = Some ((Some <$> xs) ++ replicate (cap - length xs) None) →
  length xs ≤ n → n ≤ cap →
  Q () (World (<[a := (Some <$> xs ++ replicate (n - length xs) value_init) ++
                      replicate (cap - n) None]> h) nx c
              (tr ++ replicate (n - length xs) EvValueCtor) rs vs) →
  wp (uninitialized_value_construct_n (a, length xs) (n - length xs))
     (World h nx c tr rs vs) Q E.
Proof.
  intros Ha Hn Hcap HQ.
  eapply (wp_uninitialized_value_construct_n (n - length xs) a (length xs) (Some <$> xs)
            (replicate (cap - n) None)).
  - rewrite Ha. do 2 f_equal. rewrite <- replicate_add. f_equal. lia.
  - apply length_fmap.
  - eapply post_eq; [exact HQ|]. do 2 f_equal.
    by rewrite fmap_app, fmap_replicate, <- app_assoc.
Qed.

Lemma wp_Resize a cap xs n h nx c tr rs vs Q E :
  let v := mkVector (mkRawMemory a cap) (length xs) in
  let xs' := take n xs ++ replicate (n - length xs) value_init in
  holds h v xs → fresh h nx →
  (n ≤ cap →
     Q (mkVector (mkRawMemory a cap) n)
       (World (if decide (cap = 0) then h
               else <[a := (Some <$> xs') ++ replicate (cap - n) None]> h) nx c
              (tr ++ replicate (length xs - n) EvDtor ++
                 replicate (n - length xs) EvValueCtor)
              rs vs)) →
  (cap < n → copies_quiet c (copied_by_relocation xs) →
     Q (mkVector (mkRawMemory nx n) n)
       (World (<[nx := Some <$> xs']> (delete a h)) (S nx)
              (c + length (copied_by_relocation xs))
              (tr ++ replicate (length xs) (if relocate_by_move then EvMoveCtor else EvCopyCtor) ++
                 replicate (length xs) EvDtor ++ replicate (n - length xs) EvValueCtor)
              rs vs)) →
  (cap < n → copies_throw c (copied_by_relocation xs) →
     ∀ c' tr', E (World h (S nx) c' tr' rs vs)) →
  wp (Resize v n) (World h nx c tr rs vs) Q E.
Proof.
  intros v xs' Hv Hfr Hroom Hgrow Hthrow. subst v xs'.
  pose proof Hv as (_ & Hle & Hblk). simpl in Hle, Hblk.
  unfold Resize, Capacity, RawMemory_Capacity, RawMemory_GetAddress, ptr_add. simpl.
  apply wp_bind.
  destruct (decide (n < cap)) as [Hlt|Hge].
  - rewrite decide_False in Hblk by lia. destruct Hblk as [Hanull Ha].
    specialize (Hroom ltac:(lia)). rewrite decide_False in Hroom by lia.
    destruct (decide (n < length xs)) as [Hshrink|Hextend].
    + apply wp_bind.
      eapply (wp_destroy_n_len (length xs - n) (drop n xs) a n (Some <$> take n xs)
                (replicate (cap - length xs) None)).
      { rewrite length_drop. lia. }
      { by rewrite app_assoc, fmap_take_drop. }
      { rewrite length_fmap, length_take_le; lia. }
      apply wp_ret, wp_ret. simpl. eapply post_eq; [exact Hroom|]. f_equal.
      * do 2 f_equal. replace (n - length xs) with 0 by lia. simpl. rewrite app_nil_r.
        f_equal. rewrite <- replicate_add. f_equal. lia.
      * replace (n - length xs) with 0 by lia. simpl. by rewrite app_nil_r.
    + apply wp_bind. eapply (wp_append_values a cap xs n); [exact Ha|lia|lia|].
      apply wp_ret, wp_ret. simpl. eapply post_eq; [exact Hroom|]. f_equal.
      * by rewrite take_ge by lia.
      * by replace (length xs - n) with 0 by lia.
  - apply wp_bind.
    destruct (decide (n ≤ cap)) as [Heq|Hbig].
    + (* the capacity is exactly the new size *)
      assert (n = cap) as -> by lia.
      unfold Reserve, RawMemory_Capacity. simpl. rewrite decide_True by lia.
      apply wp_ret. simpl. apply wp_bind.
      specialize (Hroom ltac:(lia)).
      destruct (decide (cap = 0)) as [->|Hcap].
      * destruct xs; [|simpl in Hle; lia]. simpl. apply wp_ret, wp_ret, wp_ret.
        eapply post_eq; [exact Hroom|]. simpl. f_equal. by rewrite app_nil_r.
      * destruct Hblk as [Hanull Ha].
        eapply (wp_append_values a cap xs cap); [exact Ha|lia|lia|].
        apply wp_ret, wp_ret. simpl. eapply post_eq; [exact Hroom|]. f_equal.
        -- by rewrite take_ge by lia.
        -- by replace (length xs - cap) with 0 by lia.
    + (* a larger buffer is reserved first *)
      eapply wp_Reserve; [exact Hv|exact Hfr|lia| |].
      * intros Hq. simpl. apply wp_bind.
        eapply (wp_append_values nx n xs n); [|lia|lia|].
        { by rewrite lookup_insert_eq. }
        apply wp_ret, wp_ret. simpl. eapply post_eq; [apply Hgrow; [lia|exact Hq]|]. f_equal.
        -- rewrite insert_insert_eq, Nat.sub_diag, app_nil_r. by rewrite take_ge by lia.
        -- by rewrite <- !app_assoc.
      * intros Hth c' tr'. apply Hthrow; [lia|exact Hth].
Qed.

(** ** [Vector]: insertion into spare capacity, for every entry point *)

Lemma wp_insert_room a cap xs i x h nx c tr rs vs Q E :
  let v := mkVector (mkRawMemory a cap) (length xs) in
  let args := insertion_args i in
  let d := insertion_index v i in
  holds h v xs → length xs < cap → d ≤ length xs →
  arg_value h v args x →
  (copies_quiet c (copied_by_make args x) → ∀ tr',
     Q (mkVector (mkRawMemory a cap) (length xs + 1))
       (World (<[a := (Some <$> take d xs ++ x :: drop d xs) ++
                       replicate (cap - S (length xs)) None]> (heap_after_make args h))
              nx (c + length (copied_by_make args x)) tr' rs vs)) →
  (copies_throw c (copied_by_make args x) → ∀ c' tr', E (World h nx c' tr' rs vs)) →
  wp (insert v i) (World h nx c tr rs vs) Q E.
Proof.
  intros v args d Hv Hroom Hd Harg HQ HE.
  destruct i as [pos ea|ea|pos value|pos value|value|value];
    subst args d; simpl in *;
    unfold EmplaceBack, Insert, Insert_move, PushBack, PushBack_move,
      cbegin, end_, Capacity, RawMemory_Capacity, RawMemory_GetAddress, ptr_add; simpl.
  1-4: apply wp_bind; eapply wp_Emplace_room; try done;
       intros Hq tr'; apply wp_ret; by apply HQ.
  all: rewrite decide_True by lia;
       apply wp_bind, wp_bind; eapply wp_EmplaceWithoutReallocate; try done;
       intros Hq tr'; apply wp_ret, wp_ret; by apply HQ.
Qed.

(** ** [Vector]: copy assignment *)

Lemma wp_setv o v h nx c tr rs vs Q E :
  Q () (World h nx c tr rs (<[o := v]> vs)) → wp (setv o v) (World h nx c tr rs vs) Q E.
Proof. done. Qed.

Lemma wp_RawMemory_plus r k w Q E :
  k ≤ capacity_ r → Q (buffer_ r, k) w → wp (RawMemory_plus r k) w Q E.
Proof.
  intros Hk HQ. apply wp_bind, wp_assert; [by apply bool_decide_eq_true_2|done].
Qed.

Lemma wp_Vector_assign_copy this rhs a acap xs d dcap ys h nx c tr rs vs Q E :
  let t := mkVector (mkRawMemory a acap) (length xs) in
  let r := mkVector (mkRawMemory d dcap) (length ys) in
  this ≠ rhs → vs !! this = Some t → vs !! rhs = Some r →
  holds h t xs → holds h r ys → fresh h nx →
  (acap ≠ 0 → dcap ≠ 0 → a ≠ d) →
  (acap < length ys → copies_quiet c ys →
     Q () (World (<[nx := Some <$> ys]> (delete a h)) (S nx) (c + length ys)
                 (tr ++ replicate (length ys) EvCopyCtor ++ replicate (length xs) EvDtor) rs
                 (<[this := mkVector (mkRawMemory nx (length ys)) (length ys)]> vs))) →
  (acap < length ys → copies_throw c ys → ∀ c' tr', E (World h (S nx) c' tr' rs vs)) →
  (length ys ≤ acap → copies_quiet c (drop (length xs) ys) →
     Q () (World (if decide (acap = 0) then h
                  else <[a := (Some <$> ys) ++ replicate (acap - length ys) None]> h) nx
                 (c + (length ys - length xs))
                 (tr ++ replicate (length xs - length ys) EvDtor ++
                    replicate (length ys - length xs) EvCopyCtor ++
                    replicate (length ys `min` length xs) EvCopyAssign) rs
                 (<[this := mkVector (mkRawMemory a acap) (length ys)]> vs))) →
  (length ys ≤ acap → copies_throw c (drop (length xs) ys) →
     ∀ c' tr', E (World h nx c' tr' rs vs)) →
  wp (Vector_assign_copy this rhs) (World h nx c tr rs vs) Q E.
Proof.
  intros t r Hne Ht Hr Hvt Hvr Hfr Hsep Hq1 He1 Hq2 He2. subst t r.
  pose proof Hvt as (_ & Hlet & Hblkt). pose proof Hvr as (_ & Hler & Hblkr).
  pose proof Hfr as (Hnx & Hnull & _).
  assert (h !! nx = None) as Hnone by (by apply fresh_unused).
  simpl in Hlet, Hblkt, Hler, Hblkr.
  unfold Vector_assign_copy. rewrite decide_True by done.
  apply wp_bind. eapply wp_getv; [exact Ht|]. apply wp_bind. eapply wp_getv; [exact Hr|].
  unfold Size, RawMemory_Capacity, RawMemory_GetAddress, ptr_add. simpl.
  destruct (decide (acap < length ys)) as [Hsmall|Hlarge].
  - (* copy and swap *)
    assert (ys ≠ []) as Hys by (intros ->; simpl in Hsmall; lia).
    assert (a ≠ nx) as Hanx.
    { intros ->. destruct (decide (acap = 0)); [congruence|].
      destruct Hblkt as [_ Hb]. congruence. }
    apply wp_bind. eapply wp_Vector_ctor_copy; [exact Hvr|exact Hfr|done| |].
    + intros Hq. unfold Swap, RawMemory_Swap; simpl. apply wp_bind, wp_setv.
      eapply wp_Vector_dtor.
      * eapply holds_frame; [exact Hvt|]. simpl. by rewrite lookup_insert_ne.
      * by rewrite lookup_insert_ne.
      * eapply post_eq; [by apply Hq1|]. f_equal; [pointwise|by rewrite <- app_assoc].
    + intros Hth c' tr'. by apply He1.
  - (* the elements are assigned in place *)
    specialize (Hq2 ltac:(lia)). specialize (He2 ltac:(lia)).
    destruct (decide (acap = 0)) as [->|Hacap].
    { (* both vectors are empty *)
      destruct xs; [|simpl in Hlet; lia]. destruct ys; [|simpl in Hlarge; lia].
      simpl in *. apply wp_bind, wp_bind, wp_RawMemory_plus; [simpl; lia|].
      unfold uninitialized_copy_n. simpl. apply wp_ret, wp_bind, wp_ret, wp_setv.
      eapply post_eq; [apply Hq2, copies_quiet_nil|]. f_equal; [lia|by rewrite app_nil_r]. }
    destruct Hblkt as [Hanull Ha].
    destruct (decide (dcap = 0)) as [->|Hbcap].
    { (* nothing to copy: the elements are destroyed *)
      destruct ys; [|simpl in Hler; lia]. simpl in *.
      rewrite drop_nil in Hq2.
      destruct (decide (0 < length xs)) as [Hpos|Hzero].
      - apply wp_bind, wp_bind, wp_RawMemory_plus; [simpl; lia|]. simpl.
        rewrite Nat.sub_0_r.
        eapply (wp_destroy_n_len (length xs) xs a 0 []); [done|exact Ha|done|].
        simpl. apply wp_bind, wp_ret, wp_setv.
        eapply post_eq; [apply Hq2, copies_quiet_nil|]. f_equal.
        + do 2 f_equal. rewrite <- replicate_add. f_equal. lia.
        + lia.
        + rewrite Nat.sub_0_r. simpl. by rewrite app_nil_r.
      - destruct xs; [|simpl in Hzero; lia]. simpl in *.
        apply wp_bind, wp_bind, wp_RawMemory_plus; [simpl; lia|].
        unfold uninitialized_copy_n. simpl. apply wp_ret, wp_bind, wp_ret, wp_setv.
        eapply post_eq; [apply Hq2, copies_quiet_nil|]. f_equal.
        + rewrite insert_id; [done|]. rewrite Ha. by rewrite Nat.sub_0_r.
        + lia.
        + by rewrite app_nil_r. }
    destruct Hblkr as [Hbnull Hb].
    assert (a ≠ d) as Hab by auto.
    destruct (decide (length ys < length xs)) as [Hshrink|Hextend].
    + (* the surplus is destroyed *)
      apply wp_bind, wp_bind, wp_RawMemory_plus; [simpl; lia|]. simpl.
      eapply (wp_destroy_n_len (length xs - length ys) (drop (length ys) xs) a (length ys)
                (Some <$> take (length ys) xs) (replicate (acap - length xs) None)).
      { rewrite length_drop. lia. }
      { rewrite Ha. by rewrite app_assoc, fmap_take_drop. }
      { rewrite length_fmap, length_take_le; lia. }
      apply wp_bind. replace (length ys `min` length xs) with (length ys) by lia.
      eapply (wp_copy_n_len (length ys) ys (take (length ys) xs) d 0 a 0 []
                (replicate (dcap - length ys) None) []).
      { done. }
      { rewrite length_take_le; lia. }
      { done. }
      { by rewrite lookup_insert_ne by done. }
      { done. }
      { by rewrite lookup_insert_eq. }
      { done. }
      apply wp_setv. eapply post_eq; [apply Hq2|].
      { rewrite drop_ge by lia. apply copies_quiet_nil. }
      f_equal.
      * rewrite insert_insert_eq. simpl. do 3 f_equal.
        rewrite <- replicate_add. f_equal. lia.
      * lia.
      * replace (length ys - length xs) with 0 by lia. simpl.
        replace (length ys `min` length xs) with (length ys) by lia.
        by rewrite <- app_assoc.
    + (* the missing elements are copy-constructed *)
      apply wp_bind, wp_bind, wp_RawMemory_plus; [simpl; lia|]. simpl.
      eapply (wp_uninitialized_copy_n_len (length ys - length xs) (drop (length xs) ys)
                d (length xs) a (length xs)
                (Some <$> take (length xs) ys) (replicate (dcap - length ys) None)
                (Some <$> xs) (replicate (acap - length ys) None)).
      { rewrite length_drop. lia. }
      { done. }
      { rewrite Hb. by rewrite app_assoc, fmap_take_drop. }
      { rewrite length_fmap, length_take_le; lia. }
      { rewrite Ha. do 2 f_equal. rewrite <- replicate_add. f_equal. lia. }
      { by rewrite length_fmap. }
      2:{ intros Hth c' tr'. by apply He2. }
      intros Hq. apply wp_bind.
      replace (length ys `min` length xs) with (length xs) by lia.
      eapply (wp_copy_n_len (length xs) (take (length xs) ys) xs d 0 a 0 []
                ((Some <$> drop (length xs) ys) ++ replicate (dcap - length ys) None) []
                ((Some <$> drop (length xs) ys) ++ replicate (acap - length ys) None)).
      { rewrite length_take_le; lia. }
      { done. }
      { done. }
      { rewrite lookup_insert_ne by done. rewrite Hb. simpl.
        by rewrite app_assoc, fmap_take_drop. }
      { done. }
      { by rewrite lookup_insert_eq. }
      { done. }
      apply wp_setv. eapply post_eq; [by apply Hq2|]. f_equal.
      * rewrite insert_insert_eq. simpl.
        by rewrite app_assoc, fmap_take_drop.
      * replace (length xs - length ys) with 0 by lia. simpl.
        replace (length ys `min` length xs) with (length xs) by lia.
        by rewrite <- app_assoc.
Qed.

(** ** What the functions of [Vector] compute *)

Lemma holds_block h a cap n xs :
  a ≠ null → n = length xs → n ≤ cap → cap ≠ 0 →
  h !! a = Some ((Some <$> xs) ++ replicate (cap - length xs) None) →
  holds h (mkVector (mkRawMemory a cap) n) xs.
Proof. intros Ha -> Hle Hcap Hb. by apply holds_intro. Qed.

Lemma holds_nonempty h a cap n xs :
  holds h (mkVector (mkRawMemory a cap) n) xs → xs ≠ [] →
  a ≠ null ∧ cap ≠ 0 ∧ h !! a = Some ((Some <$> xs) ++ replicate (cap - length xs) None).
Proof.
  intros (_ & Hle & Hblk) Hne. simpl in *.
  assert (length xs ≠ 0) by (by destruct xs).
  rewrite decide_False in Hblk by lia. destruct Hblk. repeat split; [done|lia|done].
Qed.

(** X16. [Erase] removes the element at the position and keeps the order of
    the others; it works inside the buffer, with one assignment per element
    behind the position and one destructor call, and returns the position. *)
Theorem Erase_removes_the_element (w : world T) (v : Vector) (xs : list T) (d : nat) :
  holds (heap w) v xs → d < length xs →
  ∃ v' w', Erase v (cbegin v +ₚ d) w = Ok (v', begin_ v' +ₚ d) w' ∧
    holds (heap w') v' (delete d xs) ∧
    Size v' = Size v - 1 ∧ data_ v' = data_ v ∧
    trace w' = trace w ++ replicate (length xs - 1 - d) erase_event ++ [EvDtor] ∧
    (∀ k, k ≠ buffer_ (data_ v) → heap w' !! k = heap w !! k).
Proof.
  intros Hv Hd. destruct w as [h nx c tr rs vs], v as [[a cap] n].
  pose proof Hv as (Hsz & Hle & _). simpl in *. subst n.
  destruct (lookup_lt_is_Some_2 xs d Hd) as [z Hz].
  destruct (holds_nonempty _ _ _ _ _ Hv) as (Ha & Hcap & _); [by intros ->|].
  enough (∃ r w', Erase (mkVector (mkRawMemory a cap) (length xs)) (a, 0 + d)
                    (World h nx c tr rs vs) = Ok r w' ∧
            (r.2 = begin_ r.1 +ₚ d ∧ holds (heap w') r.1 (delete d xs) ∧
             Size r.1 = length xs - 1 ∧ data_ r.1 = mkRawMemory a cap ∧
             trace w' = tr ++ replicate (length xs - 1 - d) erase_event ++ [EvDtor] ∧
             (∀ k, k ≠ a → heap w' !! k = h !! k)))
    as ([v' it] & w' & Hrun & Hit & Hrest).
  { exists v', w'. simpl in Hit. subst it. by split. }
  assert (length (delete d xs) = length xs - 1) as Hlen by (by apply length_delete).
  apply wp_returns. simpl. eapply wp_Erase; [exact Hv|exact Hz|].
  simpl. split; [done|]. split.
  { apply holds_block; [done|done|lia|done|]. by rewrite lookup_insert_eq, Hlen. }
  do 3 (split; [done|]). intros k Hk. by rewrite lookup_insert_ne.
Qed.

(** X17. [Erase(end())] on a vector that is not empty fails no assertion: it
    destroys the last element and returns an iterator behind the new end. *)
Theorem Erase_at_the_end_removes_the_last (w : world T) (v : Vector) (xs : list T) (x : T) :
  holds (heap w) v (xs ++ [x]) →
  ∃ v' w', Erase v (end_ v) w = Ok (v', end_ v' +ₚ 1) w' ∧
    holds (heap w') v' xs ∧ data_ v' = data_ v ∧
    trace w' = trace w ++ [EvDtor].
Proof.
  intros Hv. destruct w as [h nx c tr rs vs], v as [[a cap] n].
  pose proof Hv as (Hsz & Hle & _). simpl in *. subst n.
  destruct (holds_nonempty _ _ _ _ _ Hv) as (Ha & Hcap & _); [by destruct xs|].
  rewrite length_app in Hle. simpl in Hle.
  enough (∃ r w', Erase (mkVector (mkRawMemory a cap) (length (xs ++ [x])))
                    (a, length (xs ++ [x])) (World h nx c tr rs vs) = Ok r w' ∧
            (r.2 = end_ r.1 +ₚ 1 ∧ holds (heap w') r.1 xs ∧
             data_ r.1 = mkRawMemory a cap ∧ trace w' = tr ++ [EvDtor]))
    as ([v' it] & w' & Hrun & Hit & Hrest).
  { exists v', w'. simpl in Hit. subst it. by split. }
  apply wp_returns. eapply wp_Erase_end; [exact Hv|].
  simpl. split.
  { unfold end_, RawMemory_GetAddress, ptr_add. simpl. f_equal. lia. }
  split; [|done].
  apply holds_block; [done|done|lia|done|]. by rewrite lookup_insert_eq.
Qed.

(** X18. [PopBack] destroys the last element and keeps the buffer. *)
Theorem PopBack_removes_the_last (w : world T) (v : Vector) (xs : list T) (x : T) :
  holds (heap w) v (xs ++ [x]) →
  ∃ v' w', PopBack v w = Ok v' w' ∧
    holds (heap w') v' xs ∧ data_ v' = data_ v ∧
    trace w' = trace w ++ [EvDtor] ∧
    (∀ k, k ≠ buffer_ (data_ v) → heap w' !! k = heap w !! k).
Proof.
  intros Hv. destruct w as [h nx c tr rs vs], v as [[a cap] n].
  pose proof Hv as (Hsz & Hle & _). simpl in *. subst n.
  destruct (holds_nonempty _ _ _ _ _ Hv) as (Ha & Hcap & _); [by destruct xs|].
  rewrite length_app in Hle. simpl in Hle.
  apply wp_returns. eapply wp_PopBack; [exact Hv|].
  simpl. split.
  { apply holds_block; [done|done|lia|done|]. by rewrite lookup_insert_eq. }
  do 2 (split; [done|]). intros k Hk. by rewrite lookup_insert_ne.
Qed.

(** X19. On an empty vector [PopBack] does nothing, whereas [Erase] fails its
    assertion whatever the position. *)
Theorem empty_vector_PopBack_and_Erase (w : world T) (v : Vector) :
  Size v = 0 →
  PopBack v w = Ok v w ∧ ∀ pos, Erase v pos w = UB.
Proof.
  intros Hsz. unfold Size in Hsz. split.
  - unfold PopBack. by rewrite decide_True.
  - intros pos. unfold Erase, bind, distance.
    case_decide; [|done]. simpl. rewrite Hsz.
    by rewrite bool_decide_eq_false_2 by (by intros Hne).
Qed.

(** X8. [operator[]] yields the element at the index when the index is below
    the size, and fails its assertion otherwise. *)
Theorem Vector_index_in_and_out_of_bounds (w : world T) (v : Vector) (xs : list T) (k : nat) :
  holds (heap w) v xs →
  (∀ x, xs !! k = Some x →
     Vector_index v k w = Ok (begin_ v +ₚ k) w ∧ load (begin_ v +ₚ k) w = Ok x w) ∧
  (length xs ≤ k → Vector_index v k w = UB).
Proof.
  intros Hv. pose proof Hv as (Hsz & Hle & _). split.
  - intros x Hx. apply lookup_lt_Some in Hx as Hk. split.
    + unfold Vector_index, RawMemory_index, bind, assert.
      rewrite !bool_decide_eq_true_2 by lia. by destruct v as [[a cap] n].
    + pose proof (holds_slot _ _ _ _ _ Hv Hx) as Hs.
      destruct v as [[a cap] n]. simpl in Hs.
      unfold load, slot_at, begin_, RawMemory_GetAddress, ptr_add. simpl. by rewrite Hs.
  - intros Hk. unfold Vector_index, bind, assert.
    by rewrite bool_decide_eq_false_2 by lia.
Qed.

Lemma fresh_next h nx B : fresh h nx → fresh (<[nx := B]> h) (S nx).
Proof.
  intros (Hnx & Hnull & Hbelow). split; [done|]. split.
  - by rewrite lookup_insert_ne.
  - apply map_Forall_insert_2; [lia|].
    intros k b Hk. apply Hbelow in Hk. simpl in *. lia.
Qed.

Lemma holds_default h : holds h Vector_default [].
Proof. split; [done|]. split; [simpl; lia|done]. Qed.

(** X3. [Vector(size)], for a size whose byte size does not wrap, owns a
    buffer of exactly [size] slots filled with value-initialised elements;
    for size 0 nothing is allocated. *)
Theorem Vector_ctor_size_makes_default_elements (w : world T) (n : nat) :
  fresh (heap w) (next_addr w) →
  Machine.fits n →
  ∃ v w', Machine.Vector_ctor_size n w = Ok v w' ∧
    holds (heap w') v (replicate n value_init) ∧
    Size v = n ∧ Capacity v = n ∧
    trace w' = trace w ++ replicate n EvValueCtor ∧
    (n = 0 → w' = w) ∧
    (∀ k, k ≠ buffer_ (data_ v) → heap w' !! k = heap w !! k) ∧
    fresh (heap w') (next_addr w').
Proof.
  intros Hfr Hfits. rewrite Vector_ctor_size_fits by done.
  destruct w as [h nx c tr rs vs]. simpl in *.
  destruct (decide (n = 0)) as [->|Hn].
  - exists Vector_default, (World h nx c tr rs vs). simpl.
    rewrite app_nil_r. split; [done|]. split; [apply holds_default|].
    do 4 (split; [done|]). split; [done|exact Hfr].
  - apply wp_returns. apply wp_Vector_ctor_size; [done|]. simpl.
    destruct Hfr as (Hnx & Hrest). split.
    { apply holds_block; [done|by rewrite length_replicate|done|done|].
      rewrite lookup_insert_eq, length_replicate, Nat.sub_diag, app_nil_r.
      by rewrite fmap_replicate. }
    do 4 (split; [done|]). split.
    + intros k Hk. by rewrite lookup_insert_ne.
    + by apply fresh_next.
Qed.

(** X4. [Vector(const Vector&)] builds a vector with the same elements in a
    buffer of its own whose capacity is the size of the original, with one
    copy construction per element; the original is untouched. *)
Theorem Vector_ctor_copy_copies_the_elements (w : world T) (other : Vector) (xs : list T) :
  holds (heap w) other xs →
  fresh (heap w) (next_addr w) →
  copies_quiet (copies w) xs →
  ∃ v w', Vector_ctor_copy other w = Ok v w' ∧
    holds (heap w') v xs ∧ holds (heap w') other xs ∧
    Size v = length xs ∧ Capacity v = length xs ∧
    (xs ≠ [] → buffer_ (data_ v) ≠ buffer_ (data_ other)) ∧
    trace w' = trace w ++ replicate (length xs) EvCopyCtor ∧
    (∀ k, k ≠ buffer_ (data_ v) → heap w' !! k = heap w !! k).
Proof.
  intros Hv Hfr Hq. destruct w as [h nx c tr rs vs], other as [[a cap] n].
  pose proof Hv as (Hsz & Hle & Hblk). simpl in *. subst n.
  destruct (decide (xs = [])) as [->|Hne].
  - exists Vector_default, (World h nx c tr rs vs). simpl.
    rewrite app_nil_r. split; [done|]. split; [apply holds_default|].
    split; [exact Hv|]. do 4 (split; [done|]). done.
  - assert (length xs ≠ 0) as Hlen by (by destruct xs).
    assert (h !! nx = None) as Hnone by (by apply fresh_unused).
    destruct (holds_nonempty _ _ _ _ _ Hv Hne) as (Ha & Hcap & Hb).
    assert (a ≠ nx) as Hanx by congruence.
    apply wp_returns. eapply wp_Vector_ctor_copy; [exact Hv|exact Hfr|exact Hne| |].
    + intros _. simpl. destruct Hfr as (Hnx & _). split.
      { apply holds_block; [done|done|done|done|].
        by rewrite lookup_insert_eq, Nat.sub_diag, app_nil_r. }
      split.
      { eapply holds_frame; [exact Hv|]. simpl. by rewrite lookup_insert_ne. }
      do 2 (split; [done|]). split; [by intros _; apply not_eq_sym|].
      split; [done|]. intros k Hk. by rewrite lookup_insert_ne.
    + intros Hth. by apply copies_throw_quiet in Hq.
Qed.

(** A copy that throws in [uninitialized_copy_n] after [k] copies: the
    copies are destroyed again, in the order in which they were made. *)
Lemma wp_uninitialized_copy_loop_throw xs :
  ∀ ys k y a i d j pre post dpre dpost h nx c tr rs vs Q E,
  a ≠ d →
  h !! a = Some (pre ++ (Some <$> xs) ++ post) → length pre = i + length ys →
  h !! d = Some (dpre ++ (Some <$> ys) ++ replicate (length xs) None ++ dpost) →
  length dpre = j →
  xs !! k = Some y → copies_quiet c (take k xs) → copy_throws (c + k) y = true →
  E (World (<[d := dpre ++ replicate (length ys + length xs) None ++ dpost]> h) nx
           (S (c + k)) (tr ++ replicate k EvCopyCtor ++ replicate (length ys + k) EvDtor)
           rs vs) →
  wp (uninitialized_copy_loop (a, i + length ys) (length xs) (d, j) (length ys))
     (World h nx c tr rs vs) Q E.
Proof.
  induction xs as [|x xs IH];
    intros ys k y a i d j pre post dpre dpost h nx c tr rs vs Q E Hne Ha Hi Hd Hj Hk Hq Hy HE;
    [by rewrite lookup_nil in Hk|].
  simpl in *. unfold wp.
  rewrite (copy_construct_buf a (i + length ys) x _ _ _ _ _ _ _ Ha (lookup_mid _ _ _ _ Hi)).
  destruct k as [|k]; simpl in Hk, Hq.
  - (* this copy throws *)
    injection Hk as ->. rewrite Nat.add_0_r in Hy, HE. rewrite Hy.
    assert (wp (destroy_n (d, j) (length ys)) (World h nx (S c) tr rs vs)
               (λ _ w2, E w2) (λ _, False)) as Hdes.
    { eapply (wp_destroy_n ys d j dpre (None :: replicate (length xs) None ++ dpost));
        [exact Hd|done|].
      eapply post_eq; [exact HE|]. simpl. rewrite Nat.add_0_r.
      f_equal. f_equal. f_equal. by rewrite replicate_add, <- app_assoc. }
    unfold wp in Hdes. by destruct (destroy_n _ _ _).
  - (* this copy is made *)
    assert (copy_throws c x = false) as Hx.
    { specialize (Hq 0 x eq_refl). by rewrite Nat.add_0_r in Hq. }
    rewrite Hx.
    fold (wp (bind (construct_at ((d, j) +ₚ length ys) x)
               (λ _, uninitialized_copy_loop ((a, i + length ys) +ₚ 1) (length xs) (d, j)
                       (S (length ys))))
             (World h nx (S c) (tr ++ [EvCopyCtor]) rs vs) Q E).
    apply wp_bind. unfold ptr_add; simpl. eapply wp_construct_at.
    { exact Hd. }
    { rewrite app_assoc. apply lookup_mid. rewrite length_app, length_fmap. lia. }
    rewrite app_assoc, insert_mid by (rewrite length_app, length_fmap; lia).
    replace (i + length ys + 1) with (i + length (ys ++ [x]))
      by (rewrite length_app; simpl; lia).
    replace (S (length ys)) with (length (ys ++ [x]))
      by (rewrite length_app; simpl; lia).
    eapply (IH (ys ++ [x]) k y a i d j (pre ++ [Some x]) post dpre dpost).
    + done.
    + rewrite lookup_insert_ne by done. by rewrite <- app_assoc.
    + rewrite !length_app; simpl. lia.
    + rewrite lookup_insert_eq. by rewrite fmap_app, <- !app_assoc.
    + done.
    + exact Hk.
    + intros m z Hm. replace (S c + m) with (c + S m) by lia. by apply Hq.
    + by replace (S c + k) with (c + S k) by lia.
    + eapply post_eq; [exact HE|].
      rewrite insert_insert_eq, length_app. simpl.
      replace (length ys + 1 + length xs) with (length ys + S (length xs)) by lia.
      replace (length ys + 1 + k) with (length ys + S k) by lia.
      rewrite <- !app_assoc. simpl. f_equal. lia.
Qed.

(** X5. When the copy constructor throws on the element of index [k] in
    [Vector(const Vector&)], the [k] copies made so far are destroyed again
    and the buffer is released: the exception leaves the heap as it was. *)
Theorem Vector_ctor_copy_throw_releases_everything
    (w : world T) (other : Vector) (xs : list T) (k : nat) (y : T) :
  holds (heap w) other xs →
  fresh (heap w) (next_addr w) →
  xs !! k = Some y →
  copies_quiet (copies w) (take k xs) →
  copy_throws (copies w + k) y = true →
  ∃ w', Vector_ctor_copy other w = Throw w' ∧
    heap w' = heap w ∧ vecs w' = vecs w ∧
    trace w' = trace w ++ replicate k EvCopyCtor ++ replicate k EvDtor.
Proof.
  intros Hv Hfr Hk Hq Hy. destruct w as [h nx c tr rs vs], other as [[a cap] n].
  pose proof Hv as (Hsz & Hle & Hblk). simpl in *. subst n.
  assert (xs ≠ []) as Hne by (intros ->; by rewrite lookup_nil in Hk).
  assert (length xs ≠ 0) as Hlen by (by destruct xs).
  assert (h !! nx = None) as Hnone by (by apply fresh_unused).
  rewrite decide_False in Hblk by lia. destruct Hblk as [Hanull Ha].
  assert (a ≠ nx) as Hanx by congruence.
  apply wp_Throw.
  unfold Vector_ctor_copy, Size, RawMemory_GetAddress, uninitialized_copy_n. simpl.
  apply wp_bind, wp_RawMemory_ctor; [done|]. simpl.
  apply wp_bind, wp_unwinding.
  eapply (wp_uninitialized_copy_loop_throw xs [] k y a 0 nx 0 []
            (replicate (cap - length xs) None) [] []); [done| |done| |done|done|done|done|].
  - by rewrite lookup_insert_ne by done.
  - rewrite lookup_insert_eq. simpl. by rewrite app_nil_r.
  - unfold RawMemory_dtor; simpl.
    eapply wp_Deallocate; [by destruct Hfr|apply lookup_insert_eq|].
    simpl. rewrite delete_insert_eq, delete_insert_id by done. done.
Qed.

(** X6. [~Vector()] destroys every element and releases the buffer. *)
Theorem Vector_dtor_releases_the_buffer (w : world T) (v : Vector) (xs : list T) :
  holds (heap w) v xs → heap w !! null = None →
  ∃ w', Vector_dtor v w = Ok () w' ∧
    heap w' = delete (buffer_ (data_ v)) (heap w) ∧
    trace w' = trace w ++ replicate (length xs) EvDtor.
Proof.
  intros Hv Hnull. destruct w as [h nx c tr rs vs], v as [[a cap] n].
  pose proof Hv as (Hsz & _). simpl in *. subst n.
  enough (∃ u w', Vector_dtor (mkVector (mkRawMemory a cap) (length xs))
                    (World h nx c tr rs vs) = Ok u w' ∧
            (heap w' = delete a h ∧ trace w' = tr ++ replicate (length xs) EvDtor))
    as ([] & w' & Hrun & Hrest) by (by exists w').
  apply wp_returns. by eapply wp_Vector_dtor.
Qed.

(** X22. [Reserve], for a capacity whose byte size does not wrap, keeps the
    elements; the capacity becomes the larger of the old capacity and the
    request, and a request that the capacity already covers changes nothing
    at all. *)
Theorem Reserve_keeps_the_elements (w : world T) (v : Vector) (xs : list T) (n : nat) :
  holds (heap w) v xs →
  fresh (heap w) (next_addr w) →
  Machine.fits n →
  copies_quiet (copies w) (copied_by_relocation xs) →
  ∃ v' w', Machine.Reserve v n w = Ok v' w' ∧
    holds (heap w') v' xs ∧
    Size v' = Size v ∧ Capacity v' = Capacity v `max` n ∧
    (n ≤ Capacity v → v' = v ∧ w' = w) ∧
    (Capacity v < n → heap w' !! buffer_ (data_ v) = None).
Proof.
  intros Hv Hfr Hfits Hq. rewrite Reserve_fits by done.
  destruct w as [h nx c tr rs vs], v as [[a cap] m].
  pose proof Hv as (Hsz & Hle & Hblk). simpl in *. subst m.
  unfold Capacity, RawMemory_Capacity, Size. simpl.
  destruct (decide (n ≤ cap)) as [Hsmall|Hbig].
  - exists (mkVector (mkRawMemory a cap) (length xs)), (World h nx c tr rs vs).
    unfold Reserve, RawMemory_Capacity. simpl. rewrite decide_True by done.
    split; [done|]. split; [exact Hv|]. split; [done|]. split; [lia|].
    split; [done|intros; lia].
  - assert (h !! nx = None) as Hnone by (by apply fresh_unused).
    apply wp_returns. eapply wp_Reserve; [exact Hv|exact Hfr|lia| |].
    + intros _. simpl. destruct Hfr as (Hnx & Hnull & _). split.
      { apply holds_block; [done|done|lia|lia|]. by rewrite lookup_insert_eq. }
      split; [done|]. split; [lia|]. split; [intros; lia|]. intros _.
      destruct (decide (cap = 0)) as [->|Hcap].
      * subst a. rewrite lookup_insert_ne by done. apply lookup_delete_eq.
      * destruct Hblk as [Ha Hb]. rewrite lookup_insert_ne by congruence.
        apply lookup_delete_eq.
    + intros Hth. by apply copies_throw_quiet in Hq.
Qed.

(** X23. [Resize], for a size whose byte size does not wrap, keeps the first
    elements and appends value-initialised ones; the capacity becomes the
    larger of the old capacity and the new size (it is not doubled), and the
    buffer is kept when the capacity covers the new size. *)
Theorem Resize_truncates_or_appends (w : world T) (v : Vector) (xs : list T) (n : nat) :
  holds (heap w) v xs →
  fresh (heap w) (next_addr w) →
  Machine.fits n →
  copies_quiet (copies w) (copied_by_relocation xs) →
  ∃ v' w', Machine.Resize v n w = Ok v' w' ∧
    holds (heap w') v' (take n xs ++ replicate (n - length xs) value_init) ∧
    Size v' = n ∧ Capacity v' = Capacity v `max` n ∧
    (n ≤ Capacity v →
       data_ v' = data_ v ∧
       trace w' = trace w ++ replicate (length xs - n) EvDtor ++
                             replicate (n - length xs) EvValueCtor).
Proof.
  intros Hv Hfr Hfits Hq. rewrite Resize_fits by done.
  destruct w as [h nx c tr rs vs], v as [[a cap] m].
  pose proof Hv as (Hsz & Hle & Hblk). simpl in *. subst m.
  unfold Capacity, RawMemory_Capacity, Size. simpl.
  assert (length (take n xs ++ replicate (n - length xs) value_init) = n) as Hlen.
  { rewrite length_app, length_take, length_replicate. lia. }
  apply wp_returns. eapply wp_Resize; [exact Hv|exact Hfr| | |].
  - intros Hn. simpl. split.
    { destruct (decide (cap = 0)) as [->|Hcap].
      - assert (n = 0) as -> by lia. destruct xs; [|simpl in Hle; lia]. simpl.
        subst a. by repeat split.
      - destruct Hblk as [Ha Hb].
        apply holds_block; [done|done|lia|done|]. by rewrite lookup_insert_eq, Hlen. }
    split; [done|]. split; [lia|]. done.
  - intros Hn _. simpl. destruct Hfr as (Hnx & _). split.
    { apply holds_block; [done|done|lia|lia|].
      by rewrite lookup_insert_eq, Hlen, Nat.sub_diag, app_nil_r. }
    split; [done|]. split; [lia|]. intros; lia.
  - intros _ Hth. by apply copies_throw_quiet in Hq.
Qed.

(** X24. When a copy constructor throws while [Reserve] or [Resize], called
    with a size whose byte size does not wrap, relocates the elements, the
    new buffer is released and the exception leaves the heap, and with it
    the vector, as it was. *)
Theorem Reserve_and_Resize_throw_unchanged
    (w : world T) (v : Vector) (xs : list T) (n : nat) :
  holds (heap w) v xs →
  fresh (heap w) (next_addr w) →
  Capacity v < n →
  Machine.fits n →
  copies_throw (copies w) (copied_by_relocation xs) →
  (∃ w', Machine.Reserve v n w = Throw w' ∧ heap w' = heap w ∧ vecs w' = vecs w) ∧
  (∃ w', Machine.Resize v n w = Throw w' ∧ heap w' = heap w ∧ vecs w' = vecs w).
Proof.
  intros Hv Hfr Hn Hfits Hth. rewrite Reserve_fits, Resize_fits by done.
  destruct w as [h nx c tr rs vs], v as [[a cap] m].
  pose proof Hv as (Hsz & Hle & Hblk). simpl in *. subst m.
  unfold Capacity, RawMemory_Capacity in Hn. simpl in Hn. split.
  - apply wp_Throw. eapply wp_Reserve; [exact Hv|exact Hfr|done| |].
    + intros Hq. by apply copies_throw_quiet in Hq.
    + intros _ c' tr'. done.
  - apply wp_Throw. eapply wp_Resize; [exact Hv|exact Hfr| | |].
    + intros Hle'. lia.
    + intros _ Hq. by apply copies_throw_quiet in Hq.
    + intros _ _ c' tr'. done.
Qed.

(** ** Insertion *)

(** A vector whose buffer is not touched still holds its elements. *)
Lemma holds_other h h' v xs :
  holds h v xs →
  (Capacity v ≠ 0 → h' !! buffer_ (data_ v) = h !! buffer_ (data_ v)) →
  holds h' v xs.
Proof.
  intros (Hsz & Hle & Hblk) Heq. split; [done|]. split; [done|].
  unfold Capacity, RawMemory_Capacity in Heq.
  destruct (decide (capacity_ (data_ v) = 0)); [done|]. by rewrite Heq.
Qed.

(** The outcome of an insertion through any of the six entry points. *)
Lemma insert_runs (w : world T) (v : Vector) (xs : list T) (i : insertion T) (x : T) :
  let d := insertion_index v i in
  let args := insertion_args i in
  holds (heap w) v xs →
  fresh (heap w) (next_addr w) →
  d ≤ length xs →
  arg_value (heap w) v args x →
  copies_quiet (copies w)
    (copied_by_make args x ++
     if decide (Size v < Capacity v) then [] else copied_by_relocation xs) →
  ∃ v' w', insert v i w = Ok v' w' ∧
    holds (heap w') v' (take d xs ++ x :: drop d xs) ∧
    Size v' = Size v + 1 ∧
    vecs w' = vecs w ∧
    fresh (heap w') (next_addr w') ∧
    (Size v < Capacity v → data_ v' = data_ v ∧ next_addr w' = next_addr w) ∧
    (Capacity v ≤ Size v → buffer_ (data_ v') = next_addr w) ∧
    (Capacity v ≤ Size v → Capacity v' = if decide (Size v = 0) then 1 else Size v * 2) ∧
    copies w ≤ copies w'.
Proof.
  intros d args Hv Hfr Hd Harg Hq. subst d args.
  destruct w as [h nx c tr rs vs], v as [[a cap] n].
  pose proof Hv as (Hsz & Hle & Hblk). simpl in Hsz. subst n.
  unfold Capacity, RawMemory_Capacity, Size in *. simpl in *.
  pose proof Hfr as (Hnx & Hnull & Hbelow).
  apply wp_returns. destruct (decide (length xs < cap)) as [Hroom|Hfull].
  - rewrite decide_False in Hblk by lia. destruct Hblk as [Ha Hb].
    rewrite app_nil_r in Hq.
    eapply wp_insert_room; [exact Hv|done|done|exact Harg| |].
    + intros _ tr'. simpl. split.
      { apply holds_block; [done|rewrite length_inserted; lia|lia|lia|].
        by rewrite lookup_insert_eq, length_inserted. }
      split; [lia|]. split; [done|]. split.
      { split; [done|]. split.
        - rewrite lookup_insert_ne by done.
          by rewrite (heap_after_make_lookup_ne h _ _ x null Harg) by (by right).
        - apply map_Forall_insert_2.
          { assert (is_Some (h !! a)) as [B HB] by eauto. by apply Hbelow in HB. }
          intros k B HB. destruct (h !! k) as [B0|] eqn:Hk; [by apply Hbelow in Hk|].
          rewrite (heap_after_make_lookup_ne h _ _ x k Harg) in HB by (by right). congruence. }
      split; [done|]. split; [intros; lia|]. split; [intros; lia|lia].
    + intros Hth. by apply copies_throw_quiet in Hq.
  - eapply wp_insert_grow; [exact Hv|lia|exact Hfr|done|exact Harg| |].
    + intros _. simpl. split.
      { apply holds_block; [done|rewrite length_inserted; lia|
          destruct (decide (length xs = 0)); lia|destruct (decide (length xs = 0)); lia|].
        by rewrite lookup_insert_eq, length_inserted. }
      split; [lia|]. split; [done|]. split.
      { split; [done|]. split.
        - rewrite lookup_insert_ne by done.
          destruct (decide (a = null)) as [->|Hanull]; [apply lookup_delete_eq|].
          rewrite lookup_delete_ne by done.
          by rewrite (heap_after_make_lookup_ne h _ _ x null Harg) by (by right).
        - apply map_Forall_insert_2; [lia|]. apply map_Forall_delete.
          intros k B HB. destruct (h !! k) as [B0|] eqn:Hk.
          + apply Hbelow in Hk. simpl in *. lia.
          + rewrite (heap_after_make_lookup_ne h _ _ x k Harg) in HB by (by right). congruence. }
      split; [intros; lia|]. split; [done|]. split; [done|lia].
    + intros Hth. by apply copies_throw_quiet in Hq.
Qed.

(** X9. An insertion through any entry point ([Emplace], [EmplaceBack], both
    [Insert]s, both [PushBack]s) puts the new element at the position and
    keeps the order of the other elements; when the vector has spare capacity
    it keeps its buffer and allocates nothing. *)
Theorem insertion_places_the_element
    (w : world T) (v : Vector) (xs : list T) (i : insertion T) (x : T) :
  holds (heap w) v xs →
  fresh (heap w) (next_addr w) →
  insertion_index v i ≤ length xs →
  arg_value (heap w) v (insertion_args i) x →
  copies_quiet (copies w)
    (copied_by_make (insertion_args i) x ++
     if decide (Size v < Capacity v) then [] else copied_by_relocation xs) →
  ∃ v' w', insert v i w = Ok v' w' ∧
    holds (heap w') v'
      (take (insertion_index v i) xs ++ x :: drop (insertion_index v i) xs) ∧
    Size v' = Size v + 1 ∧
    (Size v < Capacity v → data_ v' = data_ v ∧ next_addr w' = next_addr w).
Proof.
  intros Hv Hfr Hd Harg Hq.
  destruct (insert_runs w v xs i x Hv Hfr Hd Harg Hq)
    as (v' & w' & Hrun & Hv' & Hsz & _ & _ & Hroom & _).
  by exists v', w'.
Qed.

(** X10. [Emplace] returns an iterator to the new element, which is the
    element at the index of the position; [EmplaceBack] returns a reference to
    the new last element. *)
Theorem Emplace_returns_the_new_element
    (w : world T) (v : Vector) (xs : list T) (d : nat) (args : ctor_args T) (x : T) :
  holds (heap w) v xs →
  fresh (heap w) (next_addr w) →
  d ≤ length xs →
  arg_value (heap w) v args x →
  copies_quiet (copies w)
    (copied_by_make args x ++
     if decide (Size v < Capacity v) then [] else copied_by_relocation xs) →
  ∃ v' it w', Emplace v (cbegin v +ₚ d) args w = Ok (v', it) w' ∧
    it = begin_ v' +ₚ d ∧
    load it w' = Ok x w' ∧
    Vector_index v' d w' = Ok it w' ∧
    (d = length xs → EmplaceBack v args w = Ok (v', it) w').
Proof.
  intros Hv Hfr Hd Harg Hq.
  destruct (insert_runs w v xs (DoEmplace d args) x Hv Hfr Hd Harg Hq)
    as (v' & w' & Hrun & Hv' & Hsz & _). simpl in Hrun, Hv'.
  unfold bind in Hrun.
  destruct (Emplace v (cbegin v +ₚ d) args w) as [[v1 it] w1|w1|] eqn:Hem; [|done..].
  simpl in Hrun. injection Hrun as -> ->.
  assert (it = begin_ v' +ₚ d) as ->.
  { revert Hem. unfold Emplace, bind, distance.
    rewrite decide_True
      by (unfold cbegin, RawMemory_GetAddress, ptr_add; simpl; split; [done|lia]).
    unfold cbegin, RawMemory_GetAddress, ptr_add, ret. simpl. rewrite Nat.sub_0_r.
    destruct (decide (size_ v + 1 ≤ Capacity v)).
    - destruct (EmplaceWithoutReallocate _ _ _ _); [|done..]. by intros [= <- <-].
    - destruct (EmplaceWithReallocate _ _ _ _); [|done..]. by intros [= <- <-]. }
  assert ((take d xs ++ x :: drop d xs) !! d = Some x) as Hx.
  { apply lookup_mid. rewrite length_take_le; lia. }
  exists v', (begin_ v' +ₚ d), w'. split; [done|]. split; [done|].
  pose proof (holds_slot _ _ _ _ _ Hv' Hx) as Hs.
  assert (d < size_ v' ∧ size_ v' ≤ capacity_ (data_ v')) as [Hlt Hcap].
  { destruct Hv' as (Hs' & Hle' & _). rewrite length_inserted in *. lia. }
  split; [|split].
  - unfold load, slot_at, begin_, RawMemory_GetAddress, ptr_add. simpl. by rewrite Hs.
  - unfold Vector_index, RawMemory_index, bind, assert.
    by rewrite !bool_decide_eq_true_2 by lia.
  - intros ->. unfold EmplaceBack, end_. unfold cbegin in Hem.
    destruct Hv as (Hs' & _). by rewrite Hs'.
Qed.

(** X11. When copying the argument throws in an insertion into spare capacity,
    the exception leaves the heap and the vector as they were. *)
Theorem insertion_with_room_throw_unchanged
    (w : world T) (v : Vector) (xs : list T) (i : insertion T) (x : T) :
  holds (heap w) v xs →
  Size v < Capacity v →
  insertion_index v i ≤ length xs →
  arg_value (heap w) v (insertion_args i) x →
  copies_throw (copies w) (copied_by_make (insertion_args i) x) →
  ∃ w', insert v i w = Throw w' ∧ heap w' = heap w ∧ vecs w' = vecs w.
Proof.
  intros Hv Hroom Hd Harg Hth.
  destruct w as [h nx c tr rs vs], v as [[a cap] n].
  pose proof Hv as (Hsz & Hle & Hblk). simpl in Hsz. subst n.
  unfold Capacity, RawMemory_Capacity, Size in *. simpl in *.
  apply wp_Throw. eapply wp_insert_room; [exact Hv|done|done|exact Harg| |].
  - intros Hq. by apply copies_throw_quiet in Hq.
  - intros _ c' tr'. done.
Qed.

(** ** Round trips *)

(** X20. After an insertion whose argument is not moved out of the vector
    itself, erasing at the position of the insertion gives back the elements
    the vector had before the insertion. *)
Theorem insert_then_Erase_restores
    (w : world T) (v : Vector) (xs : list T) (i : insertion T) (x : T) :
  holds (heap w) v xs →
  fresh (heap w) (next_addr w) →
  insertion_index v i ≤ length xs →
  arg_value (heap w) v (insertion_args i) x →
  copies_quiet (copies w)
    (copied_by_make (insertion_args i) x ++
     if decide (Size v < Capacity v) then [] else copied_by_relocation xs) →
  ∃ v1 w1 v2 it w2,
    insert v i w = Ok v1 w1 ∧
    Erase v1 (cbegin v1 +ₚ insertion_index v i) w1 = Ok (v2, it) w2 ∧
    holds (heap w2) v2 xs ∧ Size v2 = Size v ∧ data_ v2 = data_ v1.
Proof.
  intros Hv Hfr Hd Harg Hq.
  destruct (insert_runs w v xs i x Hv Hfr Hd Harg Hq)
    as (v1 & w1 & Hrun & Hv1 & Hsz & _).
  set (d := insertion_index v i) in *.
  exists v1, w1.
  destruct w1 as [h nx c tr rs vs], v1 as [[a cap] n].
  pose proof Hv1 as (Hsz1 & Hle1 & _). simpl in Hsz1. subst n.
  assert ((take d xs ++ x :: drop d xs) !! d = Some x) as Hx.
  { apply lookup_mid. rewrite length_take_le; lia. }
  assert (delete d (take d xs ++ x :: drop d xs) = xs) as Hdel.
  { rewrite <- (length_take_le xs d) at 1 by lia. by rewrite delete_middle, take_drop. }
  destruct (holds_nonempty _ _ _ _ _ Hv1) as (Ha & Hcap & _); [by destruct (take d xs)|].
  enough (∃ r w2, Erase (mkVector (mkRawMemory a cap) (length (take d xs ++ x :: drop d xs)))
                    (a, 0 + d) (World h nx c tr rs vs) = Ok r w2 ∧
            (holds (heap w2) r.1 xs ∧ Size r.1 = Size v ∧ data_ r.1 = mkRawMemory a cap))
    as ([v2 it] & w2 & Hrun2 & Hrest).
  { exists v2, it, w2. by split. }
  apply wp_returns. simpl. eapply wp_Erase; [exact Hv1|exact Hx|].
  simpl in *. rewrite length_inserted in *. simpl. rewrite Nat.sub_0_r. split.
  { rewrite Hdel. apply holds_block; [done|done|lia|done|]. by rewrite lookup_insert_eq. }
  unfold Size in *. simpl in *. split; [lia|done].
Qed.

(** X21. After an insertion at the end whose argument is not moved out of
    the vector itself, [PopBack] gives back the elements the vector had
    before. *)
Theorem push_then_PopBack_restores
    (w : world T) (v : Vector) (xs : list T) (i : insertion T) (x : T) :
  holds (heap w) v xs →
  fresh (heap w) (next_addr w) →
  insertion_index v i = length xs →
  arg_value (heap w) v (insertion_args i) x →
  copies_quiet (copies w)
    (copied_by_make (insertion_args i) x ++
     if decide (Size v < Capacity v) then [] else copied_by_relocation xs) →
  ∃ v1 w1 v2 w2,
    insert v i w = Ok v1 w1 ∧
    PopBack v1 w1 = Ok v2 w2 ∧
    holds (heap w2) v2 xs ∧ Size v2 = Size v ∧ data_ v2 = data_ v1.
Proof.
  intros Hv Hfr Hd Harg Hq.
  destruct (insert_runs w v xs i x Hv Hfr ltac:(lia) Harg Hq)
    as (v1 & w1 & Hrun & Hv1 & Hsz & _).
  rewrite Hd, take_ge, drop_ge in Hv1 by lia.
  exists v1, w1.
  destruct w1 as [h nx c tr rs vs], v1 as [[a cap] n].
  pose proof Hv1 as (Hsz1 & Hle1 & _). simpl in Hsz1. subst n.
  destruct (holds_nonempty _ _ _ _ _ Hv1) as (Ha & Hcap & _); [by destruct xs|].
  enough (∃ v2 w2, PopBack (mkVector (mkRawMemory a cap) (length (xs ++ [x])))
                    (World h nx c tr rs vs) = Ok v2 w2 ∧
            (holds (heap w2) v2 xs ∧ Size v2 = Size v ∧ data_ v2 = mkRawMemory a cap))
    as (v2 & w2 & Hrun2 & Hrest).
  { exists v2, w2. by split. }
  apply wp_returns. eapply wp_PopBack; [exact Hv1|].
  simpl in *. rewrite length_app in *. simpl in *. split.
  { apply holds_block; [done|done|lia|done|]. by rewrite lookup_insert_eq. }
  unfold Size in *. simpl in *. destruct Hv as (Hs & _). split; [lia|done].
Qed.

(** ** Copy assignment and [Swap] *)

(** X25. After [a = b] for two different vectors, [a] holds the elements of
    [b], which is untouched; the capacity of [a] becomes the larger of its old
    capacity and the size of [b], and [a] keeps its buffer when that is large
    enough. *)
Theorem Vector_assign_copy_copies_the_elements
    (w : world T) (this rhs : nat) (t r : Vector) (xs ys : list T) :
  this ≠ rhs →
  vecs w !! this = Some t → vecs w !! rhs = Some r →
  holds (heap w) t xs → holds (heap w) r ys →
  fresh (heap w) (next_addr w) →
  (Capacity t ≠ 0 → Capacity r ≠ 0 → buffer_ (data_ t) ≠ buffer_ (data_ r)) →
  copies_quiet (copies w)
    (if decide (Capacity t < length ys) then ys else drop (length xs) ys) →
  ∃ t' w', Vector_assign_copy this rhs w = Ok () w' ∧
    vecs w' !! this = Some t' ∧ holds (heap w') t' ys ∧
    vecs w' !! rhs = Some r ∧ holds (heap w') r ys ∧
    Capacity t' = Capacity t `max` length ys ∧
    (length ys ≤ Capacity t → data_ t' = data_ t) ∧
    (Capacity t < length ys → heap w' !! buffer_ (data_ t) = None).
Proof.
  intros Hne Ht Hr Hvt Hvr Hfr Hsep Hq.
  destruct w as [h nx c tr rs vs], t as [[a acap] n], r as [[d dcap] m].
  pose proof Hvt as (Hszt & Hlet & Hblkt). pose proof Hvr as (Hszr & Hler & Hblkr).
  simpl in Hszt, Hszr. subst n m.
  unfold Capacity, RawMemory_Capacity in *. simpl in *.
  pose proof Hfr as (Hnx & Hnull & _).
  assert (h !! nx = None) as Hnone by (by apply fresh_unused).
  enough (∃ u w', Vector_assign_copy this rhs (World h nx c tr rs vs) = Ok u w' ∧
            ∃ t', vecs w' !! this = Some t' ∧ holds (heap w') t' ys ∧
              vecs w' !! rhs = Some (mkVector (mkRawMemory d dcap) (length ys)) ∧
              holds (heap w') (mkVector (mkRawMemory d dcap) (length ys)) ys ∧
              capacity_ (data_ t') = acap `max` length ys ∧
              (length ys ≤ acap → data_ t' = mkRawMemory a acap) ∧
              (acap < length ys → heap w' !! a = None))
    as ([] & w' & Hrun & t' & Hrest) by (by exists t', w').
  apply wp_returns.
  eapply wp_Vector_assign_copy; [done|exact Ht|exact Hr|exact Hvt|exact Hvr|exact Hfr|
    exact Hsep| | | |].
  - intros Hsmall _. rewrite decide_True in Hq by done.
    assert (ys ≠ []) as Hys by (intros ->; simpl in Hsmall; lia).
    destruct (holds_nonempty _ _ _ _ _ Hvr Hys) as (Hd & Hdcap & Hdb).
    assert (a ≠ nx) as Hanx.
    { intros ->. destruct (decide (acap = 0)); [congruence|].
      destruct Hblkt as [_ Hb]. congruence. }
    assert (d ≠ nx) as Hdnx by congruence.
    assert (d ≠ a) as Hda.
    { destruct (decide (acap = 0)) as [->|Hacap]; [congruence|].
      apply not_eq_sym. auto. }
    eexists. simpl. rewrite lookup_insert_eq. split; [done|]. split.
    { apply holds_block; [done|done|done|lia|].
      by rewrite lookup_insert_eq, Nat.sub_diag, app_nil_r. }
    rewrite lookup_insert_ne by done. split; [done|]. split.
    { eapply holds_frame; [exact Hvr|]. simpl.
      by rewrite lookup_insert_ne, lookup_delete_ne. }
    split; [simpl; lia|]. split; [intros; lia|]. intros _.
    rewrite lookup_insert_ne by done. apply lookup_delete_eq.
  - intros Hsmall Hth. rewrite decide_True in Hq by done.
    by apply copies_throw_quiet in Hq.
  - intros Hlarge _. rewrite decide_False in Hq by lia.
    eexists. simpl. rewrite lookup_insert_eq. split; [done|].
    rewrite lookup_insert_ne by done.
    destruct (decide (acap = 0)) as [->|Hacap].
    + destruct ys; [|simpl in Hlarge; lia]. subst a.
      split; [apply (holds_default h)|]. split; [done|]. split; [exact Hvr|].
      split; [done|]. split; [done|]. intros; simpl in *; lia.
    + destruct Hblkt as [Ha Hb]. split.
      { apply holds_block; [done|done|done|done|]. by rewrite lookup_insert_eq. }
      split; [done|]. split.
      { eapply holds_other; [exact Hvr|]. unfold Capacity, RawMemory_Capacity. simpl.
        intros Hdcap. rewrite lookup_insert_ne; [done|auto]. }
      split; [simpl; lia|]. split; [done|]. intros; lia.
  - intros Hlarge Hth. rewrite decide_False in Hq by lia.
    by apply copies_throw_quiet in Hq.
Qed.

(** X26. When a copy constructor throws during [a = b], the exception leaves
    the heap and both vectors as they were. *)
Theorem Vector_assign_copy_throw_unchanged
    (w : world T) (this rhs : nat) (t r : Vector) (xs ys : list T) :
  this ≠ rhs →
  vecs w !! this = Some t → vecs w !! rhs = Some r →
  holds (heap w) t xs → holds (heap w) r ys →
  fresh (heap w) (next_addr w) →
  (Capacity t ≠ 0 → Capacity r ≠ 0 → buffer_ (data_ t) ≠ buffer_ (data_ r)) →
  copies_throw (copies w)
    (if decide (Capacity t < length ys) then ys else drop (length xs) ys) →
  ∃ w', Vector_assign_copy this rhs w = Throw w' ∧ heap w' = heap w ∧ vecs w' = vecs w.
Proof.
  intros Hne Ht Hr Hvt Hvr Hfr Hsep Hth.
  destruct w as [h nx c tr rs vs], t as [[a acap] n], r as [[d dcap] m].
  pose proof Hvt as (Hszt & _). pose proof Hvr as (Hszr & _).
  simpl in Hszt, Hszr. subst n m.
  unfold Capacity, RawMemory_Capacity in *. simpl in *.
  apply wp_Throw.
  eapply wp_Vector_assign_copy; [done|exact Ht|exact Hr|exact Hvt|exact Hvr|exact Hfr|
    exact Hsep| | | |].
  - intros Hsmall Hq. rewrite decide_True in Hth by done.
    by apply copies_throw_quiet in Hq.
  - intros _ _ c' tr'. done.
  - intros Hlarge Hq. rewrite decide_False in Hth by lia.
    by apply copies_throw_quiet in Hq.
  - intros _ _ c' tr'. done.
Qed.

Lemma Vector_Swap_runs (a b : nat) (va vb : Vector) h nx c tr rs vs :
  vs !! a = Some va → vs !! b = Some vb →
  Vector_Swap a b (World h nx c tr rs vs) =
    Ok () (World h nx c tr rs (<[b := va]> (<[a := vb]> vs))).
Proof.
  intros Ha Hb. destruct va as [[pa ca] na], vb as [[pb cb] nb].
  unfold Vector_Swap, bind, getv, setv, Swap, RawMemory_Swap. simpl.
  rewrite Ha. simpl. by rewrite Hb.
Qed.

(** X27. [a.Swap(b)] exchanges the buffers and sizes of the two vectors
    without touching an element; swapping again restores the state. *)
Theorem Vector_Swap_exchanges (w : world T) (a b : nat) (va vb : Vector) :
  vecs w !! a = Some va → vecs w !! b = Some vb →
  ∃ w', Vector_Swap a b w = Ok () w' ∧
    vecs w' !! a = Some vb ∧ vecs w' !! b = Some va ∧
    (∀ o, o ≠ a → o ≠ b → vecs w' !! o = vecs w !! o) ∧
    heap w' = heap w ∧ trace w' = trace w ∧
    Vector_Swap a b w' = Ok () w.
Proof.
  intros Ha Hb. destruct w as [h nx c tr rs vs]. simpl in *.
  exists (World h nx c tr rs (<[b := va]> (<[a := vb]> vs))).
  split; [by apply Vector_Swap_runs|]. simpl.
  assert ((<[b := va]> (<[a := vb]> vs)) !! a = Some vb) as Ha'.
  { rewrite !lookup_insert. repeat case_decide; congruence. }
  assert ((<[b := va]> (<[a := vb]> vs)) !! b = Some va) as Hb'.
  { by rewrite lookup_insert_eq. }
  do 2 (split; [done|]).
  split; [by intros; rewrite !lookup_insert_ne|]. do 2 (split; [done|]).
  rewrite (Vector_Swap_runs a b vb va) by done. do 2 f_equal. pointwise.
Qed.

(** ** [PushBack] within the capacity *)

(** X14. As long as the capacity suffices, a series of [PushBack]s appends the
    values in order, keeps the buffer and allocates nothing: pointers to the
    elements stay valid. *)
Theorem PushBack_within_capacity_keeps_the_buffer
    (ys : list T) (w : world T) (o : nat) (v : Vector) (xs : list T) :
  vecs w !! o = Some v →
  holds (heap w) v xs →
  length xs + length ys ≤ Capacity v →
  copies_quiet (copies w) ys →
  ∃ v' w',
    perform_all ((λ y, OpInsertion o (DoPushBack (External y))) <$> ys) w = Ok () w' ∧
    vecs w' !! o = Some v' ∧ holds (heap w') v' (xs ++ ys) ∧
    data_ v' = data_ v ∧ next_addr w' = next_addr w ∧
    (∀ k, k ≠ buffer_ (data_ v) → heap w' !! k = heap w !! k).
Proof.
  revert w v xs. induction ys as [|y ys IH]; intros w v xs Ho Hv Hcap Hq.
  - exists v, w. simpl. rewrite app_nil_r.
    split; [done|]. split; [done|]. split; [exact Hv|]. by repeat split.
  - destruct w as [h nx c tr rs vs], v as [[a cap] n].
    pose proof Hv as (Hsz & Hle & Hblk). simpl in Hsz. subst n.
    unfold Capacity, RawMemory_Capacity in *. simpl in *.
    assert (∃ u w1, perform (OpInsertion o (DoPushBack (External y)))
                      (World h nx c tr rs vs) = Ok u w1 ∧
              (vecs w1 !! o = Some (mkVector (mkRawMemory a cap) (length (xs ++ [y]))) ∧
               holds (heap w1) (mkVector (mkRawMemory a cap) (length (xs ++ [y]))) (xs ++ [y]) ∧
               next_addr w1 = nx ∧ copies w1 = S c ∧
               (∀ k, k ≠ a → heap w1 !! k = h !! k)))
      as ([] & w1 & Hrun & Ho1 & Hv1 & Hnx1 & Hc1 & Hframe1).
    { apply wp_returns. simpl. unfold call. apply wp_bind. eapply wp_getv; [exact Ho|].
      apply wp_bind.
      eapply (wp_insert_room a cap xs (DoPushBack (External y)) y);
        [exact Hv|lia|simpl; lia|constructor| |].
      - intros _ tr'. apply wp_setv. simpl. rewrite lookup_insert_eq.
        rewrite take_ge, drop_ge by lia.
        rewrite length_app. simpl. split; [done|]. split.
        { rewrite decide_False in Hblk by lia. destruct Hblk as [Ha Hb].
          apply holds_block; [done|rewrite length_app; simpl; lia|lia|lia|].
          rewrite lookup_insert_eq, length_app. simpl. do 3 f_equal. lia. }
        split; [done|]. split; [lia|]. intros k Hk. by rewrite lookup_insert_ne.
      - intros Hth. exfalso. eapply copies_throw_quiet; [|exact Hth].
        intros [|i] z Hz; [|done]. simpl in Hz. injection Hz as <-. by apply (Hq 0 y). }
    destruct (IH w1 _ (xs ++ [y]) Ho1 Hv1) as (v' & w' & Hrun' & Ho' & Hv' & Hd' & Hnx' & Hf').
    { unfold Capacity, RawMemory_Capacity. simpl. rewrite length_app. simpl. lia. }
    { rewrite Hc1. intros i z Hz. replace (S c + i) with (c + S i) by lia. by apply Hq. }
    exists v', w'. split.
    { change (bind (perform (OpInsertion o (DoPushBack (External y))))
                (λ _, perform_all ((λ z, OpInsertion o (DoPushBack (External z))) <$> ys))
                (World h nx c tr rs vs) = Ok () w').
      unfold bind. by rewrite Hrun. }
    simpl. split; [done|]. split; [by rewrite <- app_assoc in Hv'|].
    split; [done|]. split; [congruence|]. intros k Hk. rewrite Hf' by done. by apply Hframe1.
Qed.

(** ** [RawMemory] *)

(** X2. Move assignment into a [RawMemory] that owns nothing transfers the
    allocation and leaves the source with a null address and capacity 0. *)
Theorem RawMemory_assign_move_into_empty (w : world T) (this rhs : nat) (t r : RawMemory) :
  this ≠ rhs →
  raws w !! this = Some t → raws w !! rhs = Some r →
  buffer_ t = null →
  ∃ w', RawMemory_assign_move this rhs w = Ok () w' ∧
    raws w' !! this = Some r ∧
    raws w' !! rhs = Some (mkRawMemory null 0) ∧
    heap w' = heap w.
Proof.
  intros Hne Ht Hr Hnull. destruct w as [h nx c tr rs vs], t as [a cap], r as [d dcap].
  simpl in *. subst a.
  unfold RawMemory_assign_move. rewrite decide_True by done.
  unfold bind, get_raw, Deallocate, set_raw. simpl.
  rewrite Ht. simpl. rewrite lookup_insert_eq. simpl.
  rewrite lookup_insert_ne, Hr by done. simpl.
  eexists. split; [done|]. simpl.
  by rewrite lookup_insert_ne, lookup_insert_eq, lookup_insert_eq by done.
Qed.

(** ** Operations that cannot throw *)

Lemma nt_ret {A} (a : A) : never_throws (T:=T) (ret a).
Proof. by intros w. Qed.

Lemma nt_undefined {A} : never_throws (T:=T) (A:=A) undefined.
Proof. by intros w. Qed.

Lemma nt_bind {A B} (m : M T A) (f : A → M T B) :
  never_throws m → (∀ a, never_throws (f a)) → never_throws (bind m f).
Proof.
  intros Hm Hf w. unfold bind. specialize (Hm w).
  destruct (m w) as [a w1|w1|]; [|done..].
  specialize (Hf a w1). destruct (f a w1) as [b w2|w2|]; [|done..].
  destruct Hm, Hf. split; congruence.
Qed.

Ltac nt_step :=
  lazymatch goal with
  | |- never_throws (bind _ _) => apply nt_bind; [|intros ?]
  | |- never_throws (ret _) => apply nt_ret
  | |- never_throws undefined => apply nt_undefined
  | |- never_throws (if ?c then _ else _) => destruct c
  | |- never_throws (match ?x with _ => _ end) => destruct x
  | |- never_throws (let '(_, _) := ?x in _) => destruct x
  end.

Lemma nt_emit e : never_throws (T:=T) (emit e).
Proof. by intros w. Qed.

Lemma nt_put p s : never_throws (T:=T) (put p s).
Proof. intros w. unfold put. destruct (heap w !! p.1); [|done]. by case_decide. Qed.

Lemma nt_load p : never_throws (T:=T) (load p).
Proof. intros w. unfold load. by destruct (slot_at w p) as [[x|]|]. Qed.

Lemma nt_Deallocate a : never_throws (T:=T) (Deallocate a).
Proof.
  intros w. unfold Deallocate. case_decide; [done|]. by destruct (heap w !! a).
Qed.

Lemma nt_assert c : never_throws (T:=T) (assert c).
Proof. by destruct c. Qed.

Lemma nt_getv o : never_throws (T:=T) (getv o).
Proof. intros w. unfold getv. by destruct (vecs w !! o). Qed.

Lemma nt_setv o v : never_throws (T:=T) (setv o v).
Proof. by intros w. Qed.

Create HintDb nothrow discriminated.
Hint Resolve nt_emit nt_put nt_load nt_Deallocate nt_assert nt_getv nt_setv : nothrow.

Ltac nt_auto := repeat (nt_step || solve [eauto with nothrow]).

Lemma nt_assign_at p x : never_throws (T:=T) (assign_at p x).
Proof. unfold assign_at. nt_auto. Qed.

Lemma nt_destroy_at p : never_throws (T:=T) (destroy_at p).
Proof. unfold destroy_at. nt_auto. Qed.

Lemma nt_read r : never_throws (T:=T) (read r).
Proof. unfold read. nt_auto. Qed.

Lemma nt_leave_moved r x : never_throws (T:=T) (leave_moved r x).
Proof. unfold leave_moved. nt_auto. Qed.
Hint Resolve nt_assign_at nt_destroy_at nt_read nt_leave_moved : nothrow.

Lemma nt_copy_assign p r : never_throws (T:=T) (copy_assign p r).
Proof. unfold copy_assign. nt_auto. Qed.

Lemma nt_move_assign p r : never_throws (T:=T) (move_assign p r).
Proof. unfold move_assign. nt_auto. Qed.

Lemma nt_destroy_n n : ∀ p, never_throws (T:=T) (destroy_n p n).
Proof. induction n; intros p; simpl; nt_auto. Qed.

Lemma nt_for_range n (body : nat → M T unit) :
  (∀ i, never_throws (body i)) → ∀ first, never_throws (for_range first n body).
Proof. intros Hb. induction n; intros first; simpl; nt_auto. Qed.

Lemma nt_distance p q : never_throws (T:=T) (distance p q).
Proof. unfold distance. nt_auto. Qed.

Lemma nt_ptr_pred p : never_throws (T:=T) (ptr_pred p).
Proof. unfold ptr_pred. nt_auto. Qed.

Lemma nt_RawMemory_index r k : never_throws (T:=T) (RawMemory_index r k).
Proof. unfold RawMemory_index. nt_auto. Qed.

Lemma nt_RawMemory_dtor r : never_throws (T:=T) (RawMemory_dtor r).
Proof. unfold RawMemory_dtor. nt_auto. Qed.
Hint Resolve nt_copy_assign nt_move_assign nt_destroy_n nt_distance nt_ptr_pred
  nt_RawMemory_index nt_RawMemory_dtor : nothrow.

Lemma nt_Vector_dtor v : never_throws (T:=T) (Vector_dtor v).
Proof. unfold Vector_dtor. nt_auto. Qed.

Lemma nt_Erase v pos : never_throws (T:=T) (Erase v pos).
Proof.
  unfold Erase. apply nt_bind; [apply nt_distance|intros d].
  apply nt_bind; [apply nt_assert|intros _].
  apply nt_bind.
  { destruct is_move_assignable; apply nt_for_range; intros i; nt_auto. }
  intros _. nt_auto.
Qed.

Lemma nt_PopBack v : never_throws (T:=T) (PopBack v).
Proof. unfold PopBack. nt_auto. Qed.

Lemma nt_call o (f : Vector → M T Vector) :
  (∀ v, never_throws (f v)) → never_throws (call o f).
Proof. intros Hf. unfold call. nt_auto. Qed.

Lemma nt_Vector_assign_move this rhs : never_throws (T:=T) (Vector_assign_move this rhs).
Proof.
  unfold Vector_assign_move, Vector_ctor_move, Swap. nt_auto.
  all: simpl; nt_auto; apply nt_Vector_dtor.
Qed.

Lemma nt_Vector_Swap (a b : nat) : never_throws (T:=T) (Vector_Swap a b).
Proof. unfold Vector_Swap, Swap. nt_auto. Qed.

(** X28. [Erase], [PopBack], move assignment and [Swap] let no exception out,
    invoke no copy constructor and allocate nothing, in whatever state they
    are called; so does the move constructor. *)
Theorem in_place_operations_never_throw :
  (∀ op : operation T, in_place op = true → never_throws (perform op)) ∧
  (∀ o s, never_throws (T:=T) (declare_moved o s)).
Proof.
  split.
  - intros op Hop. destruct op; try done; simpl.
    + apply nt_call. intros v. apply nt_bind; [apply nt_Erase|intros r; apply nt_ret].
    + apply nt_call, nt_PopBack.
    + apply nt_Vector_assign_move.
    + apply nt_Vector_Swap.
  - intros o s w. unfold declare_moved. destruct (vecs w !! o); [done|].
    assert (never_throws (T:=T)
              (bind (getv s) (λ r, let '(v, r') := Vector_ctor_move r in
                                   bind (setv s r') (λ _, setv o v)))) as Hnt.
    { unfold Vector_ctor_move, Swap. nt_auto. }
    apply Hnt.
Qed.

(** ** Consistent stores *)

Lemma consistent_next h nx nx' vs :
  consistent h nx vs → nx ≤ nx' → consistent h nx' vs.
Proof.
  intros ((Hnx & Hnull & Hbelow) & Hrest) Hle. split; [|exact Hrest].
  split; [unfold null in *; lia|]. split; [done|].
  intros k B HB. apply Hbelow in HB. simpl in *. lia.
Qed.

(** One vector of the store changes, inside its buffer or into a buffer
    that was not allocated; a buffer it gives up is released. *)
Lemma consistent_change h nx vs o v h' nx' v' xs' :
  consistent h nx vs → vs !! o = Some v →
  holds h' v' xs' →
  nx ≤ nx' → h' !! null = None →
  (Capacity v' ≠ 0 → buffer_ (data_ v') < nx') →
  (∀ k, k ≠ buffer_ (data_ v) → k ≠ buffer_ (data_ v') → h' !! k = h !! k) →
  (buffer_ (data_ v') = buffer_ (data_ v) ∨ h !! buffer_ (data_ v') = None) →
  (buffer_ (data_ v) ≠ buffer_ (data_ v') → h' !! buffer_ (data_ v) = None) →
  consistent h' nx' (<[o := v']> vs).
Proof.
  intros ((Hnx & Hnull & Hbelow) & Hholds & Hdistinct & Howner) Ho Hv' Hle Hnull' Hlt
    Hframe Hnew Hold.
  assert (∀ o' u, o' ≠ o → vs !! o' = Some u → Capacity u ≠ 0 →
            buffer_ (data_ u) ≠ buffer_ (data_ v) ∧
            buffer_ (data_ u) ≠ buffer_ (data_ v') ∧
            is_Some (h !! buffer_ (data_ u))) as Hother.
  { intros o' u Hne Hu Hcap. destruct (Hholds o' u Hu) as (ys & _ & _ & Hblk).
    unfold Capacity, RawMemory_Capacity in Hcap.
    rewrite decide_False in Hblk by done. destruct Hblk as [_ Hb].
    assert (buffer_ (data_ u) ≠ buffer_ (data_ v)) as H1 by eauto.
    split; [done|]. split; [|eauto].
    destruct Hnew as [Heq|Hnone]; congruence. }
  assert (Capacity v' ≠ 0 → buffer_ (data_ v') ≠ null) as Hv'null.
  { intros Hcap. destruct Hv' as (_ & _ & Hblk).
    unfold Capacity, RawMemory_Capacity in Hcap.
    rewrite decide_False in Hblk by done. tauto. }
  assert (∀ u ys, holds h u ys → Capacity u = 0 → buffer_ (data_ u) = null) as Hzero.
  { intros u ys (_ & _ & Hblk) Hcap. unfold Capacity, RawMemory_Capacity in Hcap.
    by rewrite decide_True in Hblk. }
  split; [|split; [|split]].
  - split; [unfold null in *; lia|]. split; [done|].
    intros k B HB. simpl.
    destruct (decide (k = buffer_ (data_ v'))) as [->|Hk'].
    { apply Hlt. intros Hcap. destruct Hv' as (_ & _ & Hblk).
      unfold Capacity, RawMemory_Capacity in Hcap.
      rewrite decide_True in Hblk by done. congruence. }
    destruct (decide (k = buffer_ (data_ v))) as [->|Hk].
    { rewrite Hold in HB by done. done. }
    rewrite Hframe in HB by done. apply Hbelow in HB. simpl in HB. lia.
  - intros o' u Hu. destruct (decide (o' = o)) as [->|Hne].
    + rewrite lookup_insert_eq in Hu. injection Hu as <-. eauto.
    + rewrite lookup_insert_ne in Hu by done.
      destruct (Hholds o' u Hu) as (ys & Hys). exists ys.
      eapply holds_other; [exact Hys|]. intros Hcap.
      destruct (Hother o' u Hne Hu Hcap) as (H1 & H2 & _). by apply Hframe.
  - intros o1 o2 v1 v2 H1 H2 Hne Hcap.
    destruct (decide (o1 = o)) as [->|Hne1], (decide (o2 = o)) as [->|Hne2]; [done|..].
    + rewrite lookup_insert_eq in H1. rewrite lookup_insert_ne in H2 by done.
      injection H1 as <-.
      destruct (decide (Capacity v2 = 0)) as [Hz|Hnz].
      * destruct (Hholds o2 v2 H2) as (ys & Hys). rewrite (Hzero v2 ys Hys Hz). auto.
      * destruct (Hother o2 v2 Hne2 H2 Hnz) as (_ & ? & _). by apply not_eq_sym.
    + rewrite lookup_insert_ne in H1 by done. rewrite lookup_insert_eq in H2.
      injection H2 as <-. by destruct (Hother o1 v1 Hne1 H1 Hcap) as (_ & ? & _).
    + rewrite lookup_insert_ne in H1, H2 by done. eauto.
  - intros k B HB.
    destruct (decide (k = buffer_ (data_ v'))) as [->|Hk'].
    { exists o, v'. by rewrite lookup_insert_eq. }
    destruct (decide (k = buffer_ (data_ v))) as [->|Hk].
    { rewrite Hold in HB by done. done. }
    rewrite Hframe in HB by done.
    destruct (Howner k B HB) as (o' & u & Hu & Hbuf).
    exists o', u. split; [|done]. rewrite lookup_insert_ne; [done|].
    intros ->. congruence.
Qed.

(** Two vectors of the store exchange what they own. *)
Lemma consistent_exchange h nx vs (a b : nat) va vb :
  consistent h nx vs → vs !! a = Some va → vs !! b = Some vb →
  consistent h nx (<[b := va]> (<[a := vb]> vs)).
Proof.
  intros (Hfr & Hholds & Hdistinct & Howner) Ha Hb.
  assert (∀ o u, (<[b := va]> (<[a := vb]> vs)) !! o = Some u →
            ∃ o', vs !! o' = Some u ∧ (o = b → o' = a) ∧ (o ≠ b → o = a → o' = b) ∧
                  (o ≠ b → o ≠ a → o' = o)) as Hback.
  { intros o u Hu. rewrite !lookup_insert in Hu.
    destruct (decide (b = o)) as [->|Hnb].
    - injection Hu as <-. exists a. by repeat split.
    - destruct (decide (a = o)) as [->|Hna].
      + injection Hu as <-. exists b. by repeat split.
      + exists o. by repeat split. }
  split; [done|]. split; [|split].
  - intros o u Hu. destruct (Hback o u Hu) as (o' & Hu' & _). eauto.
  - intros o1 o2 v1 v2 H1 H2 Hne Hcap.
    destruct (Hback o1 v1 H1) as (o1' & H1' & Hb1 & Ha1 & Hn1).
    destruct (Hback o2 v2 H2) as (o2' & H2' & Hb2 & Ha2 & Hn2).
    apply (Hdistinct o1' o2' v1 v2 H1' H2'); [|done].
    destruct (decide (o1 = b)), (decide (o2 = b)), (decide (o1 = a)), (decide (o2 = a));
      subst; try congruence;
      rewrite ?Hb1, ?Hb2, ?Ha1, ?Ha2, ?Hn1, ?Hn2 by done; congruence.
  - intros k B HB. destruct (Howner k B HB) as (o & u & Hu & Hbuf).
    destruct (decide (o = a)) as [->|Hna].
    + exists b, u. rewrite lookup_insert_eq. split; congruence.
    + destruct (decide (o = b)) as [->|Hnb].
      * exists a, u. rewrite lookup_insert_ne, lookup_insert_eq by done. split; congruence.
      * exists o, u. by rewrite !lookup_insert_ne.
Qed.

(** Constructing the new element leaves every vector holding some
    elements: an element that is moved from stays a live object. *)
Lemma holds_after_make h (args : ctor_args T) u ys :
  holds h u ys → ∃ ys', holds (heap_after_make args h) u ys'.
Proof.
  intros Hu. destruct args as [r|[x|[pa pi]]]; simpl; eauto.
  destruct (h !! pa) as [B|] eqn:HB; [|eauto].
  destruct (B !! pi) as [[x|]|] eqn:Hx; [|eauto..].
  destruct Hu as (Hsz & Hle & Hblk).
  destruct (decide (capacity_ (data_ u) = 0)) as [Hz|Hnz].
  { exists ys. split; [done|]. split; [done|]. by rewrite decide_True. }
  destruct Hblk as [Hnull Hb].
  destruct (decide (pa = buffer_ (data_ u))) as [->|Hne].
  - rewrite HB in Hb. injection Hb as ->.
    assert (pi < length ys) as Hpi.
    { destruct (decide (pi < length ys)); [done|].
      rewrite lookup_app_r in Hx by (rewrite length_fmap; lia).
      apply lookup_replicate in Hx as [? _]. done. }
    exists (<[pi := moved_from x]> ys). split; [by rewrite length_insert|].
    split; [by rewrite length_insert|]. rewrite decide_False by done. split; [done|].
    rewrite lookup_insert_eq, length_insert. f_equal.
    rewrite insert_app_l by (by rewrite length_fmap).
    by rewrite list_fmap_insert.
  - exists ys. split; [done|]. split; [done|]. rewrite decide_False by done.
    split; [done|]. by rewrite lookup_insert_ne.
Qed.

Lemma heap_after_make_is_Some h (args : ctor_args T) k :
  is_Some (heap_after_make args h !! k) ↔ is_Some (h !! k).
Proof.
  destruct args as [r|[x|[pa pi]]]; simpl; try done.
  destruct (h !! pa) as [B|] eqn:HB; [|done].
  destruct (B !! pi) as [[x|]|] eqn:Hx; [|done..].
  destruct (decide (pa = k)) as [->|Hne].
  - rewrite lookup_insert_eq, HB. split; eauto.
  - by rewrite lookup_insert_ne.
Qed.

Lemma consistent_after_make h nx vs (args : ctor_args T) :
  consistent h nx vs → consistent (heap_after_make args h) nx vs.
Proof.
  intros ((Hnx & Hnull & Hbelow) & Hholds & Hdistinct & Howner).
  split; [|split; [|split]].
  - split; [done|]. split.
    + apply eq_None_not_Some. rewrite heap_after_make_is_Some. by rewrite Hnull.
    + intros k B HB. assert (is_Some (h !! k)) as [B' HB'].
      { apply (heap_after_make_is_Some h args). eauto. }
      by apply Hbelow in HB'.
  - intros o u Hu. destruct (Hholds o u Hu) as (ys & Hys).
    by apply (holds_after_make h args u ys).
  - done.
  - intros k B HB. assert (is_Some (h !! k)) as [B' HB'].
    { apply (heap_after_make_is_Some h args). eauto. }
    eauto.
Qed.

Lemma consistent_same h nx vs o v :
  consistent h nx vs → vs !! o = Some v → consistent h nx (<[o := v]> vs).
Proof. intros Hc Ho. by rewrite insert_id. Qed.

Lemma consistent_in_place h nx vs o a cap n xs n' xs' B :
  consistent h nx vs → vs !! o = Some (mkVector (mkRawMemory a cap) n) →
  holds h (mkVector (mkRawMemory a cap) n) xs → cap ≠ 0 →
  B = (Some <$> xs') ++ replicate (cap - n') None →
  n' = length xs' → n' ≤ cap →
  consistent (<[a := B]> h) nx (<[o := mkVector (mkRawMemory a cap) n']> vs).
Proof.
  intros Hc Ho (_ & _ & Hblk) Hcap -> -> Hle. simpl in Hblk.
  rewrite decide_False in Hblk by done. destruct Hblk as [Ha Hb].
  pose proof Hc as ((Hnx & Hnull & Hbelow) & _).
  eapply (consistent_change h nx vs o _ _ nx _ xs'); [exact Hc|exact Ho| |done| | | | |].
  - apply holds_block; [done|done|done|done|]. by rewrite lookup_insert_eq.
  - by rewrite lookup_insert_ne.
  - intros _. by apply Hbelow in Hb.
  - intros k Hk _. simpl in Hk. by rewrite lookup_insert_ne.
  - by left.
  - done.
Qed.

Lemma consistent_moved h nx vs o a cap n xs cap' n' xs' B :
  consistent h nx vs → vs !! o = Some (mkVector (mkRawMemory a cap) n) →
  holds h (mkVector (mkRawMemory a cap) n) xs →
  B = (Some <$> xs') ++ replicate (cap' - n') None →
  n' = length xs' → n' ≤ cap' → cap' ≠ 0 →
  consistent (<[nx := B]> (delete a h)) (S nx)
    (<[o := mkVector (mkRawMemory nx cap') n']> vs).
Proof.
  intros Hc Ho (_ & _ & Hblk) -> -> Hle Hcap. simpl in Hblk.
  pose proof Hc as (Hfr & _). pose proof Hfr as (Hnx & Hnull & Hbelow).
  assert (h !! nx = None) as Hnone by (by apply fresh_unused).
  assert (a ≠ nx) as Hanx.
  { intros ->. destruct (decide (cap = 0)); [congruence|]. destruct Hblk. congruence. }
  eapply (consistent_change h nx vs o _ _ (S nx) _ xs'); [exact Hc|exact Ho| |lia| | | | |].
  - apply holds_block; [done|done|done|done|]. by rewrite lookup_insert_eq.
  - rewrite lookup_insert_ne by done. rewrite lookup_delete.
    by destruct (decide (a = null)).
  - intros _. simpl. lia.
  - intros k Hk Hk'. simpl in *. by rewrite lookup_insert_ne, lookup_delete_ne.
  - by right.
  - intros _. simpl. rewrite lookup_insert_ne by done. apply lookup_delete_eq.
Qed.

Ltac block := first [done | do 2 f_equal; lia].

Lemma wp_call o (f : Vector → M T Vector) v h nx c tr rs vs Q E :
  vs !! o = Some v →
  wp (f v) (World h nx c tr rs vs) (λ v' w', wp (setv o v') w' Q E) E →
  wp (call o f) (World h nx c tr rs vs) Q E.
Proof. intros Ho Hf. unfold call. apply wp_bind. eapply wp_getv; [exact Ho|]. by apply wp_bind. Qed.

(** A valid call in a consistent store has no undefined behaviour and
    leaves a consistent store, whether it returns or throws. *)
Lemma perform_is_safe (op : operation T) h nx c tr rs vs :
  consistent h nx vs → Machine.valid (World h nx c tr rs vs) op →
  wp (perform op) (World h nx c tr rs vs) (λ _ w', well_formed w') well_formed.
Proof.
  intros Hc Hvalid. pose proof Hc as (Hfr & Hholds & Hdistinct & Howner).
  pose proof Hfr as (Hnx & Hnull & Hbelow).
  assert (∀ c' tr', consistent h (S nx) vs →
            well_formed (World h (S nx) c' tr' rs vs)) as Hthrown by done.
  assert (consistent h (S nx) vs) as Hc' by (eapply consistent_next; [exact Hc|lia]).
  destruct op as [o i|o pos|o|o n|o n|this rhs|this rhs|a b]; simpl in Hvalid |- *.
  - (* an insertion *)
    destruct Hvalid as (v & Ho & Hd & x & Harg).
    destruct (Hholds o v Ho) as (xs & Hv). destruct v as [[a cap] m].
    pose proof Hv as (Hsz & Hle & Hblk). simpl in Hsz. subst m.
    unfold Size in Hd. simpl in Hd, Hle.
    assert (consistent (heap_after_make (insertion_args i) h) nx vs) as Hc1
      by (by apply consistent_after_make).
    assert (holds (heap_after_make (insertion_args i) h)
              (mkVector (mkRawMemory a cap) (length xs)) xs) as Hv1.
    { eapply holds_frame; [exact Hv|].
      apply (heap_after_make_lookup_ne h _ _ x _ Harg). by left. }
    eapply wp_call; [exact Ho|].
    destruct (decide (length xs < cap)) as [Hroom|Hfull].
    + eapply wp_insert_room; [exact Hv|done|done|exact Harg| |].
      * intros _ tr'. apply wp_setv. unfold well_formed. simpl.
        eapply consistent_in_place; [exact Hc1|exact Ho|exact Hv1|lia|block| |lia].
        rewrite length_inserted. lia.
      * intros _ c' tr'. exact Hc.
    + eapply wp_insert_grow; [exact Hv|lia|exact Hfr|done|exact Harg| |].
      * intros _. apply wp_setv. unfold well_formed. simpl.
        eapply consistent_moved; [exact Hc1|exact Ho|exact Hv1|block| | |].
        -- rewrite length_inserted. lia.
        -- destruct (decide (length xs = 0)); lia.
        -- destruct (decide (length xs = 0)); lia.
      * intros _ c' tr'. unfold well_formed. simpl.
        eapply consistent_next; [exact Hc1|lia].
  - (* Erase *)
    destruct Hvalid as (v & Ho & Hpos).
    destruct (Hholds o v Ho) as (xs & Hv). destruct v as [[a cap] m].
    pose proof Hv as (Hsz & Hle & Hblk). simpl in Hsz. subst m.
    unfold Size in Hpos. simpl in Hpos, Hle.
    destruct (lookup_lt_is_Some_2 xs pos Hpos) as [z Hz].
    eapply wp_call; [exact Ho|]. apply wp_bind. simpl.
    eapply wp_Erase; [exact Hv|exact Hz|].
    apply wp_ret, wp_setv. unfold well_formed. simpl.
    eapply consistent_in_place; [exact Hc|exact Ho|exact Hv|lia|block| |lia].
    rewrite length_delete by eauto. done.
  - (* PopBack *)
    destruct Hvalid as [v Ho].
    destruct (Hholds o v Ho) as (xs & Hv). destruct v as [[a cap] m].
    pose proof Hv as (Hsz & Hle & Hblk). simpl in Hsz. subst m. simpl in Hle.
    eapply wp_call; [exact Ho|].
    destruct xs as [|z xs _] using rev_ind.
    + simpl. apply wp_ret, wp_setv. by apply consistent_same.
    + rewrite length_app in Hle. simpl in Hle.
      eapply wp_PopBack; [exact Hv|].
      apply wp_setv. unfold well_formed. simpl.
      eapply consistent_in_place; [exact Hc|exact Ho|exact Hv|lia|block|done|lia].
  - (* Resize *)
    destruct Hvalid as [[v Ho] _].
    destruct (Hholds o v Ho) as (xs & Hv). destruct v as [[a cap] m].
    pose proof Hv as (Hsz & Hle & Hblk). simpl in Hsz. subst m. simpl in Hle.
    assert (length (take n xs ++ replicate (n - length xs) value_init) = n) as Hlen.
    { rewrite length_app, length_take, length_replicate. lia. }
    eapply wp_call; [exact Ho|].
    eapply wp_Resize; [exact Hv|exact Hfr| | |].
    + intros Hn. apply wp_setv. unfold well_formed. simpl.
      destruct (decide (cap = 0)) as [->|Hcap].
      * assert (n = 0) as -> by lia. destruct xs; [|simpl in Hle; lia].
        by apply consistent_same.
      * eapply consistent_in_place; [exact Hc|exact Ho|exact Hv|done|block|by rewrite Hlen|lia].
    + intros Hn _. apply wp_setv. unfold well_formed. simpl.
      eapply (consistent_moved _ _ _ _ _ _ _ _ n n); [exact Hc|exact Ho|exact Hv| | |lia|lia].
      * by rewrite Nat.sub_diag, app_nil_r.
      * by rewrite Hlen.
    + intros _ _ c' tr'. by apply Hthrown.
  - (* Reserve *)
    destruct Hvalid as [[v Ho] _].
    destruct (Hholds o v Ho) as (xs & Hv). destruct v as [[a cap] m].
    pose proof Hv as (Hsz & Hle & Hblk). simpl in Hsz. subst m. simpl in Hle.
    eapply wp_call; [exact Ho|].
    destruct (decide (n ≤ cap)) as [Hsmall|Hbig].
    + unfold Reserve, RawMemory_Capacity. simpl. rewrite decide_True by done.
      apply wp_ret, wp_setv. by apply consistent_same.
    + eapply wp_Reserve; [exact Hv|exact Hfr|lia| |].
      * intros _. apply wp_setv. unfold well_formed. simpl.
        eapply consistent_moved; [exact Hc|exact Ho|exact Hv|block|done|lia|lia].
      * intros _ c' tr'. by apply Hthrown.
  - (* copy assignment *)
    destruct Hvalid as ([t Ht] & [r Hr]).
    destruct (decide (this = rhs)) as [->|Hne].
    { unfold wp, Vector_assign_copy. by rewrite decide_False by (by intros ?). }
    destruct (Hholds this t Ht) as (xs & Hvt). destruct (Hholds rhs r Hr) as (ys & Hvr).
    destruct t as [[a acap] m], r as [[d dcap] k].
    pose proof Hvt as (Hszt & Hlet & _). pose proof Hvr as (Hszr & _).
    simpl in Hszt, Hszr, Hlet. subst m k.
    eapply wp_Vector_assign_copy; [done|exact Ht|exact Hr|exact Hvt|exact Hvr|exact Hfr|
      | | | |].
    + intros Ha Hd. by apply (Hdistinct this rhs _ _ Ht Hr).
    + intros Hsmall _. unfold well_formed. simpl.
      eapply (consistent_moved _ _ _ _ _ _ _ _ (length ys) (length ys));
        [exact Hc|exact Ht|exact Hvt| |done|lia|lia].
      by rewrite Nat.sub_diag, app_nil_r.
    + intros _ _ c' tr'. by apply Hthrown.
    + intros Hlarge _. unfold well_formed. simpl.
      destruct (decide (acap = 0)) as [->|Hacap].
      * destruct ys; [|simpl in Hlarge; lia]. destruct xs; [|simpl in Hlet; lia].
        by apply consistent_same.
      * eapply consistent_in_place; [exact Hc|exact Ht|exact Hvt|done|block|done|lia].
    + intros _ _ c' tr'. exact Hc.
  - (* move assignment *)
    destruct Hvalid as ([t Ht] & [r Hr]).
    destruct (decide (this = rhs)) as [->|Hne].
    { unfold wp, Vector_assign_move. by rewrite decide_False by (by intros ?). }
    destruct (Hholds this t Ht) as (xs & Hvt). destruct (Hholds rhs r Hr) as (ys & Hvr).
    destruct t as [[a acap] m], r as [[d dcap] k].
    pose proof Hvt as (Hszt & Hlet & Hblkt). pose proof Hvr as (Hszr & _).
    simpl in Hszt, Hszr, Hlet, Hblkt. subst m k.
    assert (consistent h nx
              (<[rhs := mkVector (mkRawMemory a acap) (length xs)]>
                 (<[this := mkVector (mkRawMemory d dcap) (length ys)]> vs))) as Hswapped
      by (by apply consistent_exchange).
    unfold Vector_assign_move. rewrite decide_True by done.
    apply wp_bind. eapply wp_getv; [exact Ht|]. apply wp_bind. eapply wp_getv; [exact Hr|].
    unfold Size, RawMemory_Capacity. simpl.
    destruct (decide (acap < length ys)) as [Hsmall|Hlarge].
    + simpl. apply wp_bind, wp_setv, wp_bind, wp_setv.
      eapply wp_Vector_dtor; [exact Hvt|exact Hnull|].
      unfold well_formed. simpl.
      replace (<[this := mkVector (mkRawMemory d dcap) (length ys)]>
                 (<[rhs := mkVector (mkRawMemory null 0) 0]> vs))
        with (<[rhs := mkVector (mkRawMemory null 0) 0]>
                (<[rhs := mkVector (mkRawMemory a acap) (length xs)]>
                   (<[this := mkVector (mkRawMemory d dcap) (length ys)]> vs)))
        by pointwise.
      eapply (consistent_change h nx _ rhs _ _ nx _ []);
        [exact Hswapped|apply lookup_insert_eq|apply holds_default|done| | | | |].
      * rewrite lookup_delete. by destruct (decide (a = null)).
      * by intros Hcap.
      * intros k Hk _. simpl in *. by rewrite lookup_delete_ne.
      * by right.
      * intros _. simpl. apply lookup_delete_eq.
    + simpl. apply wp_bind, wp_setv, wp_setv. exact Hswapped.
  - (* Swap *)
    destruct Hvalid as ([va Ha] & [vb Hb]).
    unfold wp. rewrite (Vector_Swap_runs a b va vb) by done.
    by apply consistent_exchange.
Qed.

(** A valid call asks for no capacity whose byte size wraps. *)
Lemma perform_fits (op : operation T) w :
  Machine.valid w op → Machine.perform op w = perform op w.
Proof.
  destruct op as [o i|o pos|o|o n|o n|this rhs|this rhs|a b]; simpl; try done;
    intros [_ Hfits]; unfold call, bind; destruct (getv o w) as [v w1|w1|]; try done.
  - by rewrite Resize_fits.
  - by rewrite Reserve_fits.
Qed.

(** X29. Every sequence of valid calls on a consistent store runs without
    undefined behaviour, and the store in which it returns, or in which the
    exception of a copy constructor leaves it, is consistent again: every
    vector owns a buffer of its own with its elements in it, and every
    allocation of the heap is the buffer of a vector. *)
Theorem valid_operations_are_safe (ops : list (operation T)) (w : world T) :
  well_formed w → Machine.valid_all ops w →
  match Machine.perform_all ops w with
  | Ok _ w' | Throw w' => well_formed w'
  | UB => False
  end.
Proof.
  revert w. induction ops as [|op ops IH]; intros w Hw Hvalid; [done|].
  destruct Hvalid as [Hop Hrest].
  change (Machine.perform_all (op :: ops) w)
    with (bind (Machine.perform op) (λ _, Machine.perform_all ops) w).
  unfold bind. rewrite perform_fits in Hrest |- * by done.
  destruct w as [h nx c tr rs vs].
  pose proof (perform_is_safe op h nx c tr rs vs Hw Hop) as Hsafe. unfold wp in Hsafe.
  destruct (perform op _) as [[] w1|w1|]; [|done..]. by apply IH.
Qed.

(** ** Lifetimes of vector objects *)

Lemma consistent_add_empty h nx vs o :
  consistent h nx vs → vs !! o = None → consistent h nx (<[o := Vector_default]> vs).
Proof.
  intros (Hfr & Hholds & Hdistinct & Howner) Ho.
  split; [done|]. split; [|split].
  - intros o' u Hu. destruct (decide (o' = o)) as [->|Hne].
    + rewrite lookup_insert_eq in Hu. injection Hu as <-. exists []. apply holds_default.
    + rewrite lookup_insert_ne in Hu by done. eauto.
  - intros o1 o2 v1 v2 H1 H2 Hne Hcap.
    destruct (decide (o1 = o)) as [->|Hne1].
    { rewrite lookup_insert_eq in H1. by injection H1 as <-. }
    rewrite lookup_insert_ne in H1 by done.
    destruct (decide (o2 = o)) as [->|Hne2].
    + rewrite lookup_insert_eq in H2. injection H2 as <-. simpl.
      destruct (Hholds o1 v1 H1) as (ys & _ & _ & Hblk).
      unfold Capacity, RawMemory_Capacity in Hcap.
      rewrite decide_False in Hblk by done. tauto.
    + rewrite lookup_insert_ne in H2 by done. eauto.
  - intros k B HB. destruct (Howner k B HB) as (o' & u & Hu & Hbuf).
    exists o', u. split; [|done]. rewrite lookup_insert_ne; [done|]. congruence.
Qed.

Lemma consistent_remove_empty h nx vs o v :
  consistent h nx vs → vs !! o = Some v → Capacity v = 0 → consistent h nx (delete o vs).
Proof.
  intros (Hfr & Hholds & Hdistinct & Howner) Ho Hcap.
  split; [done|]. split; [|split].
  - intros o' u Hu. apply lookup_delete_Some in Hu as [_ Hu]. eauto.
  - intros o1 o2 v1 v2 H1 H2. apply lookup_delete_Some in H1 as [_ H1].
    apply lookup_delete_Some in H2 as [_ H2]. eauto.
  - intros k B HB. destruct (Howner k B HB) as (o' & u & Hu & Hbuf).
    exists o', u. split; [|done]. apply lookup_delete_Some. split; [|done].
    intros Heq. subst o'. assert (u = v) as -> by congruence.
    destruct (Hholds o v Ho) as (ys & _ & _ & Hblk).
    unfold Capacity, RawMemory_Capacity in Hcap. rewrite decide_True in Hblk by done.
    destruct Hfr as (_ & Hnull & _). congruence.
Qed.

(** X7. Definitions of new vector objects (of a given size whose byte size
    does not wrap, as a copy, by move) and the destruction of a vector
    object keep the store consistent: a copy constructor that throws leaves
    no allocation behind, and a destroyed vector leaves no allocation
    behind. *)
Theorem lifetimes_keep_the_store_consistent (w : world T) (o : nat) :
  well_formed w →
  (vecs w !! o = None →
     (∀ n, Machine.fits n →
        ∃ w', declare o (Machine.Vector_ctor_size n) w = Ok () w' ∧ well_formed w' ∧
              contents_of w' o = Some (replicate n value_init)) ∧
     (∀ s v, vecs w !! s = Some v →
        match declare o (Vector_ctor_copy v) w with
        | Ok _ w' => well_formed w' ∧ contents_of w' o = contents_of w s
        | Throw w' => well_formed w' ∧ vecs w' = vecs w ∧ heap w' = heap w
        | UB => False
        end) ∧
     (∀ s v, vecs w !! s = Some v →
        ∃ w', declare_moved o s w = Ok () w' ∧ well_formed w' ∧
              contents_of w' o = contents_of w s ∧ size_of w' s = Some 0)) ∧
  (∀ v, vecs w !! o = Some v →
     ∃ w', Vector_destroy o w = Ok () w' ∧ well_formed w' ∧
           vecs w' = delete o (vecs w) ∧
           heap w' = delete (buffer_ (data_ v)) (heap w)).
Proof.
  intros Hw. destruct w as [h nx c tr rs vs]. unfold well_formed in Hw. simpl in *.
  pose proof Hw as (Hfr & Hholds & Hdistinct & Howner).
  pose proof Hfr as (Hnx & Hnull & Hbelow).
  assert (h !! nx = None) as Hnone by (by apply fresh_unused).
  split.
  - intros Ho. pose proof (consistent_add_empty h nx vs o Hw Ho) as Hw0.
    assert ((<[o := Vector_default]> vs) !! o = Some Vector_default) as Ho0
      by apply lookup_insert_eq.
    split; [|split].
    + (* a vector of a given size *)
      intros n Hfits. rewrite Vector_ctor_size_fits by done.
      unfold declare. simpl. rewrite Ho.
      enough (∃ u w', bind (Vector_ctor_size n) (λ v, setv o v) (World h nx c tr rs vs)
                        = Ok u w' ∧
                (well_formed w' ∧ contents_of w' o = Some (replicate n value_init)))
        as ([] & w' & Hrun & Hrest) by (by exists w').
      apply wp_returns, wp_bind.
      destruct (decide (n = 0)) as [->|Hn].
      * simpl. unfold wp. simpl. split; [exact Hw0|].
        unfold contents_of. simpl. by rewrite lookup_insert_eq.
      * apply wp_Vector_ctor_size; [done|]. apply wp_setv.
        assert (holds (<[nx := replicate n (Some value_init)]> h)
                  (mkVector (mkRawMemory nx n) n) (replicate n value_init)) as Hv.
        { apply holds_block; [done|by rewrite length_replicate|done|done|].
          rewrite lookup_insert_eq, length_replicate, Nat.sub_diag, app_nil_r.
          by rewrite fmap_replicate. }
        split.
        -- unfold well_formed. simpl.
           rewrite <- (insert_insert_eq vs o _ Vector_default).
           eapply (consistent_change h nx _ o Vector_default _ (S nx) _ _);
             [exact Hw0|exact Ho0|exact Hv|lia| | | | |].
           ++ by rewrite lookup_insert_ne.
           ++ intros _. simpl. lia.
           ++ intros k _ Hk. simpl in Hk. by rewrite lookup_insert_ne.
           ++ by right.
           ++ intros _. simpl. by rewrite lookup_insert_ne.
        -- unfold contents_of. simpl. rewrite lookup_insert_eq. simpl.
           by apply (holds_contents (World _ _ _ _ _ _)).
    + (* a copy *)
      intros s v Hs. destruct (Hholds s v Hs) as (xs & Hv). destruct v as [[a cap] m].
      pose proof Hv as (Hsz & Hle & Hblk). simpl in Hsz. subst m.
      unfold declare. simpl. rewrite Ho.
      assert (contents_of (World h nx c tr rs vs) s = Some xs) as Hcs.
      { unfold contents_of. simpl. rewrite Hs. simpl.
        by apply (holds_contents (World _ _ _ _ _ _)). }
      rewrite Hcs.
      enough (wp (bind (Vector_ctor_copy (mkVector (mkRawMemory a cap) (length xs)))
                    (λ v, setv o v)) (World h nx c tr rs vs)
                (λ _ w', well_formed w' ∧ contents_of w' o = Some xs)
                (λ w', well_formed w' ∧ vecs w' = vs ∧ heap w' = h)) as Hwp.
      { unfold wp in Hwp. by destruct (bind _ _ _) as [[] w'|w'|]. }
      apply wp_bind.
      destruct (decide (xs = [])) as [->|Hne].
      * unfold wp. simpl. split; [exact Hw0|].
        unfold contents_of. simpl. by rewrite lookup_insert_eq.
      * assert (length xs ≠ 0) as Hlen by (by destruct xs).
        eapply wp_Vector_ctor_copy; [exact Hv|exact Hfr|exact Hne| |].
        -- intros _. apply wp_setv.
           assert (holds (<[nx := Some <$> xs]> h)
                     (mkVector (mkRawMemory nx (length xs)) (length xs)) xs) as Hv'.
           { apply holds_block; [done|done|done|done|].
             by rewrite lookup_insert_eq, Nat.sub_diag, app_nil_r. }
           split.
           ++ unfold well_formed. simpl.
              rewrite <- (insert_insert_eq vs o _ Vector_default).
              eapply (consistent_change h nx _ o Vector_default _ (S nx) _ _);
                [exact Hw0|exact Ho0|exact Hv'|lia| | | | |].
              ** by rewrite lookup_insert_ne.
              ** intros _. simpl. lia.
              ** intros k _ Hk. simpl in Hk. by rewrite lookup_insert_ne.
              ** by right.
              ** intros _. simpl. by rewrite lookup_insert_ne.
           ++ unfold contents_of. simpl. rewrite lookup_insert_eq. simpl.
              by apply (holds_contents (World _ _ _ _ _ _)).
        -- intros _ c' tr'. split; [|done].
           unfold well_formed. simpl. eapply consistent_next; [exact Hw|lia].
    + (* by move *)
      intros s v Hs. destruct (Hholds s v Hs) as (xs & Hv). destruct v as [[a cap] m].
      assert (o ≠ s) as Hne by congruence.
      unfold declare_moved, bind, getv, setv. simpl. rewrite Ho, Hs. simpl.
      eexists. split; [done|]. split; [|split].
      * unfold well_formed. simpl.
        replace (<[o := mkVector (mkRawMemory a cap) m]>
                   (<[s := mkVector (mkRawMemory null 0) 0]> vs))
          with (<[o := mkVector (mkRawMemory a cap) m]>
                  (<[s := Vector_default]> (<[o := Vector_default]> vs)))
          by pointwise.
        apply consistent_exchange; [exact Hw0| |exact Ho0].
        by rewrite lookup_insert_ne.
      * unfold contents_of. simpl.
        by rewrite lookup_insert_eq, Hs.
      * unfold size_of. simpl. by rewrite lookup_insert_ne, lookup_insert_eq.
  - (* destruction *)
    intros v Ho. destruct (Hholds o v Ho) as (xs & Hv). destruct v as [[a cap] m].
    pose proof Hv as (Hsz & Hle & Hblk). simpl in Hsz. subst m.
    unfold Vector_destroy.
    enough (∃ u w', bind (getv o) (λ v, bind (Vector_dtor v) (λ _ w,
                      Ok () (World (heap w) (next_addr w) (copies w) (trace w) (raws w)
                                   (delete o (vecs w))))) (World h nx c tr rs vs) = Ok u w' ∧
              (well_formed w' ∧ vecs w' = delete o vs ∧ heap w' = delete a h))
      as ([] & w' & Hrun & Hrest) by (by exists w').
    apply wp_returns, wp_bind. eapply wp_getv; [exact Ho|].
    apply wp_bind. eapply wp_Vector_dtor; [exact Hv|exact Hnull|].
    unfold wp. simpl. split; [|done].
    unfold well_formed. simpl.
    replace (delete o vs) with (delete o (<[o := Vector_default]> vs)) by pointwise.
    eapply (consistent_remove_empty _ _ _ o Vector_default); [|apply lookup_insert_eq|done].
    eapply (consistent_change h nx vs o _ _ nx _ []);
      [exact Hw|exact Ho|apply holds_default|done| | | | |].
    + rewrite lookup_delete. by destruct (decide (a = null)).
    + by intros Hcap.
    + intros k Hk _. simpl in *. by rewrite lookup_delete_ne.
    + by right.
    + intros _. simpl. apply lookup_delete_eq.
Qed.

(** ** Positions behind the end *)

Lemma bind_never_returns {A B} (m : M T A) (f : A → M T B) w :
  (∀ a w1, ∀ r w2, f a w1 ≠ Ok r w2) → ∀ r w2, bind m f w ≠ Ok r w2.
Proof.
  intros Hf r w2. unfold bind. destruct (m w) as [a w1|w1|]; [apply Hf|done..].
Qed.

Lemma bind_never_returns_l {A B} (m : M T A) (f : A → M T B) w :
  (∀ a w1, m w ≠ Ok a w1) → ∀ r w2, bind m f w ≠ Ok r w2.
Proof.
  intros Hm r w2. unfold bind. destruct (m w) as [a w1|w1|]; [by destruct (Hm a w1)|done..].
Qed.

Lemma bind_distance {B} (a i j : nat) (f : nat → M T B) w :
  i ≤ j → bind (distance (a, i) (a, j)) f w = f (j - i) w.
Proof. intros Hle. unfold bind, distance. simpl. by rewrite decide_True. Qed.

(** X13. An insertion at a position behind [end()] never returns: [Emplace]
    and both [Insert]s run into undefined behaviour, unless copying the
    argument throws first. *)
Theorem Emplace_behind_the_end_never_returns
    (w : world T) (v : Vector) (d : nat) (args : ctor_args T) (value : ref T) :
  Size v < d →
  (∀ r w', Emplace v (cbegin v +ₚ d) args w ≠ Ok r w') ∧
  (∀ r w', Insert v (cbegin v +ₚ d) value w ≠ Ok r w') ∧
  (∀ r w', Insert_move v (cbegin v +ₚ d) value w ≠ Ok r w').
Proof.
  intros Hd. unfold Size in Hd.
  enough (∀ args w r w', Emplace v (cbegin v +ₚ d) args w ≠ Ok r w') as Hem.
  { split; [apply Hem|]. split; intros r w'; apply Hem. }
  clear args w. intros args w. destruct v as [[a cap] n]. simpl in Hd.
  unfold Emplace. apply bind_never_returns. intros d0 w0.
  apply bind_never_returns_l. simpl.
  destruct (decide (n + 1 ≤ Capacity (mkVector (mkRawMemory a cap) n))) as [Hroom|Hfull].
  - (* in place: the range to shift is not a range *)
    apply bind_never_returns_l.
    unfold EmplaceWithoutReallocate, cbegin, end_, begin_, RawMemory_GetAddress, ptr_add. simpl.
    intros r w1. rewrite bind_distance by lia. rewrite Nat.sub_0_r. revert r w1.
    rewrite decide_False by (intros [= ?]; lia).
    apply bind_never_returns. intros x w2. destruct n as [|last]; [done|].
    apply bind_never_returns. intros back w3.
    apply bind_never_returns. intros y w4.
    apply bind_never_returns. intros u w5.
    intros k w6. unfold bind, distance. simpl.
    by rewrite decide_False by (intros [_ ?]; lia).
  - (* with reallocation: the distance to the end is not defined *)
    unfold EmplaceWithReallocate, cbegin, cend, begin_, RawMemory_GetAddress, ptr_add. simpl.
    apply bind_never_returns. intros d1 w1.
    intros k w2. unfold bind, distance. simpl.
    by rewrite decide_False by (intros [_ ?]; lia).
Qed.

(** ** Growth by [PushBack] *)

Lemma call_runs o (f : Vector → M T Vector) v v' w w' :
  vecs w !! o = Some v → f v w = Ok v' w' →
  call o f w = Ok () (World (heap w') (next_addr w') (copies w') (trace w') (raws w')
                            (<[o := v']> (vecs w'))).
Proof. intros Ho Hf. unfold call, bind, getv. by rewrite Ho, Hf. Qed.

Lemma geometric_push size capacity :
  geometric size capacity →
  geometric (size + 1)
    (if decide (size < capacity) then capacity
     else if decide (size = 0) then 1 else size * 2).
Proof.
  intros [[-> ->]|(Hle & Hlt & j & ->)].
  - simpl. right. split; [lia|]. split; [lia|]. by exists 0.
  - right. destruct (decide (size < 2 ^ j)) as [Hroom|Hfull].
    + split; [lia|]. split; [lia|]. by exists j.
    + assert (size = 2 ^ j) as -> by lia.
      rewrite decide_False by lia. split; [lia|]. split; [lia|].
      exists (S j). rewrite Nat.pow_succ_r'. lia.
Qed.

Lemma PushBack_grows_geometrically (ys : list T) :
  ∀ (w : world T) (o : nat) (v : Vector) (xs : list T),
  vecs w !! o = Some v →
  holds (heap w) v xs →
  fresh (heap w) (next_addr w) →
  quiet_from (copies w) →
  geometric (Size v) (Capacity v) →
  ∃ v' w',
    perform_all ((λ y, OpInsertion o (DoPushBack (External y))) <$> ys) w = Ok () w' ∧
    vecs w' !! o = Some v' ∧ holds (heap w') v' (xs ++ ys) ∧
    geometric (Size v') (Capacity v').
Proof.
  induction ys as [|y ys IH]; intros w o v xs Ho Hv Hfr Hq Hgeo.
  - exists v, w. simpl. rewrite app_nil_r. by repeat (split; [done|]).
  - destruct (insert_runs w v xs (DoPushBack (External y)) y Hv Hfr)
      as (v1 & w1 & Hrun & Hv1 & Hsz1 & Hvecs1 & Hfr1 & Hroom & _ & Hgrow & Hc1).
    { simpl. destruct Hv as (-> & _). lia. }
    { constructor. }
    { by apply copies_quiet_from. }
    simpl in Hv1. rewrite take_ge, drop_ge in Hv1 by (destruct Hv as (-> & _); lia).
    pose proof (call_runs o (λ v, insert v (DoPushBack (External y))) v v1 w w1 Ho Hrun)
      as Hcall.
    set (w2 := World (heap w1) (next_addr w1) (copies w1) (trace w1) (raws w1)
                     (<[o := v1]> (vecs w1))) in *.
    destruct (IH w2 o v1 (xs ++ [y])) as (v' & w' & Hrun' & Ho' & Hv' & Hgeo').
    + apply lookup_insert_eq.
    + exact Hv1.
    + exact Hfr1.
    + intros k z Hk. apply Hq. simpl in Hk. lia.
    + rewrite Hsz1. pose proof (geometric_push _ _ Hgeo) as Hpush.
      destruct (decide (Size v < Capacity v)) as [Hlt|Hge].
      * destruct (Hroom Hlt) as [Hd _]. unfold Capacity. by rewrite Hd.
      * rewrite Hgrow by lia. exact Hpush.
    + exists v', w'. split.
      { change (bind (perform (OpInsertion o (DoPushBack (External y))))
                  (λ _, perform_all ((λ z, OpInsertion o (DoPushBack (External z))) <$> ys))
                  w = Ok () w').
        unfold bind.
        change (perform (OpInsertion o (DoPushBack (External y))) w)
          with (call o (λ v, insert v (DoPushBack (External y))) w).
        by rewrite Hcall. }
      split; [done|]. split; [by rewrite <- app_assoc in Hv'|done].
Qed.

(** X15. A vector that is filled by [PushBack] alone, starting empty without a
    buffer, always has as its capacity the least power of two that is not
    below its size: at least the size and less than twice the size. *)
Theorem PushBack_from_empty_capacity_is_power_of_two
    (ys : list T) (w : world T) (o : nat) :
  vecs w !! o = Some Vector_default →
  fresh (heap w) (next_addr w) →
  quiet_from (copies w) →
  ys ≠ [] →
  ∃ v' w',
    perform_all ((λ y, OpInsertion o (DoPushBack (External y))) <$> ys) w = Ok () w' ∧
    vecs w' !! o = Some v' ∧ holds (heap w') v' ys ∧
    length ys ≤ Capacity v' ∧ Capacity v' < 2 * length ys ∧
    ∃ j, Capacity v' = 2 ^ j.
Proof.
  intros Ho Hfr Hq Hne.
  destruct (PushBack_grows_geometrically ys w o Vector_default [] Ho (holds_default _) Hfr Hq)
    as (v' & w' & Hrun & Ho' & Hv' & Hgeo); [by left|].
  exists v', w'. split; [exact Hrun|]. split; [exact Ho'|]. split; [exact Hv'|].
  destruct Hv' as (Hsz & _). unfold Size in Hgeo. rewrite Hsz in Hgeo. simpl in Hgeo.
  destruct Hgeo as [[Hz _]|Hgeo]; [by destruct ys|done].
Qed.

(** ** The cost of an insertion into spare capacity *)

(** The calls into [T] of an insertion at index [d] of [n] elements that
    does not reallocate: the construction of the new value, and for a
    position before the end the move construction of the last element,
    [n - d] move assignments and the destruction of the temporary. *)
Lemma wp_EmplaceWithoutReallocate_cost a cap xs args x d h nx c tr rs vs Q E :
  let v := mkVector (mkRawMemory a cap) (length xs) in
  holds h v xs → length xs < cap → d ≤ length xs →
  arg_value h v args x →
  copies_quiet c (copied_by_make args x) →
  (∀ h', Q () (World h' nx (c + length (copied_by_make args x))
                 (tr ++ ctor_event args ::
                    if decide (d = length xs) then []
                    else EvMoveCtor :: replicate (length xs - d) EvMoveAssign ++ [EvDtor])
                 rs vs)) →
  wp (EmplaceWithoutReallocate v (a, d) args) (World h nx c tr rs vs) Q E.
Proof.
  intros v (_ & _ & Hblk) Hroom Hd Harg Hq HQ. simpl in Hblk.
  rewrite decide_False in Hblk by lia. destruct Hblk as [Hanull Ha].
  rewrite <- (heap_after_make_lookup_ne h v args x a) in Ha by (done || by left).
  set (h1 := heap_after_make args h) in *.
  unfold EmplaceWithoutReallocate, cbegin, end_, begin_, RawMemory_GetAddress, ptr_add; simpl.
  apply wp_bind, wp_distance; [lia|]. rewrite Nat.sub_0_r.
  destruct (decide ((a, d) = (a, length xs))) as [Heq|Hneq].
  - assert (d = length xs) as -> by congruence.
    apply wp_bind. eapply (wp_make h v args x); [done|..].
    2:{ intros Hth. by apply copies_throw_quiet in Hq. }
    intros _. fold h1.
    rewrite (replicate_split_at None (cap - length xs) 0) in Ha by lia. simpl in Ha.
    eapply wp_construct_at; [exact Ha|by apply lookup_mid, length_fmap|].
    eapply post_eq; [apply HQ|]. f_equal. by rewrite decide_True.
  - assert (d < length xs) as Hlt by (assert (d ≠ length xs) by congruence; lia).
    apply wp_bind. eapply (wp_make h v args x); [done|..].
    2:{ intros Hth. by apply copies_throw_quiet in Hq. }
    intros _. fold h1.
    assert (∀ h', Q () (World h' nx (c + length (copied_by_make args x))
                    (tr ++ ctor_event args :: EvMoveCtor ::
                       replicate (length xs - d) EvMoveAssign ++ [EvDtor]) rs vs)) as HQ'.
    { intros h'. eapply post_eq; [apply (HQ h')|]. f_equal. by rewrite decide_False by lia. }
    clear HQ.
    destruct xs as [|y xs0 _] using rev_ind; [simpl in Hlt; lia|].
    rewrite length_app in Hlt, Hroom, Ha, HQ' |- *. simpl in Hlt, Hroom, Ha, HQ' |- *.
    rewrite Nat.add_1_r in Hlt, Hroom, Ha, HQ' |- *. simpl.
    assert (d ≤ length xs0) as Hd0 by lia.
    assert (h1 !! a = Some ((Some <$> xs0) ++ Some y :: None :: replicate (cap - S (S (length xs0))) None))
      as Ha'.
    { rewrite Ha. f_equal. rewrite fmap_app, <- app_assoc. simpl. do 2 f_equal.
      rewrite (replicate_split_at None (cap - S (length xs0)) 0) by lia. simpl.
      do 2 f_equal. lia. }
    apply wp_bind, wp_RawMemory_index; [simpl; lia|]. simpl.
    apply wp_bind. eapply wp_move_construct_buf; [exact Ha'|by apply lookup_mid, length_fmap|].
    rewrite insert_mid by apply length_fmap.
    apply wp_bind. eapply wp_construct_at.
    { apply lookup_insert_eq. }
    { rewrite (snoc_assoc _ _ (Some (moved_from y))). apply lookup_mid.
      rewrite length_app, length_fmap. simpl. lia. }
    rewrite insert_insert_eq.
    rewrite (snoc_assoc _ _ (Some (moved_from y))),
      insert_mid by (rewrite length_app, length_fmap; simpl; lia).
    apply wp_bind, wp_distance; [lia|].
    apply wp_bind.
    eapply (wp_move_backward_len (length xs0 - d) (S (length xs0)) (drop d xs0) a d
              (moved_from y) (Some <$> take d xs0)
              (Some y :: replicate (cap - S (S (length xs0))) None)).
    { by rewrite length_drop. }
    { lia. }
    { rewrite lookup_insert_eq. f_equal. rewrite <- !app_assoc. simpl.
      by rewrite app_assoc, fmap_take_drop. }
    { by rewrite length_fmap, length_take_le. }
    intros z'. rewrite insert_insert_eq.
    apply wp_bind, wp_RawMemory_index; [simpl; lia|]. simpl.
    apply wp_bind. eapply wp_move_assign_ext.
    { apply lookup_insert_eq. }
    { apply lookup_mid. by rewrite length_fmap, length_take_le. }
    apply wp_emit. eapply post_eq; [apply HQ'|]. f_equal.
    rewrite <- !app_assoc. simpl. do 3 f_equal.
    replace (S (length xs0) - d) with (S (length xs0 - d)) by lia.
    rewrite replicate_S_end. by rewrite <- app_assoc.
Qed.

Lemma wp_Emplace_cost a cap xs args x d h nx c tr rs vs Q E :
  let v := mkVector (mkRawMemory a cap) (length xs) in
  holds h v xs → length xs < cap → d ≤ length xs →
  arg_value h v args x →
  copies_quiet c (copied_by_make args x) →
  (∀ h' r, Q r (World h' nx (c + length (copied_by_make args x))
                 (tr ++ ctor_event args ::
                    if decide (d = length xs) then []
                    else EvMoveCtor :: replicate (length xs - d) EvMoveAssign ++ [EvDtor])
                 rs vs)) →
  wp (Emplace v (a, d) args) (World h nx c tr rs vs) Q E.
Proof.
  intros v Hv Hroom Hd Harg Hq HQ.
  unfold Emplace, cbegin, begin_, Capacity, RawMemory_Capacity, RawMemory_GetAddress, ptr_add.
  simpl. apply wp_bind, wp_distance; [lia|]. rewrite Nat.sub_0_r.
  rewrite decide_True by lia.
  apply wp_bind, wp_bind.
  eapply wp_EmplaceWithoutReallocate_cost; [exact Hv|done|done|exact Harg|exact Hq|].
  intros h'. apply wp_ret, wp_ret. apply HQ.
Qed.

(** X12. An insertion into spare capacity copies no element that is already in
    the vector: it constructs the new value from its arguments, and for a
    position before the end it move-constructs the last element one slot
    further, performs one move assignment per element from the position on,
    and destroys the temporary. *)
Theorem insertion_into_spare_capacity_cost
    (w : world T) (v : Vector) (xs : list T) (i : insertion T) (x : T) :
  holds (heap w) v xs →
  Size v < Capacity v →
  insertion_index v i ≤ length xs →
  arg_value (heap w) v (insertion_args i) x →
  copies_quiet (copies w) (copied_by_make (insertion_args i) x) →
  ∃ v' w', insert v i w = Ok v' w' ∧
    trace w' = trace w ++ ctor_event (insertion_args i) ::
      (if decide (insertion_index v i = length xs) then []
       else EvMoveCtor :: replicate (length xs - insertion_index v i) EvMoveAssign ++ [EvDtor]) ∧
    copies w' = copies w + length (copied_by_make (insertion_args i) x) ∧
    next_addr w' = next_addr w.
Proof.
  intros Hv Hroom Hd Harg Hq.
  destruct w as [h nx c tr rs vs], v as [[a cap] n].
  pose proof Hv as (Hsz & Hle & Hblk). simpl in Hsz. subst n.
  unfold Capacity, RawMemory_Capacity, Size in *. simpl in *.
  apply wp_returns.
  destruct i as [pos ea|ea|pos value|pos value|value|value]; simpl in *.
  - apply wp_bind. eapply wp_Emplace_cost; [exact Hv|done|done|exact Harg|exact Hq|]. intros h' r. by apply wp_ret.
  - apply wp_bind. unfold EmplaceBack, end_, RawMemory_GetAddress, ptr_add. simpl.
    eapply wp_Emplace_cost; [exact Hv|done|done|exact Harg|exact Hq|]. intros h' r. by apply wp_ret.
  - apply wp_bind. unfold Insert. eapply wp_Emplace_cost; [exact Hv|done|done|exact Harg|exact Hq|].
    intros h' r. by apply wp_ret.
  - apply wp_bind. unfold Insert_move. eapply wp_Emplace_cost; [exact Hv|done|done|exact Harg|exact Hq|].
    intros h' r. by apply wp_ret.
  - unfold PushBack, end_, Capacity, RawMemory_Capacity, RawMemory_GetAddress, ptr_add. simpl.
    rewrite decide_True by lia. apply wp_bind, wp_bind.
    eapply wp_EmplaceWithoutReallocate_cost; [exact Hv|done|done|exact Harg|exact Hq|].
    intros h'. by apply wp_ret, wp_ret.
  - unfold PushBack_move, end_, Capacity, RawMemory_Capacity, RawMemory_GetAddress, ptr_add.
    simpl. rewrite decide_True by lia. apply wp_bind, wp_bind.
    eapply wp_EmplaceWithoutReallocate_cost; [exact Hv|done|done|exact Harg|exact Hq|].
    intros h'. by apply wp_ret, wp_ret.
Qed.

End Further.

(** * The further properties on concrete vectors *)

Section Further_on_ints.
#[local] Existing Instance int_Element.
#[local] Existing Instance int_Sized.

Lemma quiet_ints (c : nat) (xs : list Z) : copies_quiet c xs.
Proof. intros i y Hy. reflexivity. Defined.

Lemma fresh_roomy_and_small : fresh (heap roomy_and_small) (next_addr roomy_and_small).
Proof.
  split; [discriminate|]. split; [vm_compute; reflexivity|].
  apply map_Forall_insert_2; [simpl; lia|].
  apply map_Forall_singleton. simpl. lia.
Defined.

Lemma holds_roomy : holds (heap roomy_and_small) (mkVector (mkRawMemory 1 4) 0) [].
Proof.
  split; [reflexivity|]. split; [simpl; lia|].
  split; [discriminate|vm_compute; reflexivity].
Defined.

Lemma holds_small : holds (heap roomy_and_small) (mkVector (mkRawMemory 2 1) 1) [1%Z].
Proof.
  split; [reflexivity|]. split; [simpl; lia|].
  split; [discriminate|vm_compute; reflexivity].
Defined.

Lemma Erase_removes_the_element_witness :
  let v := mkVector (mkRawMemory 3 4) 3 in
  holds (heap three_of_four) v [1; 2; 3]%Z ∧ 1 < 3 ∧
  ∃ v' w', Erase v (cbegin v +ₚ 1) three_of_four = Ok (v', begin_ v' +ₚ 1) w' ∧
    holds (heap w') v' [1; 3]%Z ∧ data_ v' = data_ v.
Proof.
  intros v. split; [exact holds_three_of_four|]. split; [lia|].
  destruct (Erase_removes_the_element three_of_four v [1; 2; 3]%Z 1 holds_three_of_four)
    as (v' & w' & Hrun & Hv' & _ & Hd & _); [simpl; lia|].
  exists v', w'. split; [exact Hrun|]. split; [exact Hv'|exact Hd].
Defined.

Lemma Erase_at_the_end_removes_the_last_witness :
  let v := mkVector (mkRawMemory 3 4) 3 in
  holds (heap three_of_four) v ([1; 2] ++ [3])%Z ∧
  ∃ v' w', Erase v (end_ v) three_of_four = Ok (v', end_ v' +ₚ 1) w' ∧
    holds (heap w') v' [1; 2]%Z.
Proof.
  intros v. split; [exact holds_three_of_four|].
  destruct (Erase_at_the_end_removes_the_last three_of_four v [1; 2]%Z 3%Z holds_three_of_four)
    as (v' & w' & Hrun & Hv' & _).
  exists v', w'. split; [exact Hrun|exact Hv'].
Defined.

Lemma PopBack_removes_the_last_witness :
  let v := mkVector (mkRawMemory 3 4) 3 in
  holds (heap three_of_four) v ([1; 2] ++ [3])%Z ∧
  ∃ v' w', PopBack v three_of_four = Ok v' w' ∧ holds (heap w') v' [1; 2]%Z.
Proof.
  intros v. split; [exact holds_three_of_four|].
  destruct (PopBack_removes_the_last three_of_four v [1; 2]%Z 3%Z holds_three_of_four)
    as (v' & w' & Hrun & Hv' & _).
  exists v', w'. split; [exact Hrun|exact Hv'].
Defined.

Lemma empty_vector_PopBack_and_Erase_witness :
  Size Vector_default = 0 ∧
  PopBack Vector_default one_empty_vector = Ok Vector_default one_empty_vector ∧
  Erase Vector_default (cbegin Vector_default) one_empty_vector = UB.
Proof.
  destruct (empty_vector_PopBack_and_Erase one_empty_vector Vector_default) as [Hpop Herase];
    [reflexivity|].
  split; [reflexivity|]. split; [exact Hpop|apply Herase].
Defined.

Lemma Vector_index_in_and_out_of_bounds_witness :
  let v := mkVector (mkRawMemory 3 4) 3 in
  holds (heap three_of_four) v [1; 2; 3]%Z ∧
  load (begin_ v +ₚ 2) three_of_four = Ok 3%Z three_of_four ∧
  Vector_index v 3 three_of_four = UB.
Proof.
  intros v. split; [exact holds_three_of_four|].
  destruct (Vector_index_in_and_out_of_bounds three_of_four v [1; 2; 3]%Z 2 holds_three_of_four)
    as [Hin _].
  destruct (Vector_index_in_and_out_of_bounds three_of_four v [1; 2; 3]%Z 3 holds_three_of_four)
    as [_ Hout].
  split; [apply (Hin 3%Z); reflexivity|apply Hout; simpl; lia].
Defined.

Lemma Vector_ctor_size_makes_default_elements_witness :
  fresh (heap three_of_four) (next_addr three_of_four) ∧
  Machine.fits 2 ∧
  ∃ v w', Machine.Vector_ctor_size 2 three_of_four = Ok v w' ∧
    holds (heap w') v [0; 0]%Z ∧ Capacity v = 2.
Proof.
  assert (Machine.fits 2) as Hfits by (by vm_compute).
  split; [exact fresh_three_of_four|]. split; [exact Hfits|].
  destruct (Vector_ctor_size_makes_default_elements three_of_four 2 fresh_three_of_four Hfits)
    as (v & w' & Hrun & Hv & _ & Hc & _).
  exists v, w'. split; [exact Hrun|]. split; [exact Hv|exact Hc].
Defined.

Lemma Vector_ctor_copy_copies_the_elements_witness :
  let other := mkVector (mkRawMemory 3 4) 3 in
  holds (heap three_of_four) other [1; 2; 3]%Z ∧
  fresh (heap three_of_four) (next_addr three_of_four) ∧
  ∃ v w', Vector_ctor_copy other three_of_four = Ok v w' ∧
    holds (heap w') v [1; 2; 3]%Z ∧ Capacity v = 3.
Proof.
  intros other. split; [exact holds_three_of_four|]. split; [exact fresh_three_of_four|].
  destruct (Vector_ctor_copy_copies_the_elements three_of_four other [1; 2; 3]%Z
              holds_three_of_four fresh_three_of_four (quiet_ints _ _))
    as (v & w' & Hrun & Hv & _ & _ & Hc & _).
  exists v, w'. split; [exact Hrun|]. split; [exact Hv|exact Hc].
Defined.

Lemma Vector_dtor_releases_the_buffer_witness :
  let v := mkVector (mkRawMemory 3 4) 3 in
  holds (heap three_of_four) v [1; 2; 3]%Z ∧ heap three_of_four !! null = None ∧
  ∃ w', Vector_dtor v three_of_four = Ok () w' ∧
    heap w' = delete 3 (heap three_of_four) ∧ trace w' = [EvDtor; EvDtor; EvDtor].
Proof.
  intros v. split; [exact holds_three_of_four|].
  assert (heap three_of_four !! null = None) as Hnull by (vm_compute; reflexivity).
  split; [exact Hnull|].
  destruct (Vector_dtor_releases_the_buffer three_of_four v [1; 2; 3]%Z
              holds_three_of_four Hnull) as (w' & Hrun & Hh & Htr).
  exists w'. split; [exact Hrun|]. split; [exact Hh|exact Htr].
Defined.

Lemma Reserve_keeps_the_elements_witness :
  let v := mkVector (mkRawMemory 1 2) 2 in
  holds (heap two_of_two) v [5; 6]%Z ∧
  fresh (heap two_of_two) (next_addr two_of_two) ∧
  Machine.fits 5 ∧
  ∃ v' w', Machine.Reserve v 5 two_of_two = Ok v' w' ∧
    holds (heap w') v' [5; 6]%Z ∧ Capacity v' = 5.
Proof.
  intros v. assert (Machine.fits 5) as Hfits by (by vm_compute).
  split; [exact holds_two_of_two|]. split; [exact fresh_two_of_two|]. split; [exact Hfits|].
  destruct (Reserve_keeps_the_elements two_of_two v [5; 6]%Z 5
              holds_two_of_two fresh_two_of_two Hfits (quiet_ints _ _))
    as (v' & w' & Hrun & Hv' & _ & Hc & _).
  exists v', w'. split; [exact Hrun|]. split; [exact Hv'|exact Hc].
Defined.

Lemma Resize_truncates_or_appends_witness :
  let v := mkVector (mkRawMemory 1 2) 2 in
  holds (heap two_of_two) v [5; 6]%Z ∧
  fresh (heap two_of_two) (next_addr two_of_two) ∧
  Machine.fits 4 ∧ Machine.fits 1 ∧
  (∃ v' w', Machine.Resize v 4 two_of_two = Ok v' w' ∧
     holds (heap w') v' [5; 6; 0; 0]%Z ∧ Capacity v' = 4) ∧
  (∃ v' w', Machine.Resize v 1 two_of_two = Ok v' w' ∧
     holds (heap w') v' [5]%Z ∧ Capacity v' = 2).
Proof.
  intros v. assert (Machine.fits 4) as Hfits4 by (by vm_compute).
  assert (Machine.fits 1) as Hfits1 by (by vm_compute).
  split; [exact holds_two_of_two|]. split; [exact fresh_two_of_two|].
  split; [exact Hfits4|]. split; [exact Hfits1|]. split.
  - destruct (Resize_truncates_or_appends two_of_two v [5; 6]%Z 4
                holds_two_of_two fresh_two_of_two Hfits4 (quiet_ints _ _))
      as (v' & w' & Hrun & Hv' & _ & Hc & _).
    exists v', w'. split; [exact Hrun|]. split; [exact Hv'|exact Hc].
  - destruct (Resize_truncates_or_appends two_of_two v [5; 6]%Z 1
                holds_two_of_two fresh_two_of_two Hfits1 (quiet_ints _ _))
      as (v' & w' & Hrun & Hv' & _ & Hc & _).
    exists v', w'. split; [exact Hrun|]. split; [exact Hv'|exact Hc].
Defined.

Lemma insertion_places_the_element_witness :
  let v := mkVector (mkRawMemory 3 4) 3 in
  let i := DoInsert 1 (External 9%Z) in
  holds (heap three_of_four) v [1; 2; 3]%Z ∧
  fresh (heap three_of_four) (next_addr three_of_four) ∧
  insertion_index v i ≤ 3 ∧
  ∃ v' w', insert v i three_of_four = Ok v' w' ∧
    holds (heap w') v' [1; 9; 2; 3]%Z ∧ data_ v' = data_ v.
Proof.
  intros v i. split; [exact holds_three_of_four|]. split; [exact fresh_three_of_four|].
  split; [simpl; lia|].
  destruct (insertion_places_the_element three_of_four v [1; 2; 3]%Z i 9%Z
              holds_three_of_four fresh_three_of_four)
    as (v' & w' & Hrun & Hv' & _ & Hroom); [simpl; lia|constructor|apply quiet_ints|].
  exists v', w'. split; [exact Hrun|]. split; [exact Hv'|].
  apply Hroom. vm_compute. lia.
Defined.

Lemma Emplace_returns_the_new_element_witness :
  let v := mkVector (mkRawMemory 3 4) 3 in
  holds (heap three_of_four) v [1; 2; 3]%Z ∧
  fresh (heap three_of_four) (next_addr three_of_four) ∧
  ∃ v' it w', Emplace v (cbegin v +ₚ 1) (CopyOf (External 9%Z)) three_of_four = Ok (v', it) w' ∧
    load it w' = Ok 9%Z w' ∧ Vector_index v' 1 w' = Ok it w'.
Proof.
  intros v. split; [exact holds_three_of_four|]. split; [exact fresh_three_of_four|].
  destruct (Emplace_returns_the_new_element three_of_four v [1; 2; 3]%Z 1
              (CopyOf (External 9%Z)) 9%Z holds_three_of_four fresh_three_of_four)
    as (v' & it & w' & Hrun & _ & Hload & Hidx & _);
    [simpl; lia|constructor|apply quiet_ints|].
  exists v', it, w'. split; [exact Hrun|]. split; [exact Hload|exact Hidx].
Defined.

Lemma insertion_into_spare_capacity_cost_witness :
  let v := mkVector (mkRawMemory 3 4) 3 in
  let i := DoInsert 1 (External 9%Z) in
  holds (heap three_of_four) v [1; 2; 3]%Z ∧
  Size v < Capacity v ∧
  insertion_index v i ≤ 3 ∧
  ∃ v' w', insert v i three_of_four = Ok v' w' ∧
    trace w' = [EvCopyCtor; EvMoveCtor; EvMoveAssign; EvMoveAssign; EvDtor].
Proof.
  intros v i. split; [exact holds_three_of_four|].
  assert (Size v < Capacity v) as Hroom by (vm_compute; lia).
  split; [exact Hroom|]. split; [simpl; lia|].
  destruct (insertion_into_spare_capacity_cost three_of_four v [1; 2; 3]%Z i 9%Z
              holds_three_of_four Hroom)
    as (v' & w' & Hrun & Htr & _); [simpl; lia|constructor|apply quiet_ints|].
  exists v', w'. split; [exact Hrun|exact Htr].
Defined.

Lemma insert_then_Erase_restores_witness :
  let v := mkVector (mkRawMemory 3 4) 3 in
  let i := DoInsertMove 1 (External 9%Z) in
  holds (heap three_of_four) v [1; 2; 3]%Z ∧
  fresh (heap three_of_four) (next_addr three_of_four) ∧
  ∃ v1 w1 v2 it w2,
    insert v i three_of_four = Ok v1 w1 ∧
    Erase v1 (cbegin v1 +ₚ 1) w1 = Ok (v2, it) w2 ∧
    holds (heap w2) v2 [1; 2; 3]%Z.
Proof.
  intros v i. split; [exact holds_three_of_four|]. split; [exact fresh_three_of_four|].
  destruct (insert_then_Erase_restores three_of_four v [1; 2; 3]%Z i 9%Z
              holds_three_of_four fresh_three_of_four)
    as (v1 & w1 & v2 & it & w2 & Hrun1 & Hrun2 & Hv2 & _);
    [simpl; lia|constructor|apply quiet_ints|].
  exists v1, w1, v2, it, w2. split; [exact Hrun1|]. split; [exact Hrun2|exact Hv2].
Defined.

Lemma push_then_PopBack_restores_witness :
  let v := mkVector (mkRawMemory 1 2) 2 in
  let i := DoPushBack (External 9%Z) in
  holds (heap two_of_two) v [5; 6]%Z ∧
  fresh (heap two_of_two) (next_addr two_of_two) ∧
  insertion_index v i = 2 ∧
  ∃ v1 w1 v2 w2,
    insert v i two_of_two = Ok v1 w1 ∧ PopBack v1 w1 = Ok v2 w2 ∧
    holds (heap w2) v2 [5; 6]%Z ∧ Capacity v1 = 4.
Proof.
  intros v i. split; [exact holds_two_of_two|]. split; [exact fresh_two_of_two|].
  split; [reflexivity|].
  destruct (push_then_PopBack_restores two_of_two v [5; 6]%Z i 9%Z
              holds_two_of_two fresh_two_of_two)
    as (v1 & w1 & v2 & w2 & Hrun1 & Hrun2 & Hv2 & _);
    [reflexivity|constructor|apply quiet_ints|].
  exists v1, w1, v2, w2. split; [exact Hrun1|]. split; [exact Hrun2|]. split; [exact Hv2|].
  vm_compute in Hrun1. injection Hrun1 as <- _. reflexivity.
Defined.

Lemma Vector_assign_copy_copies_the_elements_witness :
  let t := mkVector (mkRawMemory 1 4) 0 in
  let r := mkVector (mkRawMemory 2 1) 1 in
  vecs roomy_and_small !! 0 = Some t ∧ vecs roomy_and_small !! 1 = Some r ∧
  holds (heap roomy_and_small) t [] ∧ holds (heap roomy_and_small) r [1%Z] ∧
  fresh (heap roomy_and_small) (next_addr roomy_and_small) ∧
  ∃ t' w', Vector_assign_copy 0 1 roomy_and_small = Ok () w' ∧
    vecs w' !! 0 = Some t' ∧ holds (heap w') t' [1%Z] ∧ holds (heap w') r [1%Z] ∧
    Capacity t' = 4.
Proof.
  intros t r.
  assert (vecs roomy_and_small !! 0 = Some t) as Ht by (vm_compute; reflexivity).
  assert (vecs roomy_and_small !! 1 = Some r) as Hr by (vm_compute; reflexivity).
  split; [exact Ht|]. split; [exact Hr|]. split; [exact holds_roomy|].
  split; [exact holds_small|]. split; [exact fresh_roomy_and_small|].
  destruct (Vector_assign_copy_copies_the_elements roomy_and_small 0 1 t r [] [1%Z])
    as (t' & w' & Hrun & Ht' & Hvt' & _ & Hvr' & Hc & _);
    [lia|exact Ht|exact Hr|exact holds_roomy|exact holds_small|exact fresh_roomy_and_small|
     intros _ _; simpl; lia|apply quiet_ints|].
  exists t', w'. split; [exact Hrun|]. split; [exact Ht'|]. split; [exact Hvt'|].
  split; [exact Hvr'|exact Hc].
Defined.

Lemma Vector_Swap_exchanges_witness :
  let va := mkVector (mkRawMemory 1 1) 1 in
  let vb := mkVector (mkRawMemory 2 1) 1 in
  vecs two_vectors !! 0 = Some va ∧ vecs two_vectors !! 1 = Some vb ∧
  ∃ w', Vector_Swap 0 1 two_vectors = Ok () w' ∧
    vecs w' !! 0 = Some vb ∧ vecs w' !! 1 = Some va ∧
    Vector_Swap 0 1 w' = Ok () two_vectors.
Proof.
  intros va vb.
  assert (vecs two_vectors !! 0 = Some va) as Ha by (vm_compute; reflexivity).
  assert (vecs two_vectors !! 1 = Some vb) as Hb by (vm_compute; reflexivity).
  split; [exact Ha|]. split; [exact Hb|].
  destruct (Vector_Swap_exchanges two_vectors 0 1 va vb Ha Hb)
    as (w' & Hrun & Ha' & Hb' & _ & _ & _ & Hback).
  exists w'. split; [exact Hrun|]. split; [exact Ha'|]. split; [exact Hb'|exact Hback].
Defined.

Lemma PushBack_within_capacity_keeps_the_buffer_witness :
  let v := mkVector (mkRawMemory 1 4) 0 in
  vecs roomy_and_small !! 0 = Some v ∧
  holds (heap roomy_and_small) v [] ∧
  length (@nil Z) + length [8; 9]%Z ≤ Capacity v ∧
  ∃ v' w',
    perform_all [OpInsertion 0 (DoPushBack (External 8%Z));
                 OpInsertion 0 (DoPushBack (External 9%Z))] roomy_and_small = Ok () w' ∧
    vecs w' !! 0 = Some v' ∧ holds (heap w') v' [8; 9]%Z ∧ data_ v' = data_ v.
Proof.
  intros v.
  assert (vecs roomy_and_small !! 0 = Some v) as Ho by (vm_compute; reflexivity).
  assert (length (@nil Z) + length [8; 9]%Z ≤ Capacity v) as Hcap by (vm_compute; lia).
  split; [exact Ho|]. split; [exact holds_roomy|]. split; [exact Hcap|].
  destruct (PushBack_within_capacity_keeps_the_buffer [8; 9]%Z roomy_and_small 0 v []
              Ho holds_roomy Hcap (quiet_ints _ _))
    as (v' & w' & Hrun & Ho' & Hv' & Hd & _).
  exists v', w'. split; [exact Hrun|]. split; [exact Ho'|]. split; [exact Hv'|exact Hd].
Defined.

Lemma RawMemory_assign_move_into_empty_witness :
  raws empty_and_full_raw !! 0 = Some RawMemory_default ∧
  raws empty_and_full_raw !! 1 = Some (mkRawMemory 2 3) ∧
  buffer_ RawMemory_default = null ∧
  ∃ w', RawMemory_assign_move 0 1 empty_and_full_raw = Ok () w' ∧
    raws w' !! 0 = Some (mkRawMemory 2 3) ∧
    raws w' !! 1 = Some (mkRawMemory null 0).
Proof.
  assert (raws empty_and_full_raw !! 0 = Some RawMemory_default) as H0
    by (vm_compute; reflexivity).
  assert (raws empty_and_full_raw !! 1 = Some (mkRawMemory 2 3)) as H1
    by (vm_compute; reflexivity).
  split; [exact H0|]. split; [exact H1|]. split; [reflexivity|].
  destruct (RawMemory_assign_move_into_empty empty_and_full_raw 0 1 _ _ ltac:(lia) H0 H1)
    as (w' & Hrun & Ht & Hr & _); [reflexivity|].
  exists w'. split; [exact Hrun|]. split; [exact Ht|exact Hr].
Defined.

Lemma in_place_operations_never_throw_witness :
  in_place (OpErase (T:=Z) 0 1) = true ∧
  match perform (OpErase 0 1) three_of_four with
  | Ok _ w' => copies w' = 0 ∧ next_addr w' = 4
  | Throw _ => False
  | UB => True
  end.
Proof.
  split; [reflexivity|].
  destruct in_place_operations_never_throw as [Hop _].
  exact (Hop (OpErase 0 1) eq_refl three_of_four).
Defined.

Lemma Emplace_behind_the_end_never_returns_witness :
  let v := mkVector (mkRawMemory 3 4) 3 in
  Size v < 4 ∧
  ∀ r w', Insert v (cbegin v +ₚ 4) (External 9%Z) three_of_four ≠ Ok r w'.
Proof.
  intros v. assert (Size v < 4) as Hd by (vm_compute; lia). split; [exact Hd|].
  destruct (Emplace_behind_the_end_never_returns three_of_four v 4
              (CopyOf (External 9%Z)) (External 9%Z) Hd) as (_ & Hins & _).
  exact Hins.
Defined.

End Further_on_ints.

Section Further_on_ints_stores.
#[local] Existing Instance int_Element.
#[local] Existing Instance int_Sized.

Lemma well_formed_one_empty_vector : well_formed one_empty_vector.
Proof.
  unfold well_formed, one_empty_vector. simpl.
  split; [|split; [|split]].
  - split; [discriminate|]. split; [reflexivity|]. apply map_Forall_empty.
  - intros o v Hv. apply lookup_singleton_Some in Hv as [_ <-].
    exists []. apply holds_default.
  - intros o1 o2 v1 v2 H1 H2 Hne.
    apply lookup_singleton_Some in H1 as [<- _].
    apply lookup_singleton_Some in H2 as [<- _]. done.
  - intros a b Hb. by rewrite lookup_empty in Hb.
Defined.

Lemma valid_operations_are_safe_witness :
  let ops := [OpInsertion 0 (DoPushBackMove (External 1%Z));
              OpInsertion 0 (DoPushBack (External 2%Z));
              OpInsertion 0 (DoInsert 0 (External 3%Z));
              OpErase 0 1; OpResize 0 4; OpAssignCopy 0 0; OpSwap 0 0; OpPopBack 0;
              OpReserve 0 9; OpAssignMove 0 0] in
  well_formed one_empty_vector ∧
  Machine.valid_all ops one_empty_vector ∧
  ∃ w' : world Z, Machine.perform_all ops one_empty_vector = Ok () w' ∧ well_formed w' ∧
    contents_of w' 0 = Some [3; 2; 0]%Z.
Proof.
  intros ops.
  assert (Machine.valid_all ops one_empty_vector) as Hvalid.
  { vm_compute.
    repeat (split; [first [by eexists; split; [reflexivity|split; [simpl; lia|eexists; constructor]]
                          |by eexists; split; [reflexivity|simpl; lia]
                          |by eexists
                          |by split; eexists
                          |by split; [eexists|]]|]).
    done. }
  split; [exact well_formed_one_empty_vector|]. split; [exact Hvalid|].
  pose proof (valid_operations_are_safe ops one_empty_vector
                well_formed_one_empty_vector Hvalid) as Hsafe.
  destruct (Machine.perform_all ops one_empty_vector) as [[] w'|w'|] eqn:Hrun.
  - exists w'. split; [reflexivity|]. split; [exact Hsafe|].
    vm_compute in Hrun. injection Hrun as <-. vm_compute. reflexivity.
  - vm_compute in Hrun. discriminate.
  - destruct Hsafe.
Defined.

Lemma lifetimes_keep_the_store_consistent_witness :
  well_formed one_empty_vector ∧
  vecs one_empty_vector !! 1 = None ∧
  vecs one_empty_vector !! 0 = Some Vector_default ∧
  Machine.fits 2 ∧
  (∃ w', declare 1 (Machine.Vector_ctor_size 2) one_empty_vector = Ok () w' ∧
         well_formed w' ∧ contents_of w' 1 = Some [0; 0]%Z) ∧
  (∃ w', Vector_destroy 0 one_empty_vector = Ok () w' ∧ well_formed w').
Proof.
  assert (vecs one_empty_vector !! 1 = None) as H1 by (vm_compute; reflexivity).
  assert (vecs one_empty_vector !! 0 = Some Vector_default) as H0 by (vm_compute; reflexivity).
  assert (Machine.fits 2) as Hfits by (by vm_compute).
  split; [exact well_formed_one_empty_vector|]. split; [exact H1|]. split; [exact H0|].
  split; [exact Hfits|]. split.
  - destruct (lifetimes_keep_the_store_consistent one_empty_vector 1
                well_formed_one_empty_vector) as [Hdeclare _].
    destruct (Hdeclare H1) as (Hsize & _).
    destruct (Hsize 2 Hfits) as (w' & Hrun & Hw' & Hc).
    exists w'. split; [exact Hrun|]. split; [exact Hw'|exact Hc].
  - destruct (lifetimes_keep_the_store_consistent one_empty_vector 0
                well_formed_one_empty_vector) as [_ Hdestroy].
    destruct (Hdestroy _ H0) as (w' & Hrun & Hw' & _).
    exists w'. split; [exact Hrun|exact Hw'].
Defined.

Lemma PushBack_from_empty_capacity_is_power_of_two_witness :
  let ys := [1; 2; 3; 4; 5]%Z in
  vecs one_empty_vector !! 0 = Some Vector_default ∧
  fresh (heap one_empty_vector) (next_addr one_empty_vector) ∧
  quiet_from (copies one_empty_vector) ∧
  ys ≠ [] ∧
  ∃ v' w',
    perform_all ((λ y, OpInsertion 0 (DoPushBack (External y))) <$> ys) one_empty_vector
      = Ok () w' ∧
    vecs w' !! 0 = Some v' ∧ holds (heap w') v' ys ∧ Capacity v' = 8.
Proof.
  intros ys.
  assert (vecs one_empty_vector !! 0 = Some Vector_default) as Ho by (vm_compute; reflexivity).
  assert (fresh (heap one_empty_vector) (next_addr one_empty_vector)) as Hfr
    by (split; [discriminate|split; [reflexivity|apply map_Forall_empty]]).
  assert (quiet_from (copies one_empty_vector)) as Hq by (intros k x Hk; reflexivity).
  assert (ys ≠ []) as Hne by discriminate.
  split; [exact Ho|]. split; [exact Hfr|]. split; [exact Hq|]. split; [exact Hne|].
  destruct (PushBack_from_empty_capacity_is_power_of_two ys one_empty_vector 0 Ho Hfr Hq Hne)
    as (v' & w' & Hrun & Ho' & Hv' & _).
  exists v', w'. split; [exact Hrun|]. split; [exact Ho'|]. split; [exact Hv'|].
  vm_compute in Hrun. injection Hrun as <-. vm_compute in Ho'. injection Ho' as <-.
  reflexivity.
Defined.

End Further_on_ints_stores.

Section Further_on_fragile_elements.
#[local] Existing Instance int_Sized.

(** With a copy constructor that throws on its second call, copying the
    vector [5, 6] makes one copy, destroys it again, throws, and leaves the
    heap as it was. *)
Lemma Vector_ctor_copy_throw_releases_everything_witness :
  let E := fragile_Element 1 in
  let other := mkVector (mkRawMemory 1 2) 2 in
  holds (heap two_of_two) other [5; 6]%Z ∧
  fresh (heap two_of_two) (next_addr two_of_two) ∧
  [5; 6]%Z !! 1 = Some 6%Z ∧
  copies_quiet (copies two_of_two) (take 1 [5; 6]%Z) ∧
  copy_throws (copies two_of_two + 1) 6%Z = true ∧
  ∃ w', Vector_ctor_copy other two_of_two = Throw w' ∧ heap w' = heap two_of_two ∧
    trace w' = [EvCopyCtor; EvDtor].
Proof.
  intros E other.
  assert (holds (heap two_of_two) other [5; 6]%Z) as Hv
    by (split; [reflexivity|split; [simpl; lia|split; [discriminate|vm_compute; reflexivity]]]).
  assert (fresh (heap two_of_two) (next_addr two_of_two)) as Hfr.
  { split; [discriminate|]. split; [vm_compute; reflexivity|].
    apply map_Forall_singleton. simpl. lia. }
  assert ([5; 6]%Z !! 1 = Some 6%Z) as Hk by reflexivity.
  assert (copies_quiet (copies two_of_two) (take 1 [5; 6]%Z)) as Hq.
  { intros [|i] y Hy; [reflexivity|discriminate]. }
  assert (copy_throws (copies two_of_two + 1) 6%Z = true) as Hy by reflexivity.
  split; [exact Hv|]. split; [exact Hfr|]. split; [exact Hk|]. split; [exact Hq|].
  split; [exact Hy|].
  destruct (Vector_ctor_copy_throw_releases_everything two_of_two other [5; 6]%Z 1 6%Z
              Hv Hfr Hk Hq Hy)
    as (w' & Hrun & Hh & _ & Htr).
  exists w'. split; [exact Hrun|]. split; [exact Hh|exact Htr].
Defined.

(** With a copy constructor that throws on its first call, [Reserve(5)]
    and [Resize(5)] on the full vector [5, 6] throw and leave the heap as
    it was. *)
Lemma Reserve_and_Resize_throw_unchanged_witness :
  let E := fragile_Element 0 in
  let v := mkVector (mkRawMemory 1 2) 2 in
  holds (heap two_of_two) v [5; 6]%Z ∧
  fresh (heap two_of_two) (next_addr two_of_two) ∧
  Capacity v < 5 ∧
  Machine.fits 5 ∧
  copies_throw (copies two_of_two) (copied_by_relocation [5; 6]%Z) ∧
  (∃ w', Machine.Reserve v 5 two_of_two = Throw w' ∧ heap w' = heap two_of_two) ∧
  (∃ w', Machine.Resize v 5 two_of_two = Throw w' ∧ heap w' = heap two_of_two).
Proof.
  intros E v.
  assert (holds (heap two_of_two) v [5; 6]%Z) as Hv
    by (split; [reflexivity|split; [simpl; lia|split; [discriminate|vm_compute; reflexivity]]]).
  assert (fresh (heap two_of_two) (next_addr two_of_two)) as Hfr.
  { split; [discriminate|]. split; [vm_compute; reflexivity|].
    apply map_Forall_singleton. simpl. lia. }
  assert (Capacity v < 5) as Hn by (vm_compute; lia).
  assert (Machine.fits 5) as Hfits by (by vm_compute).
  assert (copies_throw (copies two_of_two) (copied_by_relocation [5; 6]%Z)) as Hth
    by (exists 0, 5%Z; split; reflexivity).
  split; [exact Hv|]. split; [exact Hfr|]. split; [exact Hn|]. split; [exact Hfits|].
  split; [exact Hth|].
  destruct (Reserve_and_Resize_throw_unchanged two_of_two v [5; 6]%Z 5 Hv Hfr Hn Hfits Hth)
    as [(w1 & Hrun1 & Hh1 & _) (w2 & Hrun2 & Hh2 & _)].
  split; [exists w1|exists w2]; split; assumption.
Defined.

(** With a copy constructor that throws on its first call, [PushBack] of
    an lvalue into spare capacity throws and leaves the heap as it was. *)
Lemma insertion_with_room_throw_unchanged_witness :
  let E := fragile_Element 0 in
  let v := mkVector (mkRawMemory 3 4) 3 in
  let i := DoPushBack (External 9%Z) in
  holds (heap three_of_four) v [1; 2; 3]%Z ∧
  Size v < Capacity v ∧
  insertion_index v i ≤ 3 ∧
  copies_throw (copies three_of_four) (copied_by_make (insertion_args i) 9%Z) ∧
  ∃ w', insert v i three_of_four = Throw w' ∧ heap w' = heap three_of_four.
Proof.
  intros E v i.
  assert (holds (heap three_of_four) v [1; 2; 3]%Z) as Hv
    by (split; [reflexivity|split; [simpl; lia|split; [discriminate|vm_compute; reflexivity]]]).
  assert (Size v < Capacity v) as Hroom by (vm_compute; lia).
  assert (insertion_index v i ≤ 3) as Hd by (simpl; lia).
  assert (copies_throw (copies three_of_four) (copied_by_make (insertion_args i) 9%Z)) as Hth
    by (exists 0, 9%Z; split; reflexivity).
  split; [exact Hv|]. split; [exact Hroom|]. split; [exact Hd|]. split; [exact Hth|].
  destruct (insertion_with_room_throw_unchanged three_of_four v [1; 2; 3]%Z i 9%Z
              Hv Hroom Hd ltac:(constructor) Hth) as (w' & Hrun & Hh & _).
  exists w'. split; [exact Hrun|exact Hh].
Defined.

(** With a copy constructor that throws on its first call, copy
    assignment of [1] to an empty vector of capacity 4 throws and leaves
    the heap and both vectors as they were. *)
Lemma Vector_assign_copy_throw_unchanged_witness :
  let E := fragile_Element 0 in
  let t := mkVector (mkRawMemory 1 4) 0 in
  let r := mkVector (mkRawMemory 2 1) 1 in
  vecs roomy_and_small !! 0 = Some t ∧ vecs roomy_and_small !! 1 = Some r ∧
  holds (heap roomy_and_small) t [] ∧ holds (heap roomy_and_small) r [1%Z] ∧
  fresh (heap roomy_and_small) (next_addr roomy_and_small) ∧
  copies_throw (copies roomy_and_small) [1%Z] ∧
  ∃ w', Vector_assign_copy 0 1 roomy_and_small = Throw w' ∧
    heap w' = heap roomy_and_small ∧ vecs w' = vecs roomy_and_small.
Proof.
  intros E t r.
  assert (vecs roomy_and_small !! 0 = Some t) as Ht by (vm_compute; reflexivity).
  assert (vecs roomy_and_small !! 1 = Some r) as Hr by (vm_compute; reflexivity).
  assert (holds (heap roomy_and_small) t []) as Hvt
    by (split; [reflexivity|split; [simpl; lia|split; [discriminate|vm_compute; reflexivity]]]).
  assert (holds (heap roomy_and_small) r [1%Z]) as Hvr
    by (split; [reflexivity|split; [simpl; lia|split; [discriminate|vm_compute; reflexivity]]]).
  assert (fresh (heap roomy_and_small) (next_addr roomy_and_small)) as Hfr.
  { split; [discriminate|]. split; [vm_compute; reflexivity|].
    apply map_Forall_insert_2; [simpl; lia|]. apply map_Forall_singleton. simpl. lia. }
  assert (copies_throw (copies roomy_and_small) [1%Z]) as Hth
    by (exists 0, 1%Z; split; reflexivity).
  split; [exact Ht|]. split; [exact Hr|]. split; [exact Hvt|]. split; [exact Hvr|].
  split; [exact Hfr|]. split; [exact Hth|].
  destruct (Vector_assign_copy_throw_unchanged roomy_and_small 0 1 t r [] [1%Z])
    as (w' & Hrun & Hh & Hvs);
    [lia|exact Ht|exact Hr|exact Hvt|exact Hvr|exact Hfr|intros _ _; simpl; lia|exact Hth|].
  exists w'. split; [exact Hrun|]. split; [exact Hh|exact Hvs].
Defined.

End Further_on_fragile_elements.
